(** * Transient buffer cache of the Vulkan backend

    A shallow embedding of [src/xenia/gpu/vulkan/buffer_cache.cc]: the
    index-buffer copy routines with primitive-restart substitution, the
    guest-range cache ([transient_cache_]) and the upload entry points of
    [BufferCache], over an abstract ring allocator ([CircularBuffer]). *)

From Stdlib Require Import ZArith List Lia Bool Sorted.
Import ListNotations.
Local Open Scope Z_scope.

(** ** Machine integers *)

Definition u8 (x : Z) : Z := x mod 2 ^ 8.
Definition u16 (x : Z) : Z := x mod 2 ^ 16.
Definition u32 (x : Z) : Z := x mod 2 ^ 32.
(** [size_t] and [VkDeviceSize] are 64-bit on the supported hosts. *)
Definition u64 (x : Z) : Z := x mod 2 ^ 64.

(** [VK_WHOLE_SIZE] is [(~0ULL)] in the Vulkan headers; the cache uses it as
    its "no offset" value. *)
Definition VK_WHOLE_SIZE : Z := 2 ^ 64 - 1.

(** ** Byte-addressed memory

    A memory is a map from addresses to bytes.  Reads go through [byte_at],
    which keeps every byte in [0, 256).  Multi-byte accesses are
    little-endian, as on the AMD64 hosts the vector routines are built for. *)

Definition mem := Z -> Z.

Definition byte_at (m : mem) (p : Z) : Z := u8 (m p).

Definition store8 (m : mem) (p v : Z) : mem :=
  fun q => if q =? p then u8 v else m q.

Definition load16 (m : mem) (p : Z) : Z :=
  byte_at m p + 2 ^ 8 * byte_at m (p + 1).

Definition store16 (m : mem) (p v : Z) : mem :=
  store8 (store8 m p v) (p + 1) (Z.shiftr v 8).

Definition load32 (m : mem) (p : Z) : Z :=
  byte_at m p + 2 ^ 8 * byte_at m (p + 1) + 2 ^ 16 * byte_at m (p + 2)
  + 2 ^ 24 * byte_at m (p + 3).

Definition store32 (m : mem) (p v : Z) : mem :=
  store8 (store8 (store8 (store8 m p v) (p + 1) (Z.shiftr v 8))
                 (p + 2) (Z.shiftr v 16))
         (p + 3) (Z.shiftr v 24).

(** [std::memcpy(dest + dp, src + sp, n)] for non-overlapping objects. *)
Definition memcpy (dest : mem) (dp : Z) (src : mem) (sp n : Z) : mem :=
  fun q => if (dp <=? q) && (q <? dp + n) then src (sp + (q - dp)) else dest q.

(** ** Routines of [xenia/base] used by the cache *)

Module xe.

(** Modelled from the spec: [xe::byte_swap] is defined in
    [xenia/base/byte_order.h]; on a 16-bit element it reverses the two
    bytes. *)
Definition byte_swap16 (value : Z) : Z :=
  Z.lor (Z.shiftl (Z.land value 255) 8) (Z.land (Z.shiftr value 8) 255).

(** Modelled from the spec: [xe::byte_swap] on a 32-bit element reverses its
    four bytes. *)
Definition byte_swap32 (value : Z) : Z :=
  Z.lor (Z.lor (Z.shiftl (Z.land value 255) 24)
               (Z.shiftl (Z.land (Z.shiftr value 8) 255) 16))
        (Z.lor (Z.shiftl (Z.land (Z.shiftr value 16) 255) 8)
               (Z.land (Z.shiftr value 24) 255)).

(** Modelled from the spec: [xe::copy_and_swap_16_unaligned]
    ([xenia/base/memory.cc], SwapWords16) reverses the byte order within each
    of [count] 16-bit elements. *)
Definition copy_and_swap_16_unaligned
    (dest : mem) (dest_ptr : Z) (src : mem) (src_ptr : Z) (count : Z) : mem :=
  fun q =>
    if (dest_ptr <=? q) && (q <? dest_ptr + 2 * count) then
      let k := q - dest_ptr in
      byte_at src (src_ptr + 2 * (k / 2) + (1 - k mod 2))
    else dest q.

(** Modelled from the spec: [xe::copy_and_swap_32_unaligned] (SwapWords32)
    reverses the byte order within each of [count] 32-bit elements. *)
Definition copy_and_swap_32_unaligned
    (dest : mem) (dest_ptr : Z) (src : mem) (src_ptr : Z) (count : Z) : mem :=
  fun q =>
    if (dest_ptr <=? q) && (q <? dest_ptr + 4 * count) then
      let k := q - dest_ptr in
      byte_at src (src_ptr + 4 * (k / 4) + (3 - k mod 4))
    else dest q.

(** Modelled from the spec: [xe::copy_and_swap_16_in_32_unaligned]
    (SwapHalvesIn32) swaps the two 16-bit halves of each of [count] 32-bit
    elements and keeps the byte order inside each half. *)
Definition copy_and_swap_16_in_32_unaligned
    (dest : mem) (dest_ptr : Z) (src : mem) (src_ptr : Z) (count : Z) : mem :=
  fun q =>
    if (dest_ptr <=? q) && (q <? dest_ptr + 4 * count) then
      let k := q - dest_ptr in
      byte_at src (src_ptr + 4 * (k / 4) + (k mod 4 + 2) mod 4)
    else dest q.

End xe.

(** ** SSE intrinsics

    An [__m128i] is its sixteen bytes, least significant first. *)

Definition m128i := list Z.

Definition _mm_set_epi8 (e15 e14 e13 e12 e11 e10 e9 e8
                         e7 e6 e5 e4 e3 e2 e1 e0 : Z) : m128i :=
  map u8 [e0; e1; e2; e3; e4; e5; e6; e7; e8; e9; e10; e11; e12; e13; e14; e15].

Definition _mm_set1_epi16 (a : Z) : m128i :=
  concat (repeat [u8 a; u8 (Z.shiftr a 8)] 8).

Definition _mm_set1_epi32 (a : Z) : m128i :=
  concat (repeat [u8 a; u8 (Z.shiftr a 8); u8 (Z.shiftr a 16);
                  u8 (Z.shiftr a 24)] 4).

Definition _mm_loadu_si128 (m : mem) (p : Z) : m128i :=
  map (fun k => byte_at m (p + Z.of_nat k)) (seq 0 16).

Fixpoint store_bytes (m : mem) (p : Z) (bs : list Z) : mem :=
  match bs with
  | [] => m
  | b :: bs' => store_bytes (store8 m p b) (p + 1) bs'
  end.

Definition _mm_storeu_si128 (m : mem) (p : Z) (a : m128i) : mem :=
  store_bytes m p a.

(** Byte [i] of the result is zero when bit 7 of the selector byte is set, and
    byte [b[i] & 15] of [a] otherwise. *)
Definition _mm_shuffle_epi8 (a b : m128i) : m128i :=
  map (fun c => if Z.testbit c 7 then 0
                else nth (Z.to_nat (Z.land c 15)) a 0) b.

(** The bytes of a comparison result for one lane: all ones when the two
    lanes are equal, zero otherwise. *)
Definition lane_mask (la lb : list Z) : Z :=
  if list_eq_dec Z.eq_dec la lb then 255 else 0.

Fixpoint cmpeq_lanes (w : nat) (a b : list Z) (lanes : nat) : list Z :=
  match lanes with
  | O => []
  | S lanes' =>
      repeat (lane_mask (firstn w a) (firstn w b)) w
      ++ cmpeq_lanes w (skipn w a) (skipn w b) lanes'
  end.

(** Each 16-bit lane becomes all ones when the two lanes are equal and zero
    otherwise. *)
Definition _mm_cmpeq_epi16 (a b : m128i) : m128i := cmpeq_lanes 2 a b 8.

(** The same on the four 32-bit lanes. *)
Definition _mm_cmpeq_epi32 (a b : m128i) : m128i := cmpeq_lanes 4 a b 4.

Fixpoint or_bytes (a b : list Z) : list Z :=
  match a, b with
  | x :: a', y :: b' => Z.lor x y :: or_bytes a' b'
  | _, _ => []
  end.

Definition _mm_or_si128 (a b : m128i) : m128i := or_bytes a b.

(** ** The index copy routines *)

(** The vector loop of [copy_cmp_swap_16_unaligned]:
    [for (i = 0; i + 8 <= count; i += 8)].  It returns the index it stopped
    at together with the destination.  Loops recurse on a number of rounds;
    the routines pass [count], which every loop here exhausts its condition
    within (see the [_spec] lemmas). *)
Fixpoint cmp_swap_16_vector_loop (fuel : nat) (src : mem) (src_ptr : Z)
    (shufmask cmpval : m128i) (count i : Z) (dest : mem) (dest_ptr : Z)
    : Z * mem :=
  match fuel with
  | O => (i, dest)
  | S fuel' =>
      if u64 (i + 8) <=? count then
        let input := _mm_loadu_si128 src (src_ptr + 2 * i) in
        let output := _mm_shuffle_epi8 input shufmask in
        let mask := _mm_cmpeq_epi16 output cmpval in
        let output := _mm_or_si128 output mask in
        cmp_swap_16_vector_loop fuel' src src_ptr shufmask cmpval count
          (u64 (i + 8)) (_mm_storeu_si128 dest (dest_ptr + 2 * i) output)
          dest_ptr
      else (i, dest)
  end.

(** The loop for the residual elements:
    [for (; i < count; ++i) dest[i] = byte_swap(src[i]);]. *)
Fixpoint swap_16_residual_loop (fuel : nat) (src : mem) (src_ptr : Z)
    (count i : Z) (dest : mem) (dest_ptr : Z) : mem :=
  match fuel with
  | O => dest
  | S fuel' =>
      if i <? count then
        swap_16_residual_loop fuel' src src_ptr count (u64 (i + 1))
          (store16 dest (dest_ptr + 2 * i)
             (xe.byte_swap16 (load16 src (src_ptr + 2 * i))))
          dest_ptr
      else dest
  end.

Definition copy_cmp_swap_16_unaligned (dest : mem) (dest_ptr : Z)
    (src : mem) (src_ptr : Z) (cmp_value : Z) (count : Z) : mem :=
  let shufmask :=
    _mm_set_epi8 0x0E 0x0F 0x0C 0x0D 0x0A 0x0B 0x08 0x09 0x06 0x07
                 0x04 0x05 0x02 0x03 0x00 0x01 in
  let cmpval := _mm_set1_epi16 cmp_value in
  let '(i, dest1) :=
    cmp_swap_16_vector_loop (Z.to_nat count) src src_ptr shufmask cmpval
      count 0 dest dest_ptr in
  swap_16_residual_loop (Z.to_nat count) src src_ptr count i dest1 dest_ptr.

Fixpoint cmp_swap_32_vector_loop (fuel : nat) (src : mem) (src_ptr : Z)
    (shufmask cmpval : m128i) (count i : Z) (dest : mem) (dest_ptr : Z)
    : Z * mem :=
  match fuel with
  | O => (i, dest)
  | S fuel' =>
      if u64 (i + 4) <=? count then
        let input := _mm_loadu_si128 src (src_ptr + 4 * i) in
        let output := _mm_shuffle_epi8 input shufmask in
        let mask := _mm_cmpeq_epi32 output cmpval in
        let output := _mm_or_si128 output mask in
        cmp_swap_32_vector_loop fuel' src src_ptr shufmask cmpval count
          (u64 (i + 4)) (_mm_storeu_si128 dest (dest_ptr + 4 * i) output)
          dest_ptr
      else (i, dest)
  end.

Fixpoint swap_32_residual_loop (fuel : nat) (src : mem) (src_ptr : Z)
    (count i : Z) (dest : mem) (dest_ptr : Z) : mem :=
  match fuel with
  | O => dest
  | S fuel' =>
      if i <? count then
        swap_32_residual_loop fuel' src src_ptr count (u64 (i + 1))
          (store32 dest (dest_ptr + 4 * i)
             (xe.byte_swap32 (load32 src (src_ptr + 4 * i))))
          dest_ptr
      else dest
  end.

Definition copy_cmp_swap_32_unaligned (dest : mem) (dest_ptr : Z)
    (src : mem) (src_ptr : Z) (cmp_value : Z) (count : Z) : mem :=
  let shufmask :=
    _mm_set_epi8 0x0C 0x0D 0x0E 0x0F 0x08 0x09 0x0A 0x0B 0x04 0x05
                 0x06 0x07 0x00 0x01 0x02 0x03 in
  let cmpval := _mm_set1_epi32 cmp_value in
  let '(i, dest1) :=
    cmp_swap_32_vector_loop (Z.to_nat count) src src_ptr shufmask cmpval
      count 0 dest dest_ptr in
  swap_32_residual_loop (Z.to_nat count) src src_ptr count i dest1 dest_ptr.

(** The scalar variants built when [XE_ARCH_AMD64] is not defined.  They carry
    the names [copy_and_swap_16_unaligned] and [copy_and_swap_32_unaligned]
    although they take the comparison value. *)
Fixpoint copy_and_swap_16_loop (fuel : nat) (src : mem) (src_ptr : Z)
    (cmp_value count i : Z) (dest : mem) (dest_ptr : Z) : mem :=
  match fuel with
  | O => dest
  | S fuel' =>
      if i <? count then
        let value := xe.byte_swap16 (load16 src (src_ptr + 2 * i)) in
        copy_and_swap_16_loop fuel' src src_ptr cmp_value count (u64 (i + 1))
          (store16 dest (dest_ptr + 2 * i)
             (if value =? cmp_value then 0xFFFF else value))
          dest_ptr
      else dest
  end.

Definition copy_and_swap_16_unaligned (dest : mem) (dest_ptr : Z)
    (src : mem) (src_ptr : Z) (cmp_value : Z) (count : Z) : mem :=
  copy_and_swap_16_loop (Z.to_nat count) src src_ptr cmp_value count 0
    dest dest_ptr.

Fixpoint copy_and_swap_32_loop (fuel : nat) (src : mem) (src_ptr : Z)
    (cmp_value count i : Z) (dest : mem) (dest_ptr : Z) : mem :=
  match fuel with
  | O => dest
  | S fuel' =>
      if i <? count then
        let value := xe.byte_swap32 (load32 src (src_ptr + 4 * i)) in
        copy_and_swap_32_loop fuel' src src_ptr cmp_value count (u64 (i + 1))
          (store32 dest (dest_ptr + 4 * i)
             (if value =? cmp_value then 0xFFFFFFFF else value))
          dest_ptr
      else dest
  end.

Definition copy_and_swap_32_unaligned (dest : mem) (dest_ptr : Z)
    (src : mem) (src_ptr : Z) (cmp_value : Z) (count : Z) : mem :=
  copy_and_swap_32_loop (Z.to_nat count) src src_ptr cmp_value count 0
    dest dest_ptr.

(** ** The ring allocator behind [transient_buffer_]

    [ui::vulkan::CircularBuffer] is defined in
    [xenia/ui/vulkan/circular_buffer.cc].  The cache only uses [Acquire],
    [Scavenge], [Flush] and [gpu_buffer], so the ring is taken as an
    interface; the bytes behind [host_base()] are kept in the state of the
    cache. *)

Definition VkFence := Z.
Definition VkBuffer := Z.
Definition VkCommandBuffer := Z.
Definition nullptr : Z := 0.

Module CircularBuffer.

(** Modelled from the spec: an Allocation is [{offset, length, fence}]. *)
Record Allocation := {
  offset : Z;
  length : Z;
  fence : VkFence
}.

Class Interface (R : Type) := {
  gpu_buffer : R -> VkBuffer;
  (** [Acquire(length, fence)] returns the allocation, or nothing when the
      ring has no room ([nullptr]). *)
  Acquire : Z -> VkFence -> R -> option Allocation * R;
  Scavenge : R -> R;
  Flush : Z -> Z -> R -> R
}.

(** What the cache relies on: a ring invariant, kept by every method, under
    which each granted range [offset, offset + length) lies below
    [VK_WHOLE_SIZE]. *)
Class Bounded (R : Type) `{Interface R} := {
  ring_ok : R -> Prop;
  Acquire_ok : forall l f r,
    ring_ok r -> 0 <= l -> ring_ok (snd (Acquire l f r));
  Acquire_range : forall l f r a,
    ring_ok r -> 0 <= l -> fst (Acquire l f r) = Some a ->
    0 <= offset a /\ offset a + l < VK_WHOLE_SIZE;
  Scavenge_ok : forall r, ring_ok r -> ring_ok (Scavenge r);
  Flush_ok : forall o l r, ring_ok r -> ring_ok (Flush o l r)
}.

(** A call-recording wrapper around any ring: it behaves as the ring it wraps
    and appends each call to [calls]. *)
Inductive Call :=
| CallAcquire (length : Z) (fence : VkFence)
| CallScavenge
| CallFlush (offset length : Z).

Record Probed (R : Type) := {
  inner : R;
  calls : list Call
}.
Arguments inner {R} _.
Arguments calls {R} _.

#[global] Instance Probed_Interface (R : Type) `{Interface R}
  : Interface (Probed R) := {
  gpu_buffer p := gpu_buffer (inner p);
  Acquire len f p :=
    let '(a, r) := Acquire len f (inner p) in
    (a, {| inner := r; calls := calls p ++ [CallAcquire len f] |});
  Scavenge p :=
    {| inner := Scavenge (inner p); calls := calls p ++ [CallScavenge] |};
  Flush off len p :=
    {| inner := Flush off len (inner p);
       calls := calls p ++ [CallFlush off len] |}
}.

End CircularBuffer.

(** ** A concrete ring allocator *)

Module RingAllocator.
Import CircularBuffer.

(** Modelled from the spec: the state of the RingAllocator, a fixed-capacity
    arena with its alignment, the write cursor, the outstanding allocations
    in grant order (oldest first) and the fences known to have signaled. *)
Record t := {
  handle : VkBuffer;
  capacity : Z;
  alignment : Z;
  cursor : Z;
  outstanding : list Allocation;
  signaled : list VkFence
}.

(** Modelled from the spec: lengths are rounded up to the alignment
    granularity. *)
Definition round_up (x a : Z) : Z := (x + a - 1) / a * a.

(** Modelled from the spec: a successful Acquire associates the fence with
    the new allocation and advances the cursor past it. *)
Definition grant (r : t) (off len : Z) (f : VkFence) : option Allocation * t :=
  let a := {| offset := off; length := len; fence := f |} in
  (Some a,
   {| handle := handle r; capacity := capacity r; alignment := alignment r;
      cursor := off + len; outstanding := outstanding r ++ [a];
      signaled := signaled r |}).

(** Modelled from the spec: Acquire rounds the length up to the alignment,
    places it at the cursor when the tail is large enough, wraps to the start
    of the arena when that region is not owned by an unretired allocation,
    and is exhausted when there is no free contiguous span between the cursor
    and the start of the oldest unretired allocation. *)
Definition Acquire (len : Z) (f : VkFence) (r : t) : option Allocation * t :=
  let len := round_up len (alignment r) in
  match outstanding r with
  | [] =>
      if cursor r + len <=? capacity r then grant r (cursor r) len f
      else if len <=? capacity r then grant r 0 len f
      else (None, r)
  | oldest :: _ =>
      if offset oldest <? cursor r then
        if cursor r + len <=? capacity r then grant r (cursor r) len f
        else if len <=? offset oldest then grant r 0 len f
        else (None, r)
      else
        if cursor r + len <=? offset oldest then grant r (cursor r) len f
        else (None, r)
  end.

(** Modelled from the spec: retirement stops at the first allocation whose
    fence has not signaled. *)
Fixpoint retire (sig : list VkFence) (allocs : list Allocation)
  : list Allocation :=
  match allocs with
  | [] => []
  | a :: rest =>
      if existsb (Z.eqb (fence a)) sig then retire sig rest else allocs
  end.

(** Modelled from the spec: Scavenge walks the outstanding allocations in
    grant order and retires every prefix whose fence has signaled. *)
Definition Scavenge (r : t) : t :=
  {| handle := handle r; capacity := capacity r; alignment := alignment r;
     cursor := cursor r; outstanding := retire (signaled r) (outstanding r);
     signaled := signaled r |}.

(** Modelled from the spec: the fence provider; [signal f] is the GPU
    completing the work guarded by fence [f]. *)
Definition signal (f : VkFence) (r : t) : t :=
  {| handle := handle r; capacity := capacity r; alignment := alignment r;
     cursor := cursor r; outstanding := outstanding r;
     signaled := f :: signaled r |}.

(** Modelled from the spec: a new arena of fixed capacity and alignment,
    with nothing outstanding. *)
Definition create (h : VkBuffer) (cap align : Z) : t :=
  {| handle := h; capacity := cap; alignment := align; cursor := 0;
     outstanding := []; signaled := [] |}.

(** The cursor and the outstanding allocations stay inside the arena. *)
Definition inside_arena (r : t) : Prop :=
  0 < alignment r /\ 0 <= cursor r <= capacity r /\
  capacity r < VK_WHOLE_SIZE /\
  Forall (fun a => 0 <= offset a <= capacity r) (outstanding r).

#[global] Instance RingAllocator_Interface : Interface t := {
  gpu_buffer := handle;
  Acquire := Acquire;
  Scavenge := Scavenge;
  Flush _ _ r := r
}.

End RingAllocator.

(** ** Register file and guest memory *)

(** The indices of the registers the cache reads.  They come from
    [register_table.inc] and are parameters here. *)
Class RegisterTable := {
  XE_GPU_REG_SHADER_CONSTANT_000_X : Z;
  XE_GPU_REG_SHADER_CONSTANT_BOOL_000_031 : Z;
  XE_GPU_REG_SHADER_CONSTANT_LOOP_00 : Z;
  XE_GPU_REG_VGT_MULTI_PRIM_IB_RESET_INDX : Z;
  XE_GPU_REG_PA_SU_SC_MODE_CNTL : Z
}.

(** [register_file_->values] is an array of 32-bit register values, kept as
    its bytes; [values[r].u32] is the word at byte [4 * r]. *)
Definition reg_u32 (values : mem) (r : Z) : Z := load32 values (4 * r).

(** Guest memory as the cache sees it: the bytes of the physical heap and
    the translation of a guest physical address into them. *)
Record Memory := {
  physical : mem;
  TranslatePhysical : Z -> Z
}.

Inductive IndexFormat := kInt16 | kInt32.

Inductive Endian := kUnspecified | k8in16 | k8in32 | k16in32.

(** ** Barriers recorded into a command buffer *)

Inductive VkAccessFlag :=
| VK_ACCESS_HOST_WRITE_BIT
| VK_ACCESS_UNIFORM_READ_BIT
| VK_ACCESS_SHADER_READ_BIT
| VK_ACCESS_INDEX_READ_BIT
| VK_ACCESS_VERTEX_ATTRIBUTE_READ_BIT.

Inductive VkPipelineStage :=
| VK_PIPELINE_STAGE_HOST_BIT
| VK_PIPELINE_STAGE_ALL_COMMANDS_BIT
| VK_PIPELINE_STAGE_VERTEX_INPUT_BIT.

Record VkBufferMemoryBarrier := {
  srcAccessMask : list VkAccessFlag;
  dstAccessMask : list VkAccessFlag;
  buffer : VkBuffer;
  barrier_offset : Z;
  size : Z
}.

Record PipelineBarrier := {
  commandBuffer : VkCommandBuffer;
  srcStageMask : VkPipelineStage;
  dstStageMask : VkPipelineStage;
  bufferBarrier : VkBufferMemoryBarrier
}.

(** ** The guest-range cache

    [transient_cache_] is an ordered map from guest address to
    [(guest length, buffer offset)]; it is kept as the list of its entries in
    key order.  Keys and lengths are the 32-bit values stored by
    [CacheTransientData], so their sums wrap at 32 bits. *)

Definition cache_entry := (Z * (Z * Z))%type.
Definition cache := list cache_entry.

(** [transient_cache_[k] = v]. *)
Fixpoint map_assign (k : Z) (v : Z * Z) (m : cache) : cache :=
  match m with
  | [] => [(k, v)]
  | e :: m' =>
      if k <? fst e then (k, v) :: m
      else if k =? fst e then (k, v) :: m'
      else e :: map_assign k v m'
  end.

(** [transient_cache_.upper_bound(k)]: the iterator is the pair of the
    entries before it and the entries from it on (the first key above [k]). *)
Fixpoint upper_bound (k : Z) (m : cache) : cache * cache :=
  match m with
  | [] => ([], [])
  | e :: m' =>
      if k <? fst e then ([], m)
      else let '(before, it) := upper_bound k m' in (e :: before, it)
  end.

(** [--it] on a non-[begin()] iterator: the last entry before it. *)
Definition prev (before : cache) : option cache_entry :=
  match rev before with
  | [] => None
  | e :: _ => Some e
  end.

Definition FindCachedTransientData (guest_address guest_length : Z)
    (transient_cache_ : cache) : Z :=
  match transient_cache_ with
  | [] => VK_WHOLE_SIZE
  | _ :: _ =>
      let '(before, _) := upper_bound guest_address transient_cache_ in
      match prev before with
      | Some (first, (len, off)) =>
          if u32 (guest_address + guest_length) <=? u32 (first + len) then
            let source_offset := u32 (guest_address - first) in
            u64 (off + source_offset)
          else VK_WHOLE_SIZE
      | None => VK_WHOLE_SIZE
      end
  end.

(** The erase loop of [CacheTransientData], run on the entries from [it] on:
    it erases while the entry ends at or before [limit] and stops at the
    first one that does not. *)
Fixpoint erase_contained (limit : Z) (it : cache) : cache :=
  match it with
  | [] => []
  | (first, (len, off)) :: rest =>
      if u32 (first + len) <=? limit then erase_contained limit rest
      else it
  end.

Definition CacheTransientData (guest_address guest_length offset : Z)
    (transient_cache_ : cache) : cache :=
  let c := map_assign guest_address (guest_length, offset) transient_cache_ in
  let '(before, it) := upper_bound guest_address c in
  before ++ erase_contained (u32 (guest_address + guest_length)) it.

(** ** BufferCache *)

Definition kConstantRegisterUniformRange : Z := 512 * 4 * 4 + 8 * 4 + 32 * 4.

Module BufferCache.

Section WithRing.

Context {R : Type} `{CircularBuffer.Interface R} `{RegisterTable}.

(** The members the uploads touch, together with the bytes of the arena
    ([transient_buffer_->host_base()], indexed by buffer offset) and the
    barriers recorded so far. *)
Record t := {
  register_file_ : mem;
  memory_ : Memory;
  transient_buffer_ : R;
  host_base : mem;
  transient_cache_ : cache;
  recorded : list PipelineBarrier
}.

(** Methods are state transformers over [t]. *)
Definition M (A : Type) : Type := t -> A * t.

Definition ret {A} (a : A) : M A := fun s => (a, s).

Definition bind {A B} (m : M A) (k : A -> M B) : M B :=
  fun s => let '(a, s') := m s in k a s'.

Notation "x <- m ;; k" := (bind m (fun x => k))
  (at level 61, m at next level, right associativity).
Notation "m ;;; k" := (bind m (fun _ => k))
  (at level 61, right associativity).

Definition gets {A} (f : t -> A) : M A := fun s => (f s, s).

(** A call on [transient_buffer_] that returns a value. *)
Definition on_ring {A} (f : R -> A * R) : M A :=
  fun s =>
    let '(a, r) := f (transient_buffer_ s) in
    (a, {| register_file_ := register_file_ s; memory_ := memory_ s;
           transient_buffer_ := r; host_base := host_base s;
           transient_cache_ := transient_cache_ s;
           recorded := recorded s |}).

Definition on_ring_ (f : R -> R) : M unit :=
  on_ring (fun r => (tt, f r)).

(** A write through [transient_buffer_->host_base()]. *)
Definition on_host (f : mem -> mem) : M unit :=
  fun s =>
    (tt, {| register_file_ := register_file_ s; memory_ := memory_ s;
            transient_buffer_ := transient_buffer_ s;
            host_base := f (host_base s);
            transient_cache_ := transient_cache_ s;
            recorded := recorded s |}).

Definition on_cache (f : cache -> cache) : M unit :=
  fun s =>
    (tt, {| register_file_ := register_file_ s; memory_ := memory_ s;
            transient_buffer_ := transient_buffer_ s;
            host_base := host_base s;
            transient_cache_ := f (transient_cache_ s);
            recorded := recorded s |}).

Definition vkCmdPipelineBarrier (command_buffer : VkCommandBuffer)
    (src_stage dst_stage : VkPipelineStage) (b : VkBufferMemoryBarrier)
    : M unit :=
  fun s =>
    (tt, {| register_file_ := register_file_ s; memory_ := memory_ s;
            transient_buffer_ := transient_buffer_ s;
            host_base := host_base s;
            transient_cache_ := transient_cache_ s;
            recorded := recorded s ++
              [{| commandBuffer := command_buffer; srcStageMask := src_stage;
                  dstStageMask := dst_stage; bufferBarrier := b |}] |}).

Definition TryAllocateTransientData (length : Z) (fence : VkFence) : M Z :=
  alloc <- on_ring (CircularBuffer.Acquire length fence) ;;
  match alloc with
  | Some a => ret (CircularBuffer.offset a)
  | None => ret VK_WHOLE_SIZE
  end.

Definition AllocateTransientData (length : Z) (fence : VkFence) : M Z :=
  offset <- TryAllocateTransientData length fence ;;
  if negb (offset =? VK_WHOLE_SIZE) then ret offset
  else
    on_ring_ CircularBuffer.Scavenge ;;;
    offset <- TryAllocateTransientData length fence ;;
    ret offset.

(** The two constant register maps of the source signature are not read by
    the fat-struct upload and are left out. *)
Definition UploadConstantRegisters (command_buffer : VkCommandBuffer)
    (fence : VkFence) : M (Z * Z) :=
  offset <- AllocateTransientData kConstantRegisterUniformRange fence ;;
  if offset =? VK_WHOLE_SIZE then ret (VK_WHOLE_SIZE, VK_WHOLE_SIZE)
  else
    values <- gets register_file_ ;;
    let dest_ptr := offset in
    on_host (fun h => memcpy h dest_ptr values
                        (4 * XE_GPU_REG_SHADER_CONSTANT_000_X)
                        (512 * 4 * 4)) ;;;
    let dest_ptr := dest_ptr + 512 * 4 * 4 in
    on_host (fun h => memcpy h dest_ptr values
                        (4 * XE_GPU_REG_SHADER_CONSTANT_BOOL_000_031)
                        (8 * 4)) ;;;
    let dest_ptr := dest_ptr + 8 * 4 in
    on_host (fun h => memcpy h dest_ptr values
                        (4 * XE_GPU_REG_SHADER_CONSTANT_LOOP_00)
                        (32 * 4)) ;;;
    on_ring_ (CircularBuffer.Flush offset kConstantRegisterUniformRange) ;;;
    gpu <- gets (fun s => CircularBuffer.gpu_buffer (transient_buffer_ s)) ;;
    vkCmdPipelineBarrier command_buffer VK_PIPELINE_STAGE_HOST_BIT
      VK_PIPELINE_STAGE_ALL_COMMANDS_BIT
      {| srcAccessMask := [VK_ACCESS_HOST_WRITE_BIT];
         dstAccessMask := [VK_ACCESS_UNIFORM_READ_BIT;
                           VK_ACCESS_SHADER_READ_BIT];
         buffer := gpu; barrier_offset := offset;
         size := kConstantRegisterUniformRange |} ;;;
    ret (offset, offset).

Definition UploadIndexBuffer (command_buffer : VkCommandBuffer)
    (source_addr source_length : Z) (format : IndexFormat) (fence : VkFence)
    : M (VkBuffer * Z) :=
  offset <- AllocateTransientData source_length fence ;;
  if offset =? VK_WHOLE_SIZE then ret (nullptr, VK_WHOLE_SIZE)
  else
    guest <- gets memory_ ;;
    let source_ptr := TranslatePhysical guest source_addr in
    values <- gets register_file_ ;;
    let prim_reset_index :=
      reg_u32 values XE_GPU_REG_VGT_MULTI_PRIM_IB_RESET_INDX in
    let prim_reset_enabled :=
      negb (Z.land (reg_u32 values XE_GPU_REG_PA_SU_SC_MODE_CNTL)
                   (Z.shiftl 1 21) =? 0) in
    (if prim_reset_enabled then
       match format with
       | kInt16 =>
           on_host (fun h => copy_cmp_swap_16_unaligned h offset
                               (physical guest) source_ptr
                               (u16 prim_reset_index) (source_length / 2))
       | kInt32 =>
           on_host (fun h => copy_cmp_swap_32_unaligned h offset
                               (physical guest) source_ptr
                               prim_reset_index (source_length / 4))
       end
     else
       match format with
       | kInt16 =>
           on_host (fun h => xe.copy_and_swap_16_unaligned h offset
                               (physical guest) source_ptr
                               (source_length / 2))
       | kInt32 =>
           on_host (fun h => xe.copy_and_swap_32_unaligned h offset
                               (physical guest) source_ptr
                               (source_length / 4))
       end) ;;;
    on_ring_ (CircularBuffer.Flush offset source_length) ;;;
    gpu <- gets (fun s => CircularBuffer.gpu_buffer (transient_buffer_ s)) ;;
    vkCmdPipelineBarrier command_buffer VK_PIPELINE_STAGE_HOST_BIT
      VK_PIPELINE_STAGE_VERTEX_INPUT_BIT
      {| srcAccessMask := [VK_ACCESS_HOST_WRITE_BIT];
         dstAccessMask := [VK_ACCESS_INDEX_READ_BIT];
         buffer := gpu; barrier_offset := offset; size := source_length |} ;;;
    gpu <- gets (fun s => CircularBuffer.gpu_buffer (transient_buffer_ s)) ;;
    ret (gpu, offset).

(** [assert_always()] stops the call: the result is [None]. *)
Definition UploadVertexBuffer (command_buffer : VkCommandBuffer)
    (source_addr source_length : Z) (endian : Endian) (fence : VkFence)
    : M (option (VkBuffer * Z)) :=
  offset <- gets (fun s => FindCachedTransientData source_addr source_length
                             (transient_cache_ s)) ;;
  if negb (offset =? VK_WHOLE_SIZE) then
    gpu <- gets (fun s => CircularBuffer.gpu_buffer (transient_buffer_ s)) ;;
    ret (Some (gpu, offset))
  else
    let upload_base := source_addr in
    let upload_size := source_length in
    let source_offset := u32 (source_addr - upload_base) in
    offset <- AllocateTransientData upload_size fence ;;
    if offset =? VK_WHOLE_SIZE then ret (Some (nullptr, VK_WHOLE_SIZE))
    else
      guest <- gets memory_ ;;
      let upload_ptr := TranslatePhysical guest upload_base in
      let finish : M (option (VkBuffer * Z)) :=
        on_ring_ (CircularBuffer.Flush offset upload_size) ;;;
        gpu <- gets (fun s => CircularBuffer.gpu_buffer (transient_buffer_ s)) ;;
        vkCmdPipelineBarrier command_buffer VK_PIPELINE_STAGE_HOST_BIT
          VK_PIPELINE_STAGE_VERTEX_INPUT_BIT
          {| srcAccessMask := [VK_ACCESS_HOST_WRITE_BIT];
             dstAccessMask := [VK_ACCESS_VERTEX_ATTRIBUTE_READ_BIT];
             buffer := gpu; barrier_offset := offset;
             size := upload_size |} ;;;
        on_cache (CacheTransientData upload_base upload_size offset) ;;;
        gpu <- gets (fun s => CircularBuffer.gpu_buffer (transient_buffer_ s)) ;;
        ret (Some (gpu, u64 (offset + source_offset))) in
      match endian with
      | k8in32 =>
          on_host (fun h => xe.copy_and_swap_32_unaligned h offset
                              (physical guest) upload_ptr
                              (source_length / 4)) ;;;
          finish
      | k16in32 =>
          on_host (fun h => xe.copy_and_swap_16_in_32_unaligned h offset
                              (physical guest) upload_ptr
                              (source_length / 4)) ;;;
          finish
      | _ => ret None
      end.

Definition InvalidateCache : M unit := on_cache (fun _ => []).

Definition ClearCache : M unit := on_cache (fun _ => []).

Definition Scavenge : M unit :=
  on_cache (fun _ => []) ;;;
  on_ring_ CircularBuffer.Scavenge.

(** A call on the public surface of the cache, and the state after a
    sequence of such calls. *)
Inductive call :=
| DoUploadConstantRegisters (command_buffer : VkCommandBuffer)
    (fence : VkFence)
| DoUploadIndexBuffer (command_buffer : VkCommandBuffer)
    (source_addr source_length : Z) (format : IndexFormat) (fence : VkFence)
| DoUploadVertexBuffer (command_buffer : VkCommandBuffer)
    (source_addr source_length : Z) (endian : Endian) (fence : VkFence)
| DoInvalidateCache
| DoClearCache
| DoScavenge.

Definition after_call (s : t) (c : call) : t :=
  match c with
  | DoUploadConstantRegisters cb f => snd (UploadConstantRegisters cb f s)
  | DoUploadIndexBuffer cb a l fmt f => snd (UploadIndexBuffer cb a l fmt f s)
  | DoUploadVertexBuffer cb a l e f => snd (UploadVertexBuffer cb a l e f s)
  | DoInvalidateCache => snd (InvalidateCache s)
  | DoClearCache => snd (ClearCache s)
  | DoScavenge => snd (Scavenge s)
  end.

Definition after_calls (s : t) (cs : list call) : t :=
  fold_left after_call cs s.

(** Lengths are unsigned, and vertex uploads are asked for ranges inside
    the guest address space. *)
Definition call_in_range (c : call) : Prop :=
  match c with
  | DoUploadVertexBuffer _ a l _ _ =>
      0 <= a /\ 0 <= l /\ a + l < 2 ^ 32
  | DoUploadIndexBuffer _ _ l _ _ => 0 <= l
  | _ => True
  end.

End WithRing.

Arguments t R : clear implicits.

End BufferCache.

(** ** Predicates on the guest-range cache *)

(** The keys of an ordered map are strictly increasing. *)
Definition keys_sorted (c : cache) : Prop :=
  StronglySorted (fun e1 e2 : cache_entry => fst e1 < fst e2) c.

(** A guest range that lies inside the 32-bit guest address space. *)
Definition range32 (address length : Z) : Prop :=
  0 <= address /\ 0 <= length /\ address + length < 2 ^ 32.

Definition guest_ranges (c : cache) : Prop :=
  Forall (fun e : cache_entry => range32 (fst e) (fst (snd e))) c.

(** The buffer range of an entry ends below [VK_WHOLE_SIZE]. *)
Definition buffer_ranges (c : cache) : Prop :=
  Forall (fun e : cache_entry =>
            0 <= snd (snd e) /\ snd (snd e) + fst (snd e) < VK_WHOLE_SIZE) c.

Definition entry_end (e : cache_entry) : Z := fst e + fst (snd e).

(** End addresses do not decrease along the keys. *)
Definition ends_monotone (c : cache) : Prop :=
  StronglySorted (fun e1 e2 : cache_entry => entry_end e1 <= entry_end e2) c.

Definition cache_inv (c : cache) : Prop :=
  keys_sorted c /\ guest_ranges c /\ ends_monotone c.

(** [e] is the entry with the greatest guest address at or below [address]. *)
Definition nearest_below (c : cache) (address : Z) (e : cache_entry) : Prop :=
  In e c /\ fst e <= address /\
  forall e', In e' c -> fst e' <= address -> fst e' <= fst e.

(** The interval of [e] fully contains [address, address + length). *)
Definition contains (e : cache_entry) (address length : Z) : Prop :=
  fst e <= address /\ address + length <= entry_end e.

Definition below (k : Z) (m : cache) : cache :=
  filter (fun e : cache_entry => fst e <? k) m.

Definition above (k : Z) (m : cache) : cache :=
  filter (fun e : cache_entry => k <? fst e) m.

Definition upto (k : Z) (m : cache) : cache :=
  filter (fun e : cache_entry => fst e <=? k) m.

(** The ring calls recorded so far. *)
Definition log {R : Type} (s : BufferCache.t (CircularBuffer.Probed R))
  : list CircularBuffer.Call :=
  CircularBuffer.calls (BufferCache.transient_buffer_ s).

(** ** Worked states *)

Module Example.
Import CircularBuffer.

#[global] Instance registers : RegisterTable := {
  XE_GPU_REG_SHADER_CONSTANT_000_X := 0x4000;
  XE_GPU_REG_SHADER_CONSTANT_BOOL_000_031 := 0x4900;
  XE_GPU_REG_SHADER_CONSTANT_LOOP_00 := 0x4908;
  XE_GPU_REG_VGT_MULTI_PRIM_IB_RESET_INDX := 0x2103;
  XE_GPU_REG_PA_SU_SC_MODE_CNTL := 0x2205
}.

(** A register file with primitive restart enabled (bit 21 of
    [PA_SU_SC_MODE_CNTL]) and restart index [0x1234]; every other byte is a
    pattern of its address. *)
Definition register_bytes : mem :=
  fun p =>
    if p =? 4 * 0x2205 + 2 then 0x20
    else if (4 * 0x2205 <=? p) && (p <? 4 * 0x2205 + 4) then 0
    else if p =? 4 * 0x2103 then 0x34
    else if p =? 4 * 0x2103 + 1 then 0x12
    else if (4 * 0x2103 <=? p) && (p <? 4 * 0x2103 + 4) then 0
    else (3 * p + 1) mod 256.

(** Guest memory whose 16-bit elements at [0x2000] are
    [0x1234, 0x0001, 0x1234, ...] in guest (big-endian) order. *)
Definition guest : Memory := {|
  physical := fun p =>
    if (0x2000 <=? p) && (p <? 0x2100) then
      (if (p mod 4 =? 0) then 0x12 else if (p mod 4 =? 1) then 0x34
       else if (p mod 4 =? 2) then 0x00 else 0x01)
    else (5 * p + 2) mod 256;
  TranslatePhysical := fun a => a
|}.

(** A cache as [BufferCache::BufferCache] sets it up: a ring of the given
    capacity with 4096-byte alignment, nothing cached, nothing recorded. *)
Definition fresh (capacity : Z)
  : BufferCache.t (Probed RingAllocator.t) := {|
  BufferCache.register_file_ := register_bytes;
  BufferCache.memory_ := guest;
  BufferCache.transient_buffer_ :=
    {| inner := RingAllocator.create 7 capacity 4096; calls := [] |};
  BufferCache.host_base := fun _ => 0;
  BufferCache.transient_cache_ := [];
  BufferCache.recorded := []
|}.

(** The GPU completes the work guarded by [f]. *)
Definition gpu_signals (f : VkFence)
    (s : BufferCache.t (Probed RingAllocator.t))
  : BufferCache.t (Probed RingAllocator.t) :=
  snd (BufferCache.on_ring_
         (fun p => {| inner := RingAllocator.signal f (inner p);
                      calls := calls p |}) s).

(** An 8192-byte arena after one vertex upload of 300 bytes from guest
    address [0x1000] whose fence has signaled. *)
Definition after_vertex_upload : BufferCache.t (Probed RingAllocator.t) :=
  gpu_signals 1
    (snd (BufferCache.UploadVertexBuffer 100 0x1000 300 k8in32 1
            (fresh 8192))).

Definition first_vertex_upload :=
  BufferCache.UploadVertexBuffer 100 0x1000 300 k8in32 1 (fresh 8192).

(** The index upload that follows: 8000 bytes of 16-bit indices. *)
Definition index_upload :=
  BufferCache.UploadIndexBuffer 100 0x2000 8000 kInt16 2 after_vertex_upload.


Definition ordered : cache :=
  [(10, (20, 0)); (20, (10, 4096)); (40, (30, 8192))].

(** One entry low in the address space. *)
Definition low_entry : cache := [(0x10, (0x10, 4096))].

(** One entry whose buffer range ends at [VK_WHOLE_SIZE]. *)
Definition high_offset : cache := [(0, (16, VK_WHOLE_SIZE - 8))].

End Example.

(** * Properties *)

(** ** Machine integers *)

Lemma u32_small (x : Z) : 0 <= x < 2 ^ 32 -> u32 x = x.
Proof. intros Hx. unfold u32. apply Z.mod_small. exact Hx. Qed.

Lemma u64_small (x : Z) : 0 <= x < 2 ^ 64 -> u64 x = x.
Proof. intros Hx. unfold u64. apply Z.mod_small. exact Hx. Qed.

Lemma range32_u32 (a l : Z) : range32 a l -> u32 (a + l) = a + l.
Proof. intros (Ha & Hl & Hal). apply u32_small. lia. Qed.

(** ** The ordered map *)

Section CacheFacts.

Implicit Types (c m : cache) (e : cache_entry) (k : Z).

Lemma filter_all {A} (f : A -> bool) (l : list A) :
  Forall (fun x => f x = true) l -> filter f l = l.
Proof.
  induction 1 as [|x l Hx _ IH]; simpl; [reflexivity|].
  rewrite Hx, IH. reflexivity.
Qed.

Lemma filter_none {A} (f : A -> bool) (l : list A) :
  Forall (fun x => f x = false) l -> filter f l = [].
Proof.
  induction 1 as [|x l Hx _ IH]; simpl; [reflexivity|].
  rewrite Hx. exact IH.
Qed.

Lemma StronglySorted_filter {A} (Rel : A -> A -> Prop) (f : A -> bool)
    (l : list A) :
  StronglySorted Rel l -> StronglySorted Rel (filter f l).
Proof.
  induction 1 as [|x l Hl IH Hx]; simpl; [constructor|].
  destruct (f x); [|exact IH].
  constructor; [exact IH|].
  rewrite Forall_forall in *. intros y Hy.
  apply filter_In in Hy. apply Hx. tauto.
Qed.

Lemma StronglySorted_app {A} (Rel : A -> A -> Prop) (xs ys : list A) :
  StronglySorted Rel xs -> StronglySorted Rel ys ->
  (forall x y, In x xs -> In y ys -> Rel x y) ->
  StronglySorted Rel (xs ++ ys).
Proof.
  induction 1 as [|x xs Hxs IH Hx]; simpl; intros Hys Hcross; [exact Hys|].
  constructor.
  - apply IH; [exact Hys|]. intros a b Ha Hb. apply Hcross; simpl; tauto.
  - apply Forall_app. split; [exact Hx|].
    rewrite Forall_forall. intros y Hy. apply Hcross; simpl; tauto.
Qed.

Lemma keys_sorted_tail e c : keys_sorted (e :: c) -> keys_sorted c.
Proof. intros Hs. apply StronglySorted_inv in Hs. tauto. Qed.

Lemma keys_sorted_head e c e' :
  keys_sorted (e :: c) -> In e' c -> fst e < fst e'.
Proof.
  intros Hs Hin. apply StronglySorted_inv in Hs. destruct Hs as [_ Hall].
  rewrite Forall_forall in Hall. apply Hall. exact Hin.
Qed.

(** An ordered map holds one entry per key. *)
Lemma keys_sorted_unique c e1 e2 :
  keys_sorted c -> In e1 c -> In e2 c -> fst e1 = fst e2 -> e1 = e2.
Proof.
  induction c as [|x c IH]; simpl; intros Hs H1 H2 Hk; [contradiction|].
  destruct H1 as [-> | H1], H2 as [-> | H2].
  - reflexivity.
  - pose proof (keys_sorted_head _ _ _ Hs H2). lia.
  - pose proof (keys_sorted_head _ _ _ Hs H1). lia.
  - apply IH; auto. eapply keys_sorted_tail; eauto.
Qed.

(** With increasing keys and non-decreasing ends, the entry with the smaller
    key ends first. *)
Lemma ends_monotone_keys c e1 e2 :
  keys_sorted c -> ends_monotone c -> In e1 c -> In e2 c ->
  fst e1 <= fst e2 -> entry_end e1 <= entry_end e2.
Proof.
  induction c as [|x c IH]; simpl; intros Hs He H1 H2 Hk; [contradiction|].
  pose proof (StronglySorted_inv He) as [He' Hall].
  rewrite Forall_forall in Hall.
  destruct H1 as [-> | H1], H2 as [-> | H2].
  - lia.
  - apply Hall. exact H2.
  - pose proof (keys_sorted_head _ _ _ Hs H1). lia.
  - apply IH; auto. eapply keys_sorted_tail; eauto.
Qed.

Lemma upper_bound_app k (xs ys : cache) :
  Forall (fun e => fst e <= k) xs -> Forall (fun e => k < fst e) ys ->
  upper_bound k (xs ++ ys) = (xs, ys).
Proof.
  intros Hxs Hys. induction Hxs as [|x xs Hx _ IH]; simpl.
  - destruct Hys as [|y ys Hy _]; simpl; [reflexivity|].
    apply Z.ltb_lt in Hy. rewrite Hy. reflexivity.
  - assert ((k <? fst x) = false) as -> by (apply Z.ltb_ge; lia).
    rewrite IH. reflexivity.
Qed.

Lemma upto_above_split k m : keys_sorted m -> m = upto k m ++ above k m.
Proof.
  unfold upto, above.
  induction m as [|e m IH]; intros Hs; simpl; [reflexivity|].
  destruct (Z.leb_spec (fst e) k) as [Hle | Hgt].
  - assert ((k <? fst e) = false) as -> by (apply Z.ltb_ge; lia).
    simpl. f_equal. apply IH. eapply keys_sorted_tail; eauto.
  - assert ((k <? fst e) = true) as -> by (apply Z.ltb_lt; lia).
    assert (upto k m = []) as Hnone.
    { apply filter_none. rewrite Forall_forall. intros y Hy.
      pose proof (keys_sorted_head _ _ _ Hs Hy). apply Z.leb_gt. lia. }
    unfold upto in Hnone. rewrite Hnone. simpl. f_equal.
    symmetry. apply filter_all. rewrite Forall_forall. intros y Hy.
    pose proof (keys_sorted_head _ _ _ Hs Hy). apply Z.ltb_lt. lia.
Qed.

Lemma Forall_upto k m : Forall (fun e => fst e <= k) (upto k m).
Proof.
  rewrite Forall_forall. intros e He. apply filter_In in He.
  destruct He as [_ He]. apply Z.leb_le. exact He.
Qed.

Lemma Forall_above k m : Forall (fun e => k < fst e) (above k m).
Proof.
  rewrite Forall_forall. intros e He. apply filter_In in He.
  destruct He as [_ He]. apply Z.ltb_lt. exact He.
Qed.

Lemma Forall_below k m : Forall (fun e => fst e < k) (below k m).
Proof.
  rewrite Forall_forall. intros e He. apply filter_In in He.
  destruct He as [_ He]. apply Z.ltb_lt. exact He.
Qed.

(** On an ordered map [upper_bound] splits the entries at key [k]. *)
Lemma upper_bound_sorted k m :
  keys_sorted m -> upper_bound k m = (upto k m, above k m).
Proof.
  intros Hs. rewrite (upto_above_split k m Hs) at 1.
  apply upper_bound_app; [apply Forall_upto | apply Forall_above].
Qed.

Lemma map_assign_sorted k v m :
  keys_sorted m -> map_assign k v m = below k m ++ (k, v) :: above k m.
Proof.
  unfold below, above.
  induction m as [|e m IH]; intros Hs; simpl; [reflexivity|].
  assert (Htail : forall y, In y m -> fst e < fst y)
    by (intros y Hy; eapply keys_sorted_head; eauto).
  destruct (Z.ltb_spec k (fst e)) as [Hlt | Hge].
  - assert ((fst e <? k) = false) as -> by (apply Z.ltb_ge; lia).
    assert (below k m = []) as Hb.
    { apply filter_none. rewrite Forall_forall. intros y Hy.
      specialize (Htail y Hy). apply Z.ltb_ge. lia. }
    assert (above k m = m) as Ha.
    { apply filter_all. rewrite Forall_forall. intros y Hy.
      specialize (Htail y Hy). apply Z.ltb_lt. lia. }
    unfold below, above in *. rewrite Hb, Ha. reflexivity.
  - destruct (Z.eqb_spec k (fst e)) as [Heq | Hne].
    + assert ((fst e <? k) = false) as -> by (apply Z.ltb_ge; lia).
      assert (below k m = []) as Hb.
      { apply filter_none. rewrite Forall_forall. intros y Hy.
        specialize (Htail y Hy). apply Z.ltb_ge. lia. }
      assert (above k m = m) as Ha.
      { apply filter_all. rewrite Forall_forall. intros y Hy.
        specialize (Htail y Hy). apply Z.ltb_lt. lia. }
      unfold below, above in *. rewrite Hb, Ha. reflexivity.
    + assert ((fst e <? k) = true) as -> by (apply Z.ltb_lt; lia).
      simpl. f_equal. apply IH. eapply keys_sorted_tail; eauto.
Qed.

(** The shape of the cache after [CacheTransientData]: the entries below the
    new key, the new entry, and what the erase loop leaves of the entries
    above it. *)
Lemma CacheTransientData_sorted k len off m :
  keys_sorted m ->
  CacheTransientData k len off m =
  below k m ++ (k, (len, off)) :: erase_contained (u32 (k + len)) (above k m).
Proof.
  intros Hs. unfold CacheTransientData.
  rewrite (map_assign_sorted k (len, off) m Hs).
  replace (below k m ++ (k, (len, off)) :: above k m)
    with ((below k m ++ [(k, (len, off))]) ++ above k m)
    by (rewrite <- app_assoc; reflexivity).
  rewrite upper_bound_app.
  - rewrite <- app_assoc. reflexivity.
  - apply Forall_app. split.
    + eapply Forall_impl; [|apply Forall_below]. simpl. intros; lia.
    + constructor; [simpl; lia | constructor].
  - apply Forall_above.
Qed.

End CacheFacts.

(** ** Lookup and eviction *)

Section Lookup.

Implicit Types (c m : cache) (e : cache_entry) (k : Z).

Lemma prev_last (xs : cache) e : prev (xs ++ [e]) = Some e.
Proof. unfold prev. rewrite rev_app_distr. reflexivity. Qed.

Lemma prev_None (xs : cache) : prev xs = None -> xs = [].
Proof.
  destruct xs as [|x xs] using rev_ind; [reflexivity|].
  rewrite prev_last. discriminate.
Qed.

Lemma prev_Some (xs : cache) e :
  prev xs = Some e -> exists ys, xs = ys ++ [e].
Proof.
  destruct xs as [|x xs] using rev_ind; [discriminate|].
  rewrite prev_last. intros [= ->]. eauto.
Qed.

(** The last entry of a key-ordered list has the greatest key. *)
Lemma keys_sorted_last (xs : cache) e e' :
  keys_sorted (xs ++ [e]) -> In e' (xs ++ [e]) -> fst e' <= fst e.
Proof.
  induction xs as [|x xs IH]; simpl; intros Hs Hin.
  - destruct Hin as [-> | []]. lia.
  - destruct Hin as [-> | Hin].
    + assert (fst e' < fst e); [|lia].
      eapply keys_sorted_head; [exact Hs|]. apply in_or_app. simpl. tauto.
    + apply IH; [|exact Hin]. eapply keys_sorted_tail; eauto.
Qed.

(** [--it] after [upper_bound] lands on the entry with the greatest key at or
    below the address. *)
Lemma prev_upto_nearest c k e :
  keys_sorted c -> prev (upto k c) = Some e -> nearest_below c k e.
Proof.
  intros Hs Hp. apply prev_Some in Hp. destruct Hp as [ys Hys].
  assert (Hin : In e (upto k c)) by (rewrite Hys; apply in_or_app; simpl; tauto).
  apply filter_In in Hin. destruct Hin as [Hin Hle]. apply Z.leb_le in Hle.
  repeat split; [exact Hin | exact Hle |].
  intros e' Hin' Hle'.
  apply (keys_sorted_last ys).
  - rewrite <- Hys. apply StronglySorted_filter. exact Hs.
  - rewrite <- Hys. apply filter_In. split; [exact Hin'|].
    apply Z.leb_le. exact Hle'.
Qed.

Lemma nearest_prev_upto c k e :
  keys_sorted c -> nearest_below c k e -> prev (upto k c) = Some e.
Proof.
  intros Hs (Hin & Hle & Hmax).
  destruct (prev (upto k c)) as [e0|] eqn:Hp.
  - pose proof (prev_upto_nearest _ _ _ Hs Hp) as (Hin0 & Hle0 & Hmax0).
    f_equal. apply (keys_sorted_unique c); auto.
    specialize (Hmax e0 Hin0 Hle0). specialize (Hmax0 e Hin Hle). lia.
  - apply prev_None in Hp.
    assert (In e (upto k c)) as Hc
      by (apply filter_In; split; [exact Hin | apply Z.leb_le; exact Hle]).
    rewrite Hp in Hc. contradiction.
Qed.

(** What the lookup computes on an ordered map. *)
Lemma FindCachedTransientData_sorted address length c :
  keys_sorted c ->
  FindCachedTransientData address length c =
  match prev (upto address c) with
  | Some (first, (len, off)) =>
      if u32 (address + length) <=? u32 (first + len)
      then u64 (off + u32 (address - first))
      else VK_WHOLE_SIZE
  | None => VK_WHOLE_SIZE
  end.
Proof.
  intros Hs. unfold FindCachedTransientData.
  destruct c as [|e c]; [reflexivity|].
  rewrite (upper_bound_sorted address (e :: c) Hs). reflexivity.
Qed.


(** What the erase loop leaves is a suffix of its input; everything it
    dropped ends at or before the limit and the first entry left does not. *)
Lemma erase_contained_suffix limit (it : cache) :
  exists dropped,
    it = dropped ++ erase_contained limit it /\
    Forall (fun e => u32 (entry_end e) <= limit) dropped /\
    match erase_contained limit it with
    | [] => True
    | e :: _ => limit < u32 (entry_end e)
    end.
Proof.
  induction it as [|[first [len off]] it IH]; simpl.
  - exists []. repeat split. constructor.
  - destruct (Z.leb_spec (u32 (first + len)) limit) as [Hle | Hgt].
    + destruct IH as (dropped & Heq & Hd & Hhd).
      exists ((first, (len, off)) :: dropped). repeat split.
      * simpl. f_equal. exact Heq.
      * constructor; [exact Hle | exact Hd].
      * exact Hhd.
    + exists []. repeat split; [constructor | exact Hgt].
Qed.

Lemma Forall_erase_contained (P : cache_entry -> Prop) limit (it : cache) :
  Forall P it -> Forall P (erase_contained limit it).
Proof.
  destruct (erase_contained_suffix limit it) as (dropped & Heq & _).
  rewrite Heq at 1. intros Hall. apply Forall_app in Hall. tauto.
Qed.

(** The lookup on a list split around the entry it lands on. *)
Lemma FindCachedTransientData_at (xs ys : cache) (e0 : cache_entry) a0 l0 :
  Forall (fun e => fst e <= a0) (xs ++ [e0]) ->
  Forall (fun e => a0 < fst e) ys ->
  FindCachedTransientData a0 l0 (xs ++ e0 :: ys) =
  (let '(first, (len, off)) := e0 in
   if u32 (a0 + l0) <=? u32 (first + len)
   then u64 (off + u32 (a0 - first)) else VK_WHOLE_SIZE).
Proof.
  intros Hx Hy. unfold FindCachedTransientData.
  replace (xs ++ e0 :: ys) with ((xs ++ [e0]) ++ ys)
    by (rewrite <- app_assoc; reflexivity).
  rewrite (upper_bound_app a0 _ _ Hx Hy), prev_last.
  destruct ((xs ++ [e0]) ++ ys) eqn:Hnil; [|reflexivity].
  apply app_eq_nil in Hnil. destruct Hnil as [Hnil _].
  apply app_eq_nil in Hnil. destruct Hnil as [_ Hnil]. discriminate.
Qed.

End Lookup.


(** The three outcomes of a lookup on a well-formed cache. *)
Lemma FindCachedTransientData_spec :
  forall (c : cache) (address length : Z),
    keys_sorted c -> guest_ranges c -> buffer_ranges c ->
    range32 address length ->
    (FindCachedTransientData address length c <> VK_WHOLE_SIZE <->
     exists e, nearest_below c address e /\ contains e address length) /\
    (forall e, nearest_below c address e -> contains e address length ->
       FindCachedTransientData address length c
       = snd (snd e) + (address - fst e)) /\
    ((~ exists e, nearest_below c address e /\ contains e address length) ->
     FindCachedTransientData address length c = VK_WHOLE_SIZE).
Proof.
  intros c address length Hs Hg Hb Hreq.
  pose proof (range32_u32 _ _ Hreq) as Hlim.
  rewrite (FindCachedTransientData_sorted address length c Hs).
  destruct (prev (upto address c)) as [e0|] eqn:Hp.
  - pose proof (prev_upto_nearest _ _ _ Hs Hp) as Hnear.
    assert (Hsame : forall e, nearest_below c address e -> e = e0).
    { intros e Hn. apply (nearest_prev_upto _ _ _ Hs) in Hn. congruence. }
    destruct Hnear as (Hin & Hle & Hmax).
    unfold guest_ranges, buffer_ranges in *. rewrite Forall_forall in Hg, Hb.
    pose proof (Hg e0 Hin) as (Hf0 & Hl0 & Hfl). pose proof (Hb e0 Hin) as (Ho0 & Hol).
    destruct e0 as [first [len off]]. simpl in *.
    rewrite Hlim, (u32_small (first + len)) by lia.
    unfold VK_WHOLE_SIZE in *.
    destruct Hreq as (Ha0 & Hlen0 & Hwrap).
    destruct (Z.leb_spec (address + length) (first + len)) as [Hc | Hc].
    + rewrite (u32_small (address - first)) by lia.
      rewrite u64_small by lia.
      repeat split.
      * intros _. exists (first, (len, off)).
        unfold nearest_below, contains, entry_end. simpl. auto.
      * intros _. lia.
      * intros e Hn _. rewrite (Hsame e Hn). reflexivity.
      * intros Hno. exfalso. apply Hno. exists (first, (len, off)).
        unfold nearest_below, contains, entry_end. simpl. auto.
    + repeat split.
      * intros Hne. exfalso. apply Hne. reflexivity.
      * intros (e & Hn & Hcont) _. rewrite (Hsame e Hn) in Hcont.
        unfold contains, entry_end in Hcont. simpl in Hcont. lia.
      * intros e Hn Hcont. rewrite (Hsame e Hn) in Hcont.
        unfold contains, entry_end in Hcont. simpl in Hcont. lia.
  - assert (Hnone : forall e, ~ nearest_below c address e).
    { intros e Hn. apply (nearest_prev_upto _ _ _ Hs) in Hn. congruence. }
    repeat split.
    + intros Hne. exfalso. apply Hne. reflexivity.
    + intros (e & Hn & _). exfalso. exact (Hnone e Hn).
    + intros e Hn. exfalso. exact (Hnone e Hn).
Qed.

(** C4 (amended).  On an ordered cache whose guest ranges lie inside the
    32-bit address space and whose buffer ranges end below [VK_WHOLE_SIZE],
    and for a request [address, address + length) inside the 32-bit address
    space, the lookup hits exactly when the entry with the greatest guest
    address at or below [address] exists and contains the request; a hit
    returns [bufferOffset + (address - guestAddress)] and everything else
    returns [VK_WHOLE_SIZE]. *)
Theorem FindCachedTransientData_nearest_containing :
  forall (c : cache) (address length : Z),
    keys_sorted c -> guest_ranges c -> buffer_ranges c ->
    range32 address length ->
    (FindCachedTransientData address length c <> VK_WHOLE_SIZE <->
     exists e, nearest_below c address e /\ contains e address length) /\
    (forall e, nearest_below c address e -> contains e address length ->
       FindCachedTransientData address length c
       = snd (snd e) + (address - fst e)) /\
    ((~ exists e, nearest_below c address e /\ contains e address length) ->
     FindCachedTransientData address length c = VK_WHOLE_SIZE).
Proof.
  exact FindCachedTransientData_spec.
Qed.

(** ** The ordering the erase loop relies on *)

Section CacheInvariant.

Implicit Types (c : cache) (e : cache_entry).

Lemma cache_inv_nil : cache_inv [].
Proof. repeat split; constructor. Qed.

Lemma StronglySorted_app_r {A} (Rel : A -> A -> Prop) (xs ys : list A) :
  StronglySorted Rel (xs ++ ys) -> StronglySorted Rel ys.
Proof.
  induction xs as [|x xs IH]; simpl; intros Hs; [exact Hs|].
  apply IH. apply StronglySorted_inv in Hs. tauto.
Qed.

Lemma Forall_filter {A} (P : A -> Prop) (f : A -> bool) (l : list A) :
  Forall P l -> Forall P (filter f l).
Proof.
  rewrite !Forall_forall. intros Hall x Hx. apply filter_In in Hx.
  apply Hall. tauto.
Qed.

(** What is left above a newly cached range ends after it. *)
Lemma erase_contained_ends c address limit :
  guest_ranges c -> ends_monotone c ->
  Forall (fun e => limit < entry_end e)
         (erase_contained limit (above address c)).
Proof.
  intros Hg He.
  destruct (erase_contained_suffix limit (above address c))
    as (dropped & Heq & _ & Hhead).
  assert (Hsub : forall e,
             In e (erase_contained limit (above address c)) -> In e c).
  { intros e Hin.
    assert (In e (above address c)) as Hin'
      by (rewrite Heq; apply in_or_app; tauto).
    apply filter_In in Hin'. tauto. }
  assert (Hsorted : ends_monotone
                      (erase_contained limit (above address c))).
  { apply (StronglySorted_app_r _ dropped). rewrite <- Heq.
    apply StronglySorted_filter. exact He. }
  destruct (erase_contained limit (above address c)) as [|h rest];
    [constructor|].
  unfold guest_ranges in Hg. rewrite Forall_forall in Hg.
  destruct (Hg h (Hsub h (or_introl eq_refl))) as (H0 & H1 & H2).
  assert (limit < entry_end h) as Hh.
  { unfold entry_end in *.
    rewrite (u32_small (fst h + fst (snd h))) in Hhead by lia.
    exact Hhead. }
  constructor; [exact Hh|].
  apply StronglySorted_inv in Hsorted. destruct Hsorted as [_ Hall].
  eapply Forall_impl; [|exact Hall]. simpl. intros e Hle. lia.
Qed.

(** Caching a range after a miss keeps the cache ordered by key and by end
    address. *)
Lemma CacheTransientData_keeps_inv c address length offset :
  cache_inv c -> range32 address length ->
  (forall e, nearest_below c address e -> ~ contains e address length) ->
  cache_inv (CacheTransientData address length offset c).
Proof.
  intros (Hs & Hg & He) Hreq Hmiss.
  pose proof (range32_u32 _ _ Hreq) as Hlim.
  rewrite (CacheTransientData_sorted _ _ _ _ Hs), Hlim.
  set (rest := erase_contained (address + length) (above address c)).
  assert (Hrest_in : forall e, In e rest -> In e c /\ address < fst e).
  { intros e Hin.
    destruct (erase_contained_suffix (address + length)
                (above address c)) as (dropped & Heq & _ & _).
    assert (In e (above address c)) as Hin'
      by (rewrite Heq; apply in_or_app; tauto).
    apply filter_In in Hin'. destruct Hin' as [? Hk]. apply Z.ltb_lt in Hk.
    tauto. }
  assert (Hrest_ends : Forall (fun e => address + length < entry_end e) rest)
    by (apply erase_contained_ends; assumption).
  assert (Hrest_sorted : forall (Rel : cache_entry -> cache_entry -> Prop),
             StronglySorted Rel c -> StronglySorted Rel rest).
  { intros Rel Hrel.
    destruct (erase_contained_suffix (address + length)
                (above address c)) as (dropped & Heq & _ & _).
    apply (StronglySorted_app_r _ dropped). fold rest in Heq.
    rewrite <- Heq. apply StronglySorted_filter. exact Hrel. }
  assert (Hbelow : forall e, In e (below address c) ->
             In e c /\ fst e < address /\ entry_end e < address + length).
  { intros e Hin. apply filter_In in Hin. destruct Hin as [Hin Hk].
    apply Z.ltb_lt in Hk. repeat split; [exact Hin | exact Hk |].
    destruct (prev (upto address c)) as [p|] eqn:Hp.
    - pose proof (prev_upto_nearest _ _ _ Hs Hp) as Hnear.
      pose proof (Hmiss p Hnear) as Hnot.
      destruct Hnear as (Hpin & Hple & Hpmax).
      assert (entry_end p < address + length) as Hpend.
      { unfold contains in Hnot. lia. }
      pose proof (ends_monotone_keys c e p Hs He Hin Hpin
                    (Hpmax e Hin ltac:(lia))). lia.
    - apply prev_None in Hp.
      assert (In e (upto address c)) as Hc
        by (apply filter_In; split; [exact Hin | apply Z.leb_le; lia]).
      rewrite Hp in Hc. contradiction. }
  repeat split.
  - apply StronglySorted_app.
    + apply StronglySorted_filter. exact Hs.
    + constructor; [apply Hrest_sorted; exact Hs|].
      rewrite Forall_forall. intros e Hin. simpl.
      apply (Hrest_in e Hin).
    + intros x y Hx [<- | Hy]; simpl.
      * apply (Hbelow x Hx).
      * pose proof (Hbelow x Hx). pose proof (Hrest_in y Hy). lia.
  - unfold guest_ranges in *. apply Forall_app. split.
    + apply Forall_filter. exact Hg.
    + constructor; [exact Hreq|].
      rewrite Forall_forall in *. intros e Hin. apply Hg.
      apply (Hrest_in e Hin).
  - apply StronglySorted_app.
    + apply StronglySorted_filter. exact He.
    + constructor; [apply Hrest_sorted; exact He|].
      eapply Forall_impl; [|exact Hrest_ends].
      unfold entry_end. simpl. intros e Hlt. lia.
    + rewrite Forall_forall in Hrest_ends.
      intros x y Hx [<- | Hy].
      * pose proof (Hbelow x Hx). unfold entry_end in *. simpl. lia.
      * pose proof (Hbelow x Hx). pose proof (Hrest_ends y Hy). lia.
Qed.

Lemma CacheTransientData_buffer_ranges c address length offset :
  keys_sorted c -> buffer_ranges c ->
  0 <= offset -> offset + length < VK_WHOLE_SIZE ->
  buffer_ranges (CacheTransientData address length offset c).
Proof.
  intros Hs Hb H0 H1. rewrite (CacheTransientData_sorted _ _ _ _ Hs).
  unfold buffer_ranges in *. apply Forall_app. split.
  - apply Forall_filter. exact Hb.
  - constructor; [simpl; lia|].
    apply Forall_erase_contained, Forall_filter. exact Hb.
Qed.

End CacheInvariant.

(** ** Allocation *)

Local Arguments Z.mul : simpl never.
Local Arguments Z.add : simpl never.
Local Arguments Z.sub : simpl never.
Local Arguments Z.div : simpl never.
Local Arguments Z.pow : simpl never.
Local Arguments Z.modulo : simpl never.
Local Arguments Z.shiftl : simpl never.
Local Arguments Z.shiftr : simpl never.
Local Arguments Z.land : simpl never.
Local Arguments Z.lor : simpl never.
Local Arguments Z.testbit : simpl never.
Local Arguments Z.eqb : simpl never.
Local Arguments Z.leb : simpl never.
Local Arguments Z.ltb : simpl never.

Ltac run_methods :=
  unfold BufferCache.AllocateTransientData,
    BufferCache.TryAllocateTransientData,
    BufferCache.bind, BufferCache.ret, BufferCache.gets,
    BufferCache.on_ring_, BufferCache.on_ring, BufferCache.on_host,
    BufferCache.on_cache, BufferCache.vkCmdPipelineBarrier;
  simpl.

Ltac split_acquire :=
  match goal with
  | |- context [CircularBuffer.Acquire ?l ?f ?r] =>
      destruct (CircularBuffer.Acquire l f r) as [[?|] ?]; simpl
  | |- context [?o =? VK_WHOLE_SIZE] =>
      destruct (Z.eqb_spec o VK_WHOLE_SIZE); simpl
  end.

Ltac run_methods_in r :=
  unfold BufferCache.bind, BufferCache.ret, BufferCache.gets,
    BufferCache.on_ring_, BufferCache.on_ring, BufferCache.on_host,
    BufferCache.on_cache, BufferCache.vkCmdPipelineBarrier in r.

Ltac split_endian :=
  match goal with
  | |- context [match ?e with kUnspecified => _ | _ => _ end] =>
      destruct e; simpl
  end.

Section Allocation.

Context {R : Type} `{CircularBuffer.Interface R} `{RegisterTable}.

Implicit Types (s : BufferCache.t R).

(** An attempt is one [Acquire]; it yields the offset of the allocation, or
    [VK_WHOLE_SIZE] when the ring has no room. *)
Lemma TryAllocateTransientData_Acquire s length fence :
  fst (BufferCache.TryAllocateTransientData length fence s) =
    match fst (CircularBuffer.Acquire length fence
                 (BufferCache.transient_buffer_ s)) with
    | Some a => CircularBuffer.offset a
    | None => VK_WHOLE_SIZE
    end /\
  BufferCache.transient_buffer_
    (snd (BufferCache.TryAllocateTransientData length fence s)) =
    snd (CircularBuffer.Acquire length fence (BufferCache.transient_buffer_ s)).
Proof.
  unfold BufferCache.TryAllocateTransientData, BufferCache.bind,
    BufferCache.on_ring, BufferCache.ret.
  destruct (CircularBuffer.Acquire length fence _) as [[a|] r]; simpl; auto.
Qed.

(** Allocation touches the ring only: registers, guest memory, arena bytes,
    the guest-range cache and the recorded barriers are as before. *)
Lemma AllocateTransientData_frame s length fence :
  let s' := snd (BufferCache.AllocateTransientData length fence s) in
  BufferCache.register_file_ s' = BufferCache.register_file_ s /\
  BufferCache.memory_ s' = BufferCache.memory_ s /\
  BufferCache.host_base s' = BufferCache.host_base s /\
  BufferCache.transient_cache_ s' = BufferCache.transient_cache_ s /\
  BufferCache.recorded s' = BufferCache.recorded s.
Proof.
  unfold BufferCache.AllocateTransientData, BufferCache.TryAllocateTransientData,
    BufferCache.bind, BufferCache.on_ring_, BufferCache.on_ring,
    BufferCache.ret.
  destruct (CircularBuffer.Acquire length fence _) as [[a|] r]; simpl.
  - destruct (CircularBuffer.offset a =? VK_WHOLE_SIZE); simpl; auto 6.
    destruct (CircularBuffer.Acquire length fence _) as [[b|] r']; simpl;
      auto 6.
  - destruct (CircularBuffer.Acquire length fence _) as [[b|] r']; simpl;
      auto 6.
Qed.

(** A range is found again right after it has been cached. *)
Lemma FindCachedTransientData_after_cache (c : cache) address length offset :
  keys_sorted c ->
  FindCachedTransientData address length
    (CacheTransientData address length offset c)
  = u64 (offset + u32 (address - address)).
Proof.
  intros Hs. rewrite (CacheTransientData_sorted _ _ _ _ Hs).
  rewrite FindCachedTransientData_at.
  - rewrite Z.leb_refl. reflexivity.
  - apply Forall_app. split.
    + eapply Forall_impl; [|apply Forall_below]. simpl. intros; lia.
    + constructor; [simpl; lia | constructor].
  - apply Forall_erase_contained, Forall_above.
Qed.

Lemma CacheTransientData_nil address length offset :
  CacheTransientData address length offset [] = [(address, (length, offset))].
Proof.
  unfold CacheTransientData. simpl. rewrite Z.ltb_irrefl. reflexivity.
Qed.

(** A cached range is served from the cache: the state is untouched. *)
Lemma UploadVertexBuffer_hit s command_buffer source_addr source_length
    endian fence :
  FindCachedTransientData source_addr source_length
    (BufferCache.transient_cache_ s) <> VK_WHOLE_SIZE ->
  BufferCache.UploadVertexBuffer command_buffer source_addr source_length
    endian fence s =
  (Some (CircularBuffer.gpu_buffer (BufferCache.transient_buffer_ s),
         FindCachedTransientData source_addr source_length
           (BufferCache.transient_cache_ s)), s).
Proof.
  intros Hhit. unfold BufferCache.UploadVertexBuffer.
  run_methods.
  destruct (Z.eqb_spec (FindCachedTransientData source_addr source_length
                          (BufferCache.transient_cache_ s)) VK_WHOLE_SIZE);
    [contradiction | reflexivity].
Qed.

(** What an upload that returned an offset leaves behind: the range is
    cached at the returned offset. *)
Lemma UploadVertexBuffer_caches s command_buffer source_addr source_length
    endian fence buf offset s1 :
  keys_sorted (BufferCache.transient_cache_ s) ->
  BufferCache.UploadVertexBuffer command_buffer source_addr source_length
    endian fence s = (Some (buf, offset), s1) ->
  offset <> VK_WHOLE_SIZE ->
  buf = CircularBuffer.gpu_buffer (BufferCache.transient_buffer_ s1) /\
  FindCachedTransientData source_addr source_length
    (BufferCache.transient_cache_ s1) = offset.
Proof.
  intros Hs.
  destruct (Z.eq_dec (FindCachedTransientData source_addr source_length
                        (BufferCache.transient_cache_ s)) VK_WHOLE_SIZE)
    as [Hmiss | Hhit].
  - unfold BufferCache.UploadVertexBuffer. run_methods.
    rewrite Hmiss, Z.eqb_refl. simpl.
    repeat split_acquire; try split_endian;
      intros [= <- <- <-] Hoff; try contradiction; simpl;
      (split; [reflexivity|]);
      apply FindCachedTransientData_after_cache; exact Hs.
  - rewrite (UploadVertexBuffer_hit _ _ _ _ _ _ Hhit).
    intros [= <- <- <-] _. split; reflexivity.
Qed.

Lemma UploadIndexBuffer_cache s command_buffer source_addr source_length
    format fence :
  BufferCache.transient_cache_
    (snd (BufferCache.UploadIndexBuffer command_buffer source_addr
            source_length format fence s)) =
  BufferCache.transient_cache_ s.
Proof.
  unfold BufferCache.UploadIndexBuffer. run_methods.
  repeat split_acquire; try reflexivity;
    destruct (negb _); destruct format; reflexivity.
Qed.

Lemma UploadConstantRegisters_cache s command_buffer fence :
  BufferCache.transient_cache_
    (snd (BufferCache.UploadConstantRegisters command_buffer fence s)) =
  BufferCache.transient_cache_ s.
Proof.
  unfold BufferCache.UploadConstantRegisters. run_methods.
  repeat split_acquire; reflexivity.
Qed.

(** The cache after a vertex upload that missed: as before, or with the
    range cached at the offset the allocation returned. *)
Lemma UploadVertexBuffer_miss_cache s command_buffer source_addr
    source_length endian fence :
  FindCachedTransientData source_addr source_length
    (BufferCache.transient_cache_ s) = VK_WHOLE_SIZE ->
  let s' := snd (BufferCache.UploadVertexBuffer command_buffer source_addr
                   source_length endian fence s) in
  let o := fst (BufferCache.AllocateTransientData source_length fence s) in
  BufferCache.transient_cache_ s' = BufferCache.transient_cache_ s \/
  (o <> VK_WHOLE_SIZE /\
   BufferCache.transient_cache_ s' =
   CacheTransientData source_addr source_length o
     (BufferCache.transient_cache_ s)).
Proof.
  intros Hmiss. unfold BufferCache.UploadVertexBuffer. run_methods.
  rewrite Hmiss, Z.eqb_refl. simpl.
  repeat split_acquire; try split_endian; auto.
Qed.

End Allocation.

(** ** Rings that grant real arena ranges *)

Section BoundedRing.

Context {R : Type} `{CircularBuffer.Bounded R} `{RegisterTable}.

Implicit Types (s : BufferCache.t R).

Ltac step_ring :=
  match goal with
  | |- context [CircularBuffer.Acquire ?l ?f ?r] =>
      let Hq := fresh "Hacq" in
      let Hk := fresh "Hok" in
      let Hr := fresh "Hrange" in
      assert (Hk : CircularBuffer.ring_ok (snd (CircularBuffer.Acquire l f r)))
        by (apply CircularBuffer.Acquire_ok;
            auto using CircularBuffer.Scavenge_ok, CircularBuffer.Flush_ok);
      assert (Hr : forall a,
                 fst (CircularBuffer.Acquire l f r) = Some a ->
                 0 <= CircularBuffer.offset a /\
                 CircularBuffer.offset a + l < VK_WHOLE_SIZE)
        by (intros ?; apply CircularBuffer.Acquire_range;
            auto using CircularBuffer.Scavenge_ok, CircularBuffer.Flush_ok);
      destruct (CircularBuffer.Acquire l f r) as [[?|] ?] eqn:Hq;
      cbn [fst snd] in Hk, Hr; simpl
  | |- context [?o =? VK_WHOLE_SIZE] =>
      destruct (Z.eqb_spec o VK_WHOLE_SIZE); simpl
  end.

(** An allocation keeps the ring invariant and returns the start of a range
    that ends below [VK_WHOLE_SIZE]. *)
Lemma AllocateTransientData_ring_ok s length fence :
  CircularBuffer.ring_ok (BufferCache.transient_buffer_ s) -> 0 <= length ->
  CircularBuffer.ring_ok
    (BufferCache.transient_buffer_
       (snd (BufferCache.AllocateTransientData length fence s))) /\
  (fst (BufferCache.AllocateTransientData length fence s) <> VK_WHOLE_SIZE ->
   0 <= fst (BufferCache.AllocateTransientData length fence s) /\
   fst (BufferCache.AllocateTransientData length fence s) + length
   < VK_WHOLE_SIZE).
Proof.
  intros Hok Hlen. run_methods.
  repeat step_ring;
    (split; [auto using CircularBuffer.Scavenge_ok|]);
    intros Hne; try contradiction; auto.
Qed.

Lemma after_call_ring_ok s (c : BufferCache.call) :
  BufferCache.call_in_range c ->
  CircularBuffer.ring_ok (BufferCache.transient_buffer_ s) ->
  CircularBuffer.ring_ok
    (BufferCache.transient_buffer_ (BufferCache.after_call s c)).
Proof.
  intros Hc Hok.
  destruct c; cbn [BufferCache.after_call BufferCache.call_in_range] in *.
  - unfold BufferCache.UploadConstantRegisters. run_methods.
    assert (0 <= kConstantRegisterUniformRange) by (vm_compute; discriminate).
    repeat step_ring;
      auto using CircularBuffer.Scavenge_ok, CircularBuffer.Flush_ok.
  - unfold BufferCache.UploadIndexBuffer. run_methods.
    repeat step_ring; try (destruct (negb _); destruct format; simpl);
      auto using CircularBuffer.Scavenge_ok, CircularBuffer.Flush_ok.
  - destruct Hc as (_ & Hl & _).
    unfold BufferCache.UploadVertexBuffer. run_methods.
    destruct (negb _); simpl; [assumption|].
    repeat step_ring; try split_endian;
      auto using CircularBuffer.Scavenge_ok, CircularBuffer.Flush_ok.
  - exact Hok.
  - exact Hok.
  - simpl. apply CircularBuffer.Scavenge_ok. exact Hok.
Qed.

(** Every cache the vertex uploads build is ordered by key and by end
    address. *)
Lemma UploadVertexBuffer_keeps_cache_inv s command_buffer source_addr
    source_length endian fence :
  CircularBuffer.ring_ok (BufferCache.transient_buffer_ s) ->
  cache_inv (BufferCache.transient_cache_ s) ->
  buffer_ranges (BufferCache.transient_cache_ s) ->
  range32 source_addr source_length ->
  cache_inv
    (BufferCache.transient_cache_
       (snd (BufferCache.UploadVertexBuffer command_buffer source_addr
               source_length endian fence s))) /\
  buffer_ranges
    (BufferCache.transient_cache_
       (snd (BufferCache.UploadVertexBuffer command_buffer source_addr
               source_length endian fence s))).
Proof.
  intros Hok Hinv Hbuf Hreq.
  destruct (Z.eq_dec (FindCachedTransientData source_addr source_length
                        (BufferCache.transient_cache_ s)) VK_WHOLE_SIZE)
    as [Hmiss | Hhit].
  - assert (Hno : forall e,
               nearest_below (BufferCache.transient_cache_ s) source_addr e ->
               ~ contains e source_addr source_length).
    { destruct Hinv as (Hs & Hg & _).
      destruct (FindCachedTransientData_spec _ _ _ Hs Hg Hbuf Hreq)
        as (Hiff & _ & _).
      intros e Hn Hc. apply (proj2 Hiff); eauto. }
    destruct (UploadVertexBuffer_miss_cache s command_buffer source_addr
                source_length endian fence Hmiss) as [-> | (Hne & ->)];
      [auto|].
    destruct (AllocateTransientData_ring_ok s source_length fence Hok
                ltac:(destruct Hreq as (_ & ? & _); assumption))
      as (_ & Hrange).
    specialize (Hrange Hne). split.
    + apply CacheTransientData_keeps_inv; assumption.
    + apply CacheTransientData_buffer_ranges; try tauto.
      destruct Hinv. assumption.
  - rewrite (UploadVertexBuffer_hit _ _ _ _ _ _ Hhit). simpl. auto.
Qed.

(** Whatever the sequence of calls, starting from a cache that is ordered by
    key and by end address (the empty cache of a new [BufferCache] is), the
    cache stays so. *)
Lemma after_calls_cache_inv (cs : list BufferCache.call) : forall s,
  Forall BufferCache.call_in_range cs ->
  CircularBuffer.ring_ok (BufferCache.transient_buffer_ s) ->
  cache_inv (BufferCache.transient_cache_ s) ->
  buffer_ranges (BufferCache.transient_cache_ s) ->
  cache_inv (BufferCache.transient_cache_ (BufferCache.after_calls s cs)) /\
  buffer_ranges
    (BufferCache.transient_cache_ (BufferCache.after_calls s cs)).
Proof.
  induction cs as [|c cs IH]; intros s Hcs Hok Hinv Hbuf;
    [split; assumption|].
  apply Forall_cons_iff in Hcs. destruct Hcs as [Hc Hcs].
  unfold BufferCache.after_calls. cbn [fold_left].
  assert (cache_inv
            (BufferCache.transient_cache_ (BufferCache.after_call s c)) /\
          buffer_ranges
            (BufferCache.transient_cache_ (BufferCache.after_call s c)))
    as [Hinv' Hbuf'].
  { destruct c; cbn [BufferCache.after_call].
    - rewrite UploadConstantRegisters_cache. auto.
    - rewrite UploadIndexBuffer_cache. auto.
    - apply UploadVertexBuffer_keeps_cache_inv; auto.
    - split; [apply cache_inv_nil | constructor].
    - split; [apply cache_inv_nil | constructor].
    - split; [apply cache_inv_nil | constructor]. }
  apply IH; try assumption.
  apply after_call_ring_ok; assumption.
Qed.

End BoundedRing.

(** C10.  [InvalidateCache] and [ClearCache] agree on every state: each
    empties [transient_cache_] and leaves every other member as it was. *)
Theorem InvalidateCache_ClearCache_equal :
  forall (R : Type) (s : BufferCache.t R),
    BufferCache.InvalidateCache s = BufferCache.ClearCache s /\
    BufferCache.transient_cache_ (snd (BufferCache.InvalidateCache s)) = [] /\
    BufferCache.transient_cache_ (snd (BufferCache.ClearCache s)) = [] /\
    BufferCache.register_file_ (snd (BufferCache.InvalidateCache s))
      = BufferCache.register_file_ s /\
    BufferCache.memory_ (snd (BufferCache.InvalidateCache s))
      = BufferCache.memory_ s /\
    BufferCache.transient_buffer_ (snd (BufferCache.InvalidateCache s))
      = BufferCache.transient_buffer_ s /\
    BufferCache.host_base (snd (BufferCache.InvalidateCache s))
      = BufferCache.host_base s /\
    BufferCache.recorded (snd (BufferCache.InvalidateCache s))
      = BufferCache.recorded s.
Proof.
  intros R s.
  unfold BufferCache.InvalidateCache, BufferCache.ClearCache,
    BufferCache.on_cache.
  simpl. repeat split.
Qed.

(** C8.  [AllocateTransientData] makes one attempt.  When it yields an offset
    that offset is returned and the ring has seen that single [Acquire].
    When it yields [VK_WHOLE_SIZE] the ring is scavenged once and one more
    attempt is made, whose result, offset or [VK_WHOLE_SIZE], is returned:
    the ring has seen exactly [Acquire], [Scavenge], [Acquire]. *)
Theorem AllocateTransientData_scavenges_once_on_failure :
  forall (R : Type) (I : CircularBuffer.Interface R)
         (s : BufferCache.t (CircularBuffer.Probed R))
         (length : Z) (fence : VkFence),
    let first := BufferCache.TryAllocateTransientData length fence s in
    let scavenged :=
      snd (BufferCache.on_ring_ CircularBuffer.Scavenge (snd first)) in
    let second :=
      BufferCache.TryAllocateTransientData length fence scavenged in
    let log (x : BufferCache.t (CircularBuffer.Probed R)) :=
      CircularBuffer.calls (BufferCache.transient_buffer_ x) in
    (fst first <> VK_WHOLE_SIZE ->
     BufferCache.AllocateTransientData length fence s = first /\
     log (snd first) = log s ++ [CircularBuffer.CallAcquire length fence]) /\
    (fst first = VK_WHOLE_SIZE ->
     BufferCache.AllocateTransientData length fence s = second /\
     log (snd second) =
       log s ++ [CircularBuffer.CallAcquire length fence;
                 CircularBuffer.CallScavenge;
                 CircularBuffer.CallAcquire length fence]) /\
    fst first =
      match fst (CircularBuffer.Acquire length fence
                   (CircularBuffer.inner (BufferCache.transient_buffer_ s)))
      with
      | Some a => CircularBuffer.offset a
      | None => VK_WHOLE_SIZE
      end.
Proof.
  intros R I s length fence.
  unfold BufferCache.AllocateTransientData, BufferCache.TryAllocateTransientData,
    BufferCache.bind, BufferCache.on_ring_, BufferCache.on_ring,
    BufferCache.ret.
  simpl.
  destruct (CircularBuffer.Acquire length fence
              (CircularBuffer.inner (BufferCache.transient_buffer_ s)))
    as [[a|] r] eqn:Hfirst; simpl.
  - destruct (Z.eqb_spec (CircularBuffer.offset a) VK_WHOLE_SIZE) as [He|Hne];
      simpl.
    + split; [intros Hc; contradiction|]. split; [|reflexivity].
      intros _.
      destruct (CircularBuffer.Acquire length fence (CircularBuffer.Scavenge r))
        as [[b|] r']; simpl; repeat rewrite <- app_assoc; auto.
    + split; [intros _; split; reflexivity|].
      split; [intros Hc; contradiction | reflexivity].
  - split; [intros Hc; contradiction|]. split; [|reflexivity].
    intros _.
    destruct (CircularBuffer.Acquire length fence (CircularBuffer.Scavenge r))
      as [[b|] r']; simpl; repeat rewrite <- app_assoc; auto.
Qed.

(** ** Uploads over a call-recording ring *)

Section Uploads.

Context {R : Type} {I : CircularBuffer.Interface R} {RT : RegisterTable}.

Implicit Types (s : BufferCache.t (CircularBuffer.Probed R)).

(** The ring calls of one allocation: a single [Acquire], or [Acquire],
    [Scavenge], [Acquire]. *)
Lemma AllocateTransientData_calls s length fence :
  let s' := snd (BufferCache.AllocateTransientData length fence s) in
  log s' = log s ++ [CircularBuffer.CallAcquire length fence] \/
  log s' = log s ++ [CircularBuffer.CallAcquire length fence;
                     CircularBuffer.CallScavenge;
                     CircularBuffer.CallAcquire length fence].
Proof.
  unfold log, BufferCache.AllocateTransientData,
    BufferCache.TryAllocateTransientData,
    BufferCache.bind, BufferCache.on_ring_, BufferCache.on_ring,
    BufferCache.ret.
  simpl.
  destruct (CircularBuffer.Acquire length fence
              (CircularBuffer.inner (BufferCache.transient_buffer_ s)))
    as [[a|] r]; simpl.
  - destruct (CircularBuffer.offset a =? VK_WHOLE_SIZE); simpl; [|auto].
    right.
    destruct (CircularBuffer.Acquire length fence (CircularBuffer.Scavenge r))
      as [[b|] r']; simpl; repeat rewrite <- app_assoc; reflexivity.
  - right.
    destruct (CircularBuffer.Acquire length fence (CircularBuffer.Scavenge r))
      as [[b|] r']; simpl; repeat rewrite <- app_assoc; reflexivity.
Qed.

Lemma AllocateTransientData_calls_prefix s length fence :
  exists rest,
    log (snd (BufferCache.AllocateTransientData length fence s)) =
    log s ++ CircularBuffer.CallAcquire length fence :: rest.
Proof.
  destruct (AllocateTransientData_calls s length fence) as [-> | ->]; eauto.
Qed.

Lemma memcpy_inside (dest : mem) dp (src : mem) sp n k :
  0 <= k < n -> memcpy dest dp src sp n (dp + k) = src (sp + k).
Proof.
  intros Hk. unfold memcpy.
  assert (((dp <=? dp + k) && (dp + k <? dp + n)) = true) as ->.
  { apply andb_true_iff. split; [apply Z.leb_le | apply Z.ltb_lt]; lia. }
  f_equal. lia.
Qed.

Lemma memcpy_outside (dest : mem) dp (src : mem) sp n q :
  q < dp \/ dp + n <= q -> memcpy dest dp src sp n q = dest q.
Proof.
  intros Hq. unfold memcpy.
  assert (((dp <=? q) && (q <? dp + n)) = false) as ->; [|reflexivity].
  apply andb_false_iff. destruct Hq; [left; apply Z.leb_gt | right; apply Z.ltb_ge]; lia.
Qed.

(** C9.  When [UploadConstantRegisters] gets its region, the ring was asked
    for [kConstantRegisterUniformRange = 512*4*4 + 8*4 + 32*4] bytes and the
    region holds, byte for byte, the float constants, then the boolean
    constants, then the loop constants of the register file, one block after
    the other from the allocated offset; no byte outside the region is
    written. *)
Theorem UploadConstantRegisters_layout :
  forall s (command_buffer : VkCommandBuffer) (fence : VkFence),
    let r := BufferCache.UploadConstantRegisters command_buffer fence s in
    let offset := fst (fst r) in
    offset <> VK_WHOLE_SIZE ->
    kConstantRegisterUniformRange = 8352 /\
    snd (fst r) = offset /\
    (log (snd r) =
       log s ++ [CircularBuffer.CallAcquire (512 * 4 * 4 + 8 * 4 + 32 * 4) fence;
                 CircularBuffer.CallFlush offset (512 * 4 * 4 + 8 * 4 + 32 * 4)]
     \/
     log (snd r) =
       log s ++ [CircularBuffer.CallAcquire (512 * 4 * 4 + 8 * 4 + 32 * 4) fence;
                 CircularBuffer.CallScavenge;
                 CircularBuffer.CallAcquire (512 * 4 * 4 + 8 * 4 + 32 * 4) fence;
                 CircularBuffer.CallFlush offset (512 * 4 * 4 + 8 * 4 + 32 * 4)])
    /\
    (forall k, 0 <= k < 512 * 4 * 4 ->
       BufferCache.host_base (snd r) (offset + k) =
       BufferCache.register_file_ s
         (4 * XE_GPU_REG_SHADER_CONSTANT_000_X + k)) /\
    (forall k, 0 <= k < 8 * 4 ->
       BufferCache.host_base (snd r) (offset + 512 * 4 * 4 + k) =
       BufferCache.register_file_ s
         (4 * XE_GPU_REG_SHADER_CONSTANT_BOOL_000_031 + k)) /\
    (forall k, 0 <= k < 32 * 4 ->
       BufferCache.host_base (snd r) (offset + 512 * 4 * 4 + 8 * 4 + k) =
       BufferCache.register_file_ s
         (4 * XE_GPU_REG_SHADER_CONSTANT_LOOP_00 + k)) /\
    (forall q, q < offset \/ offset + kConstantRegisterUniformRange <= q ->
       BufferCache.host_base (snd r) q = BufferCache.host_base s q).
Proof.
  intros s command_buffer fence r offset.
  pose proof (AllocateTransientData_calls s kConstantRegisterUniformRange fence)
    as Hlog.
  pose proof (AllocateTransientData_frame s kConstantRegisterUniformRange fence)
    as Hframe.
  unfold BufferCache.UploadConstantRegisters, BufferCache.bind in r.
  destruct (BufferCache.AllocateTransientData kConstantRegisterUniformRange
              fence s) as [o sa] eqn:Ha.
  simpl in Hlog, Hframe.
  destruct Hframe as (Hregs & _ & Hhost & _ & _).
  destruct (Z.eqb_spec o VK_WHOLE_SIZE) as [He | Hne].
  - intros Hc. exfalso. apply Hc. reflexivity.
  - intros _. run_methods_in r. simpl in r. subst offset r.
    unfold log in *. simpl.
    rewrite Hregs, Hhost.
    change kConstantRegisterUniformRange with 8352 in *.
    change (512 * 4 * 4 + 8 * 4 + 32 * 4) with 8352.
    change (512 * 4 * 4) with 8192. change (8 * 4) with 32.
    change (32 * 4) with 128.
    split; [reflexivity|]. split; [reflexivity|]. split.
    { destruct Hlog as [-> | ->]; [left | right];
        rewrite <- app_assoc; reflexivity. }
    split; [|split; [|split]].
    + intros k Hk.
      rewrite memcpy_outside by lia. rewrite memcpy_outside by lia.
      apply memcpy_inside. lia.
    + intros k Hk.
      rewrite memcpy_outside by lia.
      replace (o + 8192 + k) with ((o + 8192) + k) by lia.
      apply memcpy_inside. lia.
    + intros k Hk.
      replace (o + 8192 + 32 + k) with ((o + 8192 + 32) + k) by lia.
      apply memcpy_inside. lia.
    + intros q Hq.
      rewrite !memcpy_outside by lia. reflexivity.
Qed.

(** [!!(x & (1 << 21))] reads bit 21. *)
Lemma land_bit21 (x : Z) :
  negb (Z.land x (Z.shiftl 1 21) =? 0) = Z.testbit x 21.
Proof.
  change (Z.shiftl 1 21) with (2 ^ 21).
  destruct (Z.testbit x 21) eqn:Hb.
  - apply negb_true_iff, Z.eqb_neq. intros H0.
    assert (Z.testbit (Z.land x (2 ^ 21)) 21 = true) as Ht.
    { rewrite Z.land_spec, Hb, Z.pow2_bits_true by lia. reflexivity. }
    rewrite H0, Z.bits_0 in Ht. discriminate.
  - apply negb_false_iff, Z.eqb_eq. apply Z.bits_inj'. intros n Hn.
    rewrite Z.land_spec, Z.bits_0, Z.pow2_bits_eqb by lia.
    destruct (Z.eqb_spec 21 n) as [<- | _];
      [rewrite Hb; reflexivity | apply andb_false_r].
Qed.



End Uploads.

(** ** The copy routines *)

Section CopyRoutines.

Implicit Types (m src dest : mem) (p q v : Z).

Lemma byte_at_range m p : 0 <= byte_at m p < 256.
Proof. unfold byte_at, u8. apply Z.mod_pos_bound. reflexivity. Qed.

Lemma u8_small v : 0 <= v < 256 -> u8 v = v.
Proof. intros Hv. unfold u8. apply Z.mod_small. exact Hv. Qed.

Lemma u8_u8 v : u8 (u8 v) = u8 v.
Proof. apply u8_small. unfold u8. apply Z.mod_pos_bound. reflexivity. Qed.

Lemma store8_same m p v : byte_at (store8 m p v) p = u8 v.
Proof. unfold byte_at, store8. rewrite Z.eqb_refl. apply u8_u8. Qed.

Lemma store8_other m p v q : q <> p -> store8 m p v q = m q.
Proof.
  intros Hq. unfold store8.
  destruct (Z.eqb_spec q p); [contradiction | reflexivity].
Qed.

Lemma store_bytes_other (bs : list Z) : forall m p q,
  q < p \/ p + Z.of_nat (length bs) <= q -> store_bytes m p bs q = m q.
Proof.
  induction bs as [|b bs IH]; intros m p q Hq; [reflexivity|].
  cbn [store_bytes length] in *.
  rewrite IH by lia. apply store8_other. lia.
Qed.

Lemma store_bytes_at (bs : list Z) : forall m p (k : nat),
  (k < length bs)%nat ->
  byte_at (store_bytes m p bs) (p + Z.of_nat k) = u8 (nth k bs 0).
Proof.
  induction bs as [|b bs IH]; intros m p k Hk; [inversion Hk|].
  cbn [store_bytes length] in *. destruct k as [|k].
  - unfold byte_at. rewrite store_bytes_other by lia.
    replace (p + Z.of_nat 0) with p by lia. apply store8_same.
  - replace (p + Z.of_nat (S k)) with (p + 1 + Z.of_nat k) by lia.
    rewrite IH by lia. reflexivity.
Qed.

Lemma load16_ext m m' p :
  m p = m' p -> m (p + 1) = m' (p + 1) -> load16 m p = load16 m' p.
Proof. intros H0 H1. unfold load16, byte_at. rewrite H0, H1. reflexivity. Qed.

Lemma load32_ext m m' p :
  m p = m' p -> m (p + 1) = m' (p + 1) -> m (p + 2) = m' (p + 2) ->
  m (p + 3) = m' (p + 3) -> load32 m p = load32 m' p.
Proof.
  intros H0 H1 H2 H3. unfold load32, byte_at. rewrite H0, H1, H2, H3.
  reflexivity.
Qed.

Lemma load16_range m p : 0 <= load16 m p < 2 ^ 16.
Proof.
  unfold load16. pose proof (byte_at_range m p).
  pose proof (byte_at_range m (p + 1)). lia.
Qed.

Lemma load32_range m p : 0 <= load32 m p < 2 ^ 32.
Proof.
  unfold load32. pose proof (byte_at_range m p).
  pose proof (byte_at_range m (p + 1)). pose proof (byte_at_range m (p + 2)).
  pose proof (byte_at_range m (p + 3)). lia.
Qed.

Lemma load16_store16 m p v : 0 <= v < 2 ^ 16 -> load16 (store16 m p v) p = v.
Proof.
  intros Hv. unfold load16, store16.
  rewrite store8_same.
  unfold byte_at at 1. rewrite store8_other by lia.
  fold (byte_at (store8 m p v) p). rewrite store8_same.
  rewrite Z.shiftr_div_pow2 by lia. unfold u8.
  change (2 ^ 8) with 256 in *. change (2 ^ 16) with 65536 in *.
  Z.div_mod_to_equations. lia.
Qed.

Lemma store16_other m p v q :
  q < p \/ p + 2 <= q -> store16 m p v q = m q.
Proof.
  intros Hq. unfold store16. rewrite !store8_other by lia. reflexivity.
Qed.

Lemma load32_store32 m p v : 0 <= v < 2 ^ 32 -> load32 (store32 m p v) p = v.
Proof.
  intros Hv. unfold load32, store32.
  rewrite store8_same.
  unfold byte_at at 1 2 3.
  rewrite (store8_other _ (p + 3) _ p) by lia.
  rewrite (store8_other _ (p + 2) _ p) by lia.
  rewrite (store8_other _ (p + 1) _ p) by lia.
  rewrite (store8_other _ (p + 3) _ (p + 1)) by lia.
  rewrite (store8_other _ (p + 2) _ (p + 1)) by lia.
  rewrite (store8_other _ (p + 3) _ (p + 2)) by lia.
  fold (byte_at (store8 m p v) p).
  fold (byte_at (store8 (store8 m p v) (p + 1) (Z.shiftr v 8)) (p + 1)).
  fold (byte_at (store8 (store8 (store8 m p v) (p + 1) (Z.shiftr v 8))
                   (p + 2) (Z.shiftr v 16)) (p + 2)).
  rewrite !store8_same.
  rewrite !Z.shiftr_div_pow2 by lia. unfold u8.
  change (2 ^ 8) with 256 in *. change (2 ^ 16) with 65536 in *.
  change (2 ^ 24) with 16777216 in *. change (2 ^ 32) with 4294967296 in *.
  Z.div_mod_to_equations. lia.
Qed.

Lemma store32_other m p v q :
  q < p \/ p + 4 <= q -> store32 m p v q = m q.
Proof.
  intros Hq. unfold store32. rewrite !store8_other by lia. reflexivity.
Qed.

(** [a << k | b] is [a * 2^k + b] for [b] below [2^k]. *)
Lemma lor_shiftl_low (a b k : Z) :
  0 <= k -> 0 <= b < 2 ^ k -> Z.lor (Z.shiftl a k) b = a * 2 ^ k + b.
Proof.
  intros Hk Hb. rewrite Z.shiftl_mul_pow2 by lia.
  assert (Z.land (a * 2 ^ k) b = 0) as Hdisj.
  { apply Z.bits_inj'. intros n Hn. rewrite Z.land_spec, Z.bits_0.
    destruct (Z.lt_ge_cases n k) as [Hlt | Hge].
    - rewrite Z.mul_pow2_bits_low by lia. reflexivity.
    - rewrite <- (Z.mod_small b (2 ^ k)) by lia.
      rewrite Z.mod_pow2_bits_high by lia. apply andb_false_r. }
  rewrite <- Z.lxor_lor by exact Hdisj.
  symmetry. apply Z.add_nocarry_lxor. exact Hdisj.
Qed.

Lemma byte_swap16_bytes (b0 b1 : Z) :
  0 <= b0 < 256 -> 0 <= b1 < 256 ->
  xe.byte_swap16 (b0 + 2 ^ 8 * b1) = b1 + 2 ^ 8 * b0.
Proof.
  intros H0 H1. unfold xe.byte_swap16.
  change 255 with (Z.ones 8). rewrite !Z.land_ones by lia.
  rewrite Z.shiftr_div_pow2 by lia.
  rewrite lor_shiftl_low; [|lia|apply Z.mod_pos_bound; reflexivity].
  change (2 ^ 8) with 256 in *.
  Z.div_mod_to_equations. lia.
Qed.

Lemma byte_swap32_bytes (b0 b1 b2 b3 : Z) :
  0 <= b0 < 256 -> 0 <= b1 < 256 -> 0 <= b2 < 256 -> 0 <= b3 < 256 ->
  xe.byte_swap32 (b0 + 2 ^ 8 * b1 + 2 ^ 16 * b2 + 2 ^ 24 * b3)
  = b3 + 2 ^ 8 * b2 + 2 ^ 16 * b1 + 2 ^ 24 * b0.
Proof.
  intros H0 H1 H2 H3. unfold xe.byte_swap32.
  set (v := b0 + 2 ^ 8 * b1 + 2 ^ 16 * b2 + 2 ^ 24 * b3).
  change 255 with (Z.ones 8). rewrite !Z.land_ones by lia.
  rewrite !Z.shiftr_div_pow2 by lia.
  assert (E0 : v mod 2 ^ 8 = b0)
    by (subst v; change (2 ^ 8) with 256; change (2 ^ 16) with 65536;
        change (2 ^ 24) with 16777216; Z.div_mod_to_equations; lia).
  assert (E1 : (v / 2 ^ 8) mod 2 ^ 8 = b1)
    by (subst v; change (2 ^ 8) with 256; change (2 ^ 16) with 65536;
        change (2 ^ 24) with 16777216; Z.div_mod_to_equations; lia).
  assert (E2 : (v / 2 ^ 16) mod 2 ^ 8 = b2)
    by (subst v; change (2 ^ 8) with 256; change (2 ^ 16) with 65536;
        change (2 ^ 24) with 16777216; Z.div_mod_to_equations; lia).
  assert (E3 : (v / 2 ^ 24) mod 2 ^ 8 = b3)
    by (subst v; change (2 ^ 8) with 256; change (2 ^ 16) with 65536;
        change (2 ^ 24) with 16777216; Z.div_mod_to_equations; lia).
  rewrite E0, E1, E2, E3.
  rewrite (lor_shiftl_low b2 b3 8) by lia.
  rewrite (Z.shiftl_mul_pow2 b1 16) by lia.
  rewrite (Z.shiftl_mul_pow2 b0 24) by lia.
  replace (b0 * 2 ^ 24) with (Z.shiftl (b0 * 2 ^ 8) 16)
    by (rewrite Z.shiftl_mul_pow2 by lia; lia).
  replace (b1 * 2 ^ 16) with (Z.shiftl b1 16)
    by (rewrite Z.shiftl_mul_pow2 by lia; lia).
  rewrite <- Z.shiftl_lor.
  rewrite (lor_shiftl_low (Z.lor (b0 * 2 ^ 8) b1) (b2 * 2 ^ 8 + b3) 16)
    by lia.
  replace (b0 * 2 ^ 8) with (Z.shiftl b0 8)
    by (rewrite Z.shiftl_mul_pow2 by lia; lia).
  rewrite (lor_shiftl_low b0 b1 8) by lia.
  lia.
Qed.

Lemma byte_swap16_load16 src p :
  xe.byte_swap16 (load16 src p) = byte_at src (p + 1) + 2 ^ 8 * byte_at src p.
Proof. apply byte_swap16_bytes; apply byte_at_range. Qed.

Lemma byte_swap32_load32 src p :
  xe.byte_swap32 (load32 src p) =
  byte_at src (p + 3) + 2 ^ 8 * byte_at src (p + 2)
  + 2 ^ 16 * byte_at src (p + 1) + 2 ^ 24 * byte_at src p.
Proof. apply byte_swap32_bytes; apply byte_at_range. Qed.

Lemma byte_swap16_range src p : 0 <= xe.byte_swap16 (load16 src p) < 2 ^ 16.
Proof.
  rewrite byte_swap16_load16. pose proof (byte_at_range src p).
  pose proof (byte_at_range src (p + 1)). lia.
Qed.

Lemma byte_swap32_range src p : 0 <= xe.byte_swap32 (load32 src p) < 2 ^ 32.
Proof.
  rewrite byte_swap32_load32. pose proof (byte_at_range src p).
  pose proof (byte_at_range src (p + 1)). pose proof (byte_at_range src (p + 2)).
  pose proof (byte_at_range src (p + 3)). lia.
Qed.

(** The scalar loop with the comparison: every element from [i] on is
    converted and substituted, nothing else is written. *)
Lemma copy_and_swap_16_loop_spec src sp cmp count dp (fuel : nat) :
  forall i dest,
    0 <= i -> count < 2 ^ 64 -> count - i <= Z.of_nat fuel ->
    (forall j, i <= j < count ->
       load16 (copy_and_swap_16_loop fuel src sp cmp count i dest dp)
              (dp + 2 * j) =
       if xe.byte_swap16 (load16 src (sp + 2 * j)) =? cmp then 0xFFFF
       else xe.byte_swap16 (load16 src (sp + 2 * j))) /\
    (forall q, q < dp + 2 * i \/ dp + 2 * count <= q ->
       copy_and_swap_16_loop fuel src sp cmp count i dest dp q = dest q).
Proof.
  induction fuel as [|fuel IH]; intros i dest Hi Hc Hfuel;
    cbn [copy_and_swap_16_loop].
  - split; [intros j Hj; lia | reflexivity].
  - destruct (Z.ltb_spec i count) as [Hlt | Hge];
      [|split; [intros j Hj; lia | reflexivity]].
    rewrite (u64_small (i + 1)) by lia.
    set (value := xe.byte_swap16 (load16 src (sp + 2 * i))).
    set (stored := if value =? cmp then 0xFFFF else value).
    destruct (IH (i + 1) (store16 dest (dp + 2 * i) stored)
                ltac:(lia) Hc ltac:(lia)) as (IHv & IHf).
    split.
    + intros j Hj. destruct (Z.eq_dec j i) as [-> | Hne].
      * rewrite (load16_ext _ (store16 dest (dp + 2 * i) stored))
          by (apply IHf; lia).
        apply load16_store16. subst stored value.
        pose proof (byte_swap16_range src (sp + 2 * i)).
        destruct (_ =? cmp); lia.
      * apply IHv. lia.
    + intros q Hq. rewrite IHf by lia. apply store16_other. lia.
Qed.

Lemma copy_and_swap_32_loop_spec src sp cmp count dp (fuel : nat) :
  forall i dest,
    0 <= i -> count < 2 ^ 64 -> count - i <= Z.of_nat fuel ->
    (forall j, i <= j < count ->
       load32 (copy_and_swap_32_loop fuel src sp cmp count i dest dp)
              (dp + 4 * j) =
       if xe.byte_swap32 (load32 src (sp + 4 * j)) =? cmp then 0xFFFFFFFF
       else xe.byte_swap32 (load32 src (sp + 4 * j))) /\
    (forall q, q < dp + 4 * i \/ dp + 4 * count <= q ->
       copy_and_swap_32_loop fuel src sp cmp count i dest dp q = dest q).
Proof.
  induction fuel as [|fuel IH]; intros i dest Hi Hc Hfuel;
    cbn [copy_and_swap_32_loop].
  - split; [intros j Hj; lia | reflexivity].
  - destruct (Z.ltb_spec i count) as [Hlt | Hge];
      [|split; [intros j Hj; lia | reflexivity]].
    rewrite (u64_small (i + 1)) by lia.
    set (value := xe.byte_swap32 (load32 src (sp + 4 * i))).
    set (stored := if value =? cmp then 0xFFFFFFFF else value).
    destruct (IH (i + 1) (store32 dest (dp + 4 * i) stored)
                ltac:(lia) Hc ltac:(lia)) as (IHv & IHf).
    split.
    + intros j Hj. destruct (Z.eq_dec j i) as [-> | Hne].
      * rewrite (load32_ext _ (store32 dest (dp + 4 * i) stored))
          by (apply IHf; lia).
        apply load32_store32. subst stored value.
        pose proof (byte_swap32_range src (sp + 4 * i)).
        destruct (_ =? cmp); lia.
      * apply IHv. lia.
    + intros q Hq. rewrite IHf by lia. apply store32_other. lia.
Qed.

(** The residual loops of the vector routines: every element from [i] on is
    converted, and none is compared with the restart index. *)
Lemma swap_16_residual_loop_spec src sp count dp (fuel : nat) :
  forall i dest,
    0 <= i -> count < 2 ^ 64 -> count - i <= Z.of_nat fuel ->
    (forall j, i <= j < count ->
       load16 (swap_16_residual_loop fuel src sp count i dest dp)
              (dp + 2 * j) =
       xe.byte_swap16 (load16 src (sp + 2 * j))) /\
    (forall q, q < dp + 2 * i \/ dp + 2 * count <= q ->
       swap_16_residual_loop fuel src sp count i dest dp q = dest q).
Proof.
  induction fuel as [|fuel IH]; intros i dest Hi Hc Hfuel;
    cbn [swap_16_residual_loop].
  - split; [intros j Hj; lia | reflexivity].
  - destruct (Z.ltb_spec i count) as [Hlt | Hge];
      [|split; [intros j Hj; lia | reflexivity]].
    rewrite (u64_small (i + 1)) by lia.
    set (value := xe.byte_swap16 (load16 src (sp + 2 * i))).
    destruct (IH (i + 1) (store16 dest (dp + 2 * i) value)
                ltac:(lia) Hc ltac:(lia)) as (IHv & IHf).
    split.
    + intros j Hj. destruct (Z.eq_dec j i) as [-> | Hne].
      * rewrite (load16_ext _ (store16 dest (dp + 2 * i) value))
          by (apply IHf; lia).
        apply load16_store16. apply byte_swap16_range.
      * apply IHv. lia.
    + intros q Hq. rewrite IHf by lia. apply store16_other. lia.
Qed.

Lemma swap_32_residual_loop_spec src sp count dp (fuel : nat) :
  forall i dest,
    0 <= i -> count < 2 ^ 64 -> count - i <= Z.of_nat fuel ->
    (forall j, i <= j < count ->
       load32 (swap_32_residual_loop fuel src sp count i dest dp)
              (dp + 4 * j) =
       xe.byte_swap32 (load32 src (sp + 4 * j))) /\
    (forall q, q < dp + 4 * i \/ dp + 4 * count <= q ->
       swap_32_residual_loop fuel src sp count i dest dp q = dest q).
Proof.
  induction fuel as [|fuel IH]; intros i dest Hi Hc Hfuel;
    cbn [swap_32_residual_loop].
  - split; [intros j Hj; lia | reflexivity].
  - destruct (Z.ltb_spec i count) as [Hlt | Hge];
      [|split; [intros j Hj; lia | reflexivity]].
    rewrite (u64_small (i + 1)) by lia.
    set (value := xe.byte_swap32 (load32 src (sp + 4 * i))).
    destruct (IH (i + 1) (store32 dest (dp + 4 * i) value)
                ltac:(lia) Hc ltac:(lia)) as (IHv & IHf).
    split.
    + intros j Hj. destruct (Z.eq_dec j i) as [-> | Hne].
      * rewrite (load32_ext _ (store32 dest (dp + 4 * i) value))
          by (apply IHf; lia).
        apply load32_store32. apply byte_swap32_range.
      * apply IHv. lia.
    + intros q Hq. rewrite IHf by lia. apply store32_other. lia.
Qed.

(** The vector computation of one step, on sixteen loaded bytes. *)
Lemma cmp_swap_16_lanes (b0 b1 b2 b3 b4 b5 b6 b7 b8 b9 b10 b11 b12 b13 b14 b15
                         c0 c1 : Z) :
  let output :=
    _mm_shuffle_epi8
      [b0; b1; b2; b3; b4; b5; b6; b7; b8; b9; b10; b11; b12; b13; b14; b15]
      (_mm_set_epi8 0x0E 0x0F 0x0C 0x0D 0x0A 0x0B 0x08 0x09 0x06 0x07
                    0x04 0x05 0x02 0x03 0x00 0x01) in
  _mm_or_si128 output (_mm_cmpeq_epi16 output (concat (repeat [c0; c1] 8))) =
  [Z.lor b1 (lane_mask [b1; b0] [c0; c1]);
   Z.lor b0 (lane_mask [b1; b0] [c0; c1]);
   Z.lor b3 (lane_mask [b3; b2] [c0; c1]);
   Z.lor b2 (lane_mask [b3; b2] [c0; c1]);
   Z.lor b5 (lane_mask [b5; b4] [c0; c1]);
   Z.lor b4 (lane_mask [b5; b4] [c0; c1]);
   Z.lor b7 (lane_mask [b7; b6] [c0; c1]);
   Z.lor b6 (lane_mask [b7; b6] [c0; c1]);
   Z.lor b9 (lane_mask [b9; b8] [c0; c1]);
   Z.lor b8 (lane_mask [b9; b8] [c0; c1]);
   Z.lor b11 (lane_mask [b11; b10] [c0; c1]);
   Z.lor b10 (lane_mask [b11; b10] [c0; c1]);
   Z.lor b13 (lane_mask [b13; b12] [c0; c1]);
   Z.lor b12 (lane_mask [b13; b12] [c0; c1]);
   Z.lor b15 (lane_mask [b15; b14] [c0; c1]);
   Z.lor b14 (lane_mask [b15; b14] [c0; c1])].
Proof. reflexivity. Qed.

Lemma cmp_swap_32_lanes (b0 b1 b2 b3 b4 b5 b6 b7 b8 b9 b10 b11 b12 b13 b14 b15
                         c0 c1 c2 c3 : Z) :
  let output :=
    _mm_shuffle_epi8
      [b0; b1; b2; b3; b4; b5; b6; b7; b8; b9; b10; b11; b12; b13; b14; b15]
      (_mm_set_epi8 0x0C 0x0D 0x0E 0x0F 0x08 0x09 0x0A 0x0B 0x04 0x05
                    0x06 0x07 0x00 0x01 0x02 0x03) in
  _mm_or_si128 output
    (_mm_cmpeq_epi32 output (concat (repeat [c0; c1; c2; c3] 4))) =
  [Z.lor b3 (lane_mask [b3; b2; b1; b0] [c0; c1; c2; c3]);
   Z.lor b2 (lane_mask [b3; b2; b1; b0] [c0; c1; c2; c3]);
   Z.lor b1 (lane_mask [b3; b2; b1; b0] [c0; c1; c2; c3]);
   Z.lor b0 (lane_mask [b3; b2; b1; b0] [c0; c1; c2; c3]);
   Z.lor b7 (lane_mask [b7; b6; b5; b4] [c0; c1; c2; c3]);
   Z.lor b6 (lane_mask [b7; b6; b5; b4] [c0; c1; c2; c3]);
   Z.lor b5 (lane_mask [b7; b6; b5; b4] [c0; c1; c2; c3]);
   Z.lor b4 (lane_mask [b7; b6; b5; b4] [c0; c1; c2; c3]);
   Z.lor b11 (lane_mask [b11; b10; b9; b8] [c0; c1; c2; c3]);
   Z.lor b10 (lane_mask [b11; b10; b9; b8] [c0; c1; c2; c3]);
   Z.lor b9 (lane_mask [b11; b10; b9; b8] [c0; c1; c2; c3]);
   Z.lor b8 (lane_mask [b11; b10; b9; b8] [c0; c1; c2; c3]);
   Z.lor b15 (lane_mask [b15; b14; b13; b12] [c0; c1; c2; c3]);
   Z.lor b14 (lane_mask [b15; b14; b13; b12] [c0; c1; c2; c3]);
   Z.lor b13 (lane_mask [b15; b14; b13; b12] [c0; c1; c2; c3]);
   Z.lor b12 (lane_mask [b15; b14; b13; b12] [c0; c1; c2; c3])].
Proof. reflexivity. Qed.

Lemma lor_255 (b : Z) : 0 <= b < 256 -> Z.lor b 255 = 255.
Proof.
  intros Hb. change 255 with (Z.ones 8). apply Z.bits_inj'. intros n Hn.
  rewrite Z.lor_spec.
  destruct (Z.lt_ge_cases n 8) as [Hlt | Hge].
  - rewrite Z.ones_spec_low by lia. apply orb_true_r.
  - rewrite Z.ones_spec_high by lia.
    rewrite <- (Z.mod_small b (2 ^ 8)) by (change (2 ^ 8) with 256; lia).
    rewrite Z.mod_pow2_bits_high by lia. reflexivity.
Qed.

(** One 16-bit lane of the vector result, read back as an element: [x] and
    [y] are the low and high byte of the guest element. *)
Lemma lane16_value (x y cmp : Z) :
  0 <= x < 256 -> 0 <= y < 256 -> 0 <= cmp < 2 ^ 16 ->
  u8 (Z.lor y (lane_mask [y; x] [u8 cmp; u8 (Z.shiftr cmp 8)]))
  + 2 ^ 8 * u8 (Z.lor x (lane_mask [y; x] [u8 cmp; u8 (Z.shiftr cmp 8)]))
  = if y + 2 ^ 8 * x =? cmp then 0xFFFF else y + 2 ^ 8 * x.
Proof.
  intros Hx Hy Hc. unfold lane_mask.
  rewrite Z.shiftr_div_pow2 by lia.
  remember (u8 cmp) as c0 eqn:Hc0.
  remember (u8 (cmp / 2 ^ 8)) as c1 eqn:Hc1.
  unfold u8 in Hc0, Hc1.
  change (2 ^ 8) with 256 in *. change (2 ^ 16) with 65536 in *.
  destruct (list_eq_dec Z.eq_dec [y; x] [c0; c1]) as [E | N].
  - injection E as Ey Ex.
    assert ((y + 256 * x =? cmp) = true) as ->
      by (apply Z.eqb_eq; Z.div_mod_to_equations; lia).
    rewrite !lor_255 by lia. reflexivity.
  - assert ((y + 256 * x =? cmp) = false) as ->.
    { apply Z.eqb_neq. intros Heq. apply N.
      f_equal; [|f_equal]; Z.div_mod_to_equations; lia. }
    rewrite !Z.lor_0_r, !u8_small by lia. reflexivity.
Qed.

Lemma lane32_value (b0 b1 b2 b3 cmp : Z) :
  0 <= b0 < 256 -> 0 <= b1 < 256 -> 0 <= b2 < 256 -> 0 <= b3 < 256 ->
  0 <= cmp < 2 ^ 32 ->
  let mask := lane_mask [b3; b2; b1; b0]
                [u8 cmp; u8 (Z.shiftr cmp 8); u8 (Z.shiftr cmp 16);
                 u8 (Z.shiftr cmp 24)] in
  u8 (Z.lor b3 mask) + 2 ^ 8 * u8 (Z.lor b2 mask)
  + 2 ^ 16 * u8 (Z.lor b1 mask) + 2 ^ 24 * u8 (Z.lor b0 mask)
  = if b3 + 2 ^ 8 * b2 + 2 ^ 16 * b1 + 2 ^ 24 * b0 =? cmp then 0xFFFFFFFF
    else b3 + 2 ^ 8 * b2 + 2 ^ 16 * b1 + 2 ^ 24 * b0.
Proof.
  intros H0 H1 H2 H3 Hc mask. subst mask. unfold lane_mask.
  rewrite !Z.shiftr_div_pow2 by lia.
  remember (u8 cmp) as c0 eqn:Hc0.
  remember (u8 (cmp / 2 ^ 8)) as c1 eqn:Hc1.
  remember (u8 (cmp / 2 ^ 16)) as c2 eqn:Hc2.
  remember (u8 (cmp / 2 ^ 24)) as c3 eqn:Hc3.
  unfold u8 in Hc0, Hc1, Hc2, Hc3.
  change (2 ^ 8) with 256 in *. change (2 ^ 16) with 65536 in *.
  change (2 ^ 24) with 16777216 in *. change (2 ^ 32) with 4294967296 in *.
  destruct (list_eq_dec Z.eq_dec [b3; b2; b1; b0] [c0; c1; c2; c3])
    as [E | N].
  - injection E as E3 E2 E1 E0.
    assert ((b3 + 256 * b2 + 65536 * b1 + 16777216 * b0 =? cmp) = true) as ->
      by (apply Z.eqb_eq; Z.div_mod_to_equations; lia).
    rewrite !lor_255 by lia. reflexivity.
  - assert ((b3 + 256 * b2 + 65536 * b1 + 16777216 * b0 =? cmp) = false)
      as ->.
    { apply Z.eqb_neq. intros Heq. apply N.
      f_equal; [|f_equal; [|f_equal; [|f_equal]]];
        Z.div_mod_to_equations; lia. }
    rewrite !Z.lor_0_r, !u8_small by lia. reflexivity.
Qed.

Lemma store_bytes_at_Z (bs : list Z) m p k :
  0 <= k < Z.of_nat (length bs) ->
  byte_at (store_bytes m p bs) (p + k) = u8 (nth (Z.to_nat k) bs 0).
Proof.
  intros Hk. rewrite <- (Z2Nat.id k) at 1 by lia.
  apply store_bytes_at. lia.
Qed.

Lemma loadu_bytes src p :
  _mm_loadu_si128 src p =
  [byte_at src (p + 0); byte_at src (p + 1); byte_at src (p + 2);
   byte_at src (p + 3); byte_at src (p + 4); byte_at src (p + 5);
   byte_at src (p + 6); byte_at src (p + 7); byte_at src (p + 8);
   byte_at src (p + 9); byte_at src (p + 10); byte_at src (p + 11);
   byte_at src (p + 12); byte_at src (p + 13); byte_at src (p + 14);
   byte_at src (p + 15)].
Proof. reflexivity. Qed.

Ltac lane16_at d p k0 k1 :=
  match goal with
  | |- context [d + 2 * ?t] =>
      replace (d + 2 * t) with (d + k0) by lia;
      replace (d + k0 + 1) with (d + k1) by lia;
      replace (p + 2 * t) with (p + k0) by lia;
      replace (p + k0 + 1) with (p + k1) by lia
  end;
  rewrite !store_bytes_at_Z by (cbn [length]; lia);
  let n0 := eval vm_compute in (Z.to_nat k0) in
  let n1 := eval vm_compute in (Z.to_nat k1) in
  change (Z.to_nat k0) with n0; change (Z.to_nat k1) with n1;
  cbn [nth];
  apply lane16_value; try apply byte_at_range; assumption.

(** One step of the vector loop of [copy_cmp_swap_16_unaligned] converts and
    substitutes each of its eight elements. *)
Lemma cmp_swap_16_step src p dest d cmp t :
  0 <= cmp < 2 ^ 16 -> 0 <= t < 8 ->
  load16
    (_mm_storeu_si128 dest d
       (_mm_or_si128
          (_mm_shuffle_epi8 (_mm_loadu_si128 src p)
             (_mm_set_epi8 0x0E 0x0F 0x0C 0x0D 0x0A 0x0B 0x08 0x09 0x06 0x07
                           0x04 0x05 0x02 0x03 0x00 0x01))
          (_mm_cmpeq_epi16
             (_mm_shuffle_epi8 (_mm_loadu_si128 src p)
                (_mm_set_epi8 0x0E 0x0F 0x0C 0x0D 0x0A 0x0B 0x08 0x09 0x06
                              0x07 0x04 0x05 0x02 0x03 0x00 0x01))
             (_mm_set1_epi16 cmp))))
    (d + 2 * t) =
  if xe.byte_swap16 (load16 src (p + 2 * t)) =? cmp then 0xFFFF
  else xe.byte_swap16 (load16 src (p + 2 * t)).
Proof.
  intros Hc Ht. rewrite byte_swap16_load16.
  rewrite loadu_bytes. unfold _mm_set1_epi16.
  pose proof (cmp_swap_16_lanes
    (byte_at src (p + 0)) (byte_at src (p + 1)) (byte_at src (p + 2))
    (byte_at src (p + 3)) (byte_at src (p + 4)) (byte_at src (p + 5))
    (byte_at src (p + 6)) (byte_at src (p + 7)) (byte_at src (p + 8))
    (byte_at src (p + 9)) (byte_at src (p + 10)) (byte_at src (p + 11))
    (byte_at src (p + 12)) (byte_at src (p + 13)) (byte_at src (p + 14))
    (byte_at src (p + 15)) (u8 cmp) (u8 (Z.shiftr cmp 8))) as Hl.
  cbv zeta in Hl. rewrite Hl. clear Hl.
  unfold _mm_storeu_si128, load16 at 1.
  assert (t = 0 \/ t = 1 \/ t = 2 \/ t = 3 \/ t = 4 \/ t = 5 \/ t = 6 \/ t = 7)
    as Hcases by lia.
  destruct Hcases as [-> | [-> | [-> | [-> | [-> | [-> | [-> | ->]]]]]]].
  - lane16_at d p 0 1.
  - lane16_at d p 2 3.
  - lane16_at d p 4 5.
  - lane16_at d p 6 7.
  - lane16_at d p 8 9.
  - lane16_at d p 10 11.
  - lane16_at d p 12 13.
  - lane16_at d p 14 15.
Qed.

Ltac lane32_at d p k0 k1 k2 k3 :=
  match goal with
  | |- context [d + 4 * ?t] =>
      replace (d + 4 * t) with (d + k0) by lia;
      replace (d + k0 + 1) with (d + k1) by lia;
      replace (d + k0 + 2) with (d + k2) by lia;
      replace (d + k0 + 3) with (d + k3) by lia;
      replace (p + 4 * t) with (p + k0) by lia;
      replace (p + k0 + 1) with (p + k1) by lia;
      replace (p + k0 + 2) with (p + k2) by lia;
      replace (p + k0 + 3) with (p + k3) by lia
  end;
  rewrite !store_bytes_at_Z by (cbn [length]; lia);
  let n0 := eval vm_compute in (Z.to_nat k0) in
  let n1 := eval vm_compute in (Z.to_nat k1) in
  let n2 := eval vm_compute in (Z.to_nat k2) in
  let n3 := eval vm_compute in (Z.to_nat k3) in
  change (Z.to_nat k0) with n0; change (Z.to_nat k1) with n1;
  change (Z.to_nat k2) with n2; change (Z.to_nat k3) with n3;
  cbn [nth];
  apply lane32_value; try apply byte_at_range; assumption.

Lemma cmp_swap_32_step src p dest d cmp t :
  0 <= cmp < 2 ^ 32 -> 0 <= t < 4 ->
  load32
    (_mm_storeu_si128 dest d
       (_mm_or_si128
          (_mm_shuffle_epi8 (_mm_loadu_si128 src p)
             (_mm_set_epi8 0x0C 0x0D 0x0E 0x0F 0x08 0x09 0x0A 0x0B 0x04 0x05
                           0x06 0x07 0x00 0x01 0x02 0x03))
          (_mm_cmpeq_epi32
             (_mm_shuffle_epi8 (_mm_loadu_si128 src p)
                (_mm_set_epi8 0x0C 0x0D 0x0E 0x0F 0x08 0x09 0x0A 0x0B 0x04
                              0x05 0x06 0x07 0x00 0x01 0x02 0x03))
             (_mm_set1_epi32 cmp))))
    (d + 4 * t) =
  if xe.byte_swap32 (load32 src (p + 4 * t)) =? cmp then 0xFFFFFFFF
  else xe.byte_swap32 (load32 src (p + 4 * t)).
Proof.
  intros Hc Ht. rewrite byte_swap32_load32.
  rewrite loadu_bytes. unfold _mm_set1_epi32.
  pose proof (cmp_swap_32_lanes
    (byte_at src (p + 0)) (byte_at src (p + 1)) (byte_at src (p + 2))
    (byte_at src (p + 3)) (byte_at src (p + 4)) (byte_at src (p + 5))
    (byte_at src (p + 6)) (byte_at src (p + 7)) (byte_at src (p + 8))
    (byte_at src (p + 9)) (byte_at src (p + 10)) (byte_at src (p + 11))
    (byte_at src (p + 12)) (byte_at src (p + 13)) (byte_at src (p + 14))
    (byte_at src (p + 15)) (u8 cmp) (u8 (Z.shiftr cmp 8))
    (u8 (Z.shiftr cmp 16)) (u8 (Z.shiftr cmp 24))) as Hl.
  cbv zeta in Hl. rewrite Hl. clear Hl.
  unfold _mm_storeu_si128, load32 at 1.
  assert (t = 0 \/ t = 1 \/ t = 2 \/ t = 3) as Hcases by lia.
  destruct Hcases as [-> | [-> | [-> | ->]]].
  - lane32_at d p 0 1 2 3.
  - lane32_at d p 4 5 6 7.
  - lane32_at d p 8 9 10 11.
  - lane32_at d p 12 13 14 15.
Qed.

(** The vector loop stops at the last multiple of eight at or below [count]
    and has converted and substituted every element before it. *)
Lemma cmp_swap_16_vector_loop_spec src sp cmp count dp (fuel : nat) :
  0 <= cmp < 2 ^ 16 -> count + 8 < 2 ^ 64 ->
  forall i dest,
    0 <= i <= count -> count - i <= Z.of_nat fuel ->
    let res :=
      cmp_swap_16_vector_loop fuel src sp
        (_mm_set_epi8 0x0E 0x0F 0x0C 0x0D 0x0A 0x0B 0x08 0x09 0x06 0x07
                      0x04 0x05 0x02 0x03 0x00 0x01)
        (_mm_set1_epi16 cmp) count i dest dp in
    (exists n, 0 <= n /\ fst res = i + 8 * n) /\
    fst res <= count < fst res + 8 /\
    (forall j, i <= j < fst res ->
       load16 (snd res) (dp + 2 * j) =
       if xe.byte_swap16 (load16 src (sp + 2 * j)) =? cmp then 0xFFFF
       else xe.byte_swap16 (load16 src (sp + 2 * j))) /\
    (forall q, q < dp + 2 * i \/ dp + 2 * count <= q -> snd res q = dest q).
Proof.
  intros Hcmp Hcount.
  induction fuel as [|fuel IH]; intros i dest Hi Hfuel;
    cbn [cmp_swap_16_vector_loop].
  - cbn [fst snd]. split; [exists 0; lia|]. split; [lia|].
    split; [intros j Hj; lia | reflexivity].
  - rewrite (u64_small (i + 8)) by lia.
    destruct (Z.leb_spec (i + 8) count) as [Hle | Hgt].
    + match goal with
      | |- context [cmp_swap_16_vector_loop fuel _ _ _ _ _ _ ?d _] =>
          set (stored := d)
      end.
      destruct (IH (i + 8) stored ltac:(lia) ltac:(lia))
        as ((n & Hn & Hfst) & Hbound & Hval & Hframe).
      assert (Hstored : forall q, q < dp + 2 * i \/ dp + 2 * i + 16 <= q ->
                                  stored q = dest q).
      { intros q Hq. subst stored. unfold _mm_storeu_si128.
        apply store_bytes_other. rewrite loadu_bytes.
        change (Z.of_nat (length _)) with 16. lia. }
      cbv zeta. split; [exists (n + 1); lia|]. split; [lia|]. split.
      * intros j Hj. destruct (Z.lt_ge_cases j (i + 8)) as [Hlo | Hhi];
          [|apply Hval; lia].
        rewrite (load16_ext _ stored) by (apply Hframe; lia).
        subst stored.
        replace (dp + 2 * j) with (dp + 2 * i + 2 * (j - i)) by lia.
        replace (sp + 2 * j) with (sp + 2 * i + 2 * (j - i)) by lia.
        apply cmp_swap_16_step; lia.
      * intros q Hq. rewrite Hframe by lia. apply Hstored. lia.
    + cbn [fst snd]. split; [exists 0; lia|]. split; [lia|].
      split; [intros j Hj; lia | reflexivity].
Qed.

Lemma cmp_swap_32_vector_loop_spec src sp cmp count dp (fuel : nat) :
  0 <= cmp < 2 ^ 32 -> count + 4 < 2 ^ 64 ->
  forall i dest,
    0 <= i <= count -> count - i <= Z.of_nat fuel ->
    let res :=
      cmp_swap_32_vector_loop fuel src sp
        (_mm_set_epi8 0x0C 0x0D 0x0E 0x0F 0x08 0x09 0x0A 0x0B 0x04 0x05
                      0x06 0x07 0x00 0x01 0x02 0x03)
        (_mm_set1_epi32 cmp) count i dest dp in
    (exists n, 0 <= n /\ fst res = i + 4 * n) /\
    fst res <= count < fst res + 4 /\
    (forall j, i <= j < fst res ->
       load32 (snd res) (dp + 4 * j) =
       if xe.byte_swap32 (load32 src (sp + 4 * j)) =? cmp then 0xFFFFFFFF
       else xe.byte_swap32 (load32 src (sp + 4 * j))) /\
    (forall q, q < dp + 4 * i \/ dp + 4 * count <= q -> snd res q = dest q).
Proof.
  intros Hcmp Hcount.
  induction fuel as [|fuel IH]; intros i dest Hi Hfuel;
    cbn [cmp_swap_32_vector_loop].
  - cbn [fst snd]. split; [exists 0; lia|]. split; [lia|].
    split; [intros j Hj; lia | reflexivity].
  - rewrite (u64_small (i + 4)) by lia.
    destruct (Z.leb_spec (i + 4) count) as [Hle | Hgt].
    + match goal with
      | |- context [cmp_swap_32_vector_loop fuel _ _ _ _ _ _ ?d _] =>
          set (stored := d)
      end.
      destruct (IH (i + 4) stored ltac:(lia) ltac:(lia))
        as ((n & Hn & Hfst) & Hbound & Hval & Hframe).
      assert (Hstored : forall q, q < dp + 4 * i \/ dp + 4 * i + 16 <= q ->
                                  stored q = dest q).
      { intros q Hq. subst stored. unfold _mm_storeu_si128.
        apply store_bytes_other. rewrite loadu_bytes.
        change (Z.of_nat (length _)) with 16. lia. }
      cbv zeta. split; [exists (n + 1); lia|]. split; [lia|]. split.
      * intros j Hj. destruct (Z.lt_ge_cases j (i + 4)) as [Hlo | Hhi];
          [|apply Hval; lia].
        rewrite (load32_ext _ stored) by (apply Hframe; lia).
        subst stored.
        replace (dp + 4 * j) with (dp + 4 * i + 4 * (j - i)) by lia.
        replace (sp + 4 * j) with (sp + 4 * i + 4 * (j - i)) by lia.
        apply cmp_swap_32_step; lia.
      * intros q Hq. rewrite Hframe by lia. apply Hstored. lia.
    + cbn [fst snd]. split; [exists 0; lia|]. split; [lia|].
      split; [intros j Hj; lia | reflexivity].
Qed.

(** What the vector routines write: the elements taken by the vector loop
    are converted and substituted, the residual ones are only converted. *)
Lemma copy_cmp_swap_16_unaligned_spec dest dp src sp cmp count j :
  0 <= cmp < 2 ^ 16 -> 0 <= count -> count + 8 < 2 ^ 64 -> 0 <= j < count ->
  load16 (copy_cmp_swap_16_unaligned dest dp src sp cmp count) (dp + 2 * j) =
  if j <? 8 * (count / 8) then
    (if xe.byte_swap16 (load16 src (sp + 2 * j)) =? cmp then 0xFFFF
     else xe.byte_swap16 (load16 src (sp + 2 * j)))
  else xe.byte_swap16 (load16 src (sp + 2 * j)).
Proof.
  intros Hcmp Hc0 Hc Hj. unfold copy_cmp_swap_16_unaligned.
  pose proof (cmp_swap_16_vector_loop_spec src sp cmp count dp
                (Z.to_nat count) Hcmp Hc 0 dest ltac:(lia) ltac:(lia))
    as Hvec.
  cbv zeta in Hvec.
  destruct (cmp_swap_16_vector_loop _ _ _ _ _ _ _ _ _) as [i1 d1].
  cbn [fst snd] in Hvec.
  destruct Hvec as ((n & Hn & Hi1) & Hbound & Hval & _).
  assert (i1 = 8 * (count / 8)) as Hdiv
    by (Z.div_mod_to_equations; lia).
  destruct (swap_16_residual_loop_spec src sp count dp (Z.to_nat count)
              i1 d1 ltac:(lia) ltac:(lia) ltac:(lia)) as (Hres & Hframe).
  rewrite <- Hdiv.
  destruct (Z.ltb_spec j i1) as [Hlo | Hhi].
  - rewrite (load16_ext _ d1) by (apply Hframe; lia).
    apply Hval. lia.
  - apply Hres. lia.
Qed.

Lemma copy_cmp_swap_32_unaligned_spec dest dp src sp cmp count j :
  0 <= cmp < 2 ^ 32 -> 0 <= count -> count + 4 < 2 ^ 64 -> 0 <= j < count ->
  load32 (copy_cmp_swap_32_unaligned dest dp src sp cmp count) (dp + 4 * j) =
  if j <? 4 * (count / 4) then
    (if xe.byte_swap32 (load32 src (sp + 4 * j)) =? cmp then 0xFFFFFFFF
     else xe.byte_swap32 (load32 src (sp + 4 * j)))
  else xe.byte_swap32 (load32 src (sp + 4 * j)).
Proof.
  intros Hcmp Hc0 Hc Hj. unfold copy_cmp_swap_32_unaligned.
  pose proof (cmp_swap_32_vector_loop_spec src sp cmp count dp
                (Z.to_nat count) Hcmp Hc 0 dest ltac:(lia) ltac:(lia))
    as Hvec.
  cbv zeta in Hvec.
  destruct (cmp_swap_32_vector_loop _ _ _ _ _ _ _ _ _) as [i1 d1].
  cbn [fst snd] in Hvec.
  destruct Hvec as ((n & Hn & Hi1) & Hbound & Hval & _).
  assert (i1 = 4 * (count / 4)) as Hdiv
    by (Z.div_mod_to_equations; lia).
  destruct (swap_32_residual_loop_spec src sp count dp (Z.to_nat count)
              i1 d1 ltac:(lia) ltac:(lia) ltac:(lia)) as (Hres & Hframe).
  rewrite <- Hdiv.
  destruct (Z.ltb_spec j i1) as [Hlo | Hhi].
  - rewrite (load32_ext _ d1) by (apply Hframe; lia).
    apply Hval. lia.
  - apply Hres. lia.
Qed.

(** The scalar routines do what the substitution asks of every element. *)
Lemma copy_and_swap_16_unaligned_spec dest dp src sp cmp count j :
  0 <= count < 2 ^ 64 -> 0 <= j < count ->
  load16 (copy_and_swap_16_unaligned dest dp src sp cmp count) (dp + 2 * j) =
  if xe.byte_swap16 (load16 src (sp + 2 * j)) =? cmp then 0xFFFF
  else xe.byte_swap16 (load16 src (sp + 2 * j)).
Proof.
  intros Hc Hj. unfold copy_and_swap_16_unaligned.
  apply copy_and_swap_16_loop_spec; lia.
Qed.

Lemma copy_and_swap_32_unaligned_spec dest dp src sp cmp count j :
  0 <= count < 2 ^ 64 -> 0 <= j < count ->
  load32 (copy_and_swap_32_unaligned dest dp src sp cmp count) (dp + 4 * j) =
  if xe.byte_swap32 (load32 src (sp + 4 * j)) =? cmp then 0xFFFFFFFF
  else xe.byte_swap32 (load32 src (sp + 4 * j)).
Proof.
  intros Hc Hj. unfold copy_and_swap_32_unaligned.
  apply copy_and_swap_32_loop_spec; lia.
Qed.

(** Where the two builds of the substituting copy agree: on every element
    taken by the vector loop, and on a residual element unless it is the
    restart index (and the restart index is not already all ones). *)
Lemma copy_cmp_swap_16_agrees_with_scalar dest dp src sp cmp count j :
  0 <= cmp < 2 ^ 16 -> 0 <= count -> count + 8 < 2 ^ 64 -> 0 <= j < count ->
  load16 (copy_cmp_swap_16_unaligned dest dp src sp cmp count) (dp + 2 * j) =
  load16 (copy_and_swap_16_unaligned dest dp src sp cmp count) (dp + 2 * j)
  <->
  (j < 8 * (count / 8) \/ xe.byte_swap16 (load16 src (sp + 2 * j)) <> cmp \/
   cmp = 0xFFFF).
Proof.
  intros Hcmp Hc0 Hc Hj.
  rewrite copy_cmp_swap_16_unaligned_spec by assumption.
  rewrite copy_and_swap_16_unaligned_spec by lia.
  destruct (Z.ltb_spec j (8 * (count / 8))) as [Hlo | Hhi];
    [split; auto|].
  destruct (Z.eqb_spec (xe.byte_swap16 (load16 src (sp + 2 * j))) cmp)
    as [He | Hne].
  - rewrite He. split; [intros ->; auto | intros [? | [? | ->]]; lia].
  - split; auto.
Qed.

Lemma copy_cmp_swap_32_agrees_with_scalar dest dp src sp cmp count j :
  0 <= cmp < 2 ^ 32 -> 0 <= count -> count + 4 < 2 ^ 64 -> 0 <= j < count ->
  load32 (copy_cmp_swap_32_unaligned dest dp src sp cmp count) (dp + 4 * j) =
  load32 (copy_and_swap_32_unaligned dest dp src sp cmp count) (dp + 4 * j)
  <->
  (j < 4 * (count / 4) \/ xe.byte_swap32 (load32 src (sp + 4 * j)) <> cmp \/
   cmp = 0xFFFFFFFF).
Proof.
  intros Hcmp Hc0 Hc Hj.
  rewrite copy_cmp_swap_32_unaligned_spec by assumption.
  rewrite copy_and_swap_32_unaligned_spec by lia.
  destruct (Z.ltb_spec j (4 * (count / 4))) as [Hlo | Hhi];
    [split; auto|].
  destruct (Z.eqb_spec (xe.byte_swap32 (load32 src (sp + 4 * j))) cmp)
    as [He | Hne].
  - rewrite He. split; [intros ->; auto | intros [? | [? | ->]]; lia].
  - split; auto.
Qed.

End CopyRoutines.

(** ** The ring allocator of the worked runs *)

Section RingAllocatorFacts.

Import CircularBuffer.

Lemma round_up_ge (l a : Z) : 0 < a -> l <= RingAllocator.round_up l a.
Proof.
  intros Ha. unfold RingAllocator.round_up.
  Z.div_mod_to_equations. nia.
Qed.

Lemma Forall_retire (P : Allocation -> Prop) sig allocs :
  Forall P allocs -> Forall P (RingAllocator.retire sig allocs).
Proof.
  induction 1 as [|a rest Ha Hrest IH]; cbn [RingAllocator.retire];
    [constructor|].
  destruct (existsb (Z.eqb (fence a)) sig);
    [exact IH | constructor; assumption].
Qed.

Lemma grant_inside (r : RingAllocator.t) off len f :
  RingAllocator.inside_arena r -> 0 <= off -> 0 <= len ->
  off + len <= RingAllocator.capacity r ->
  RingAllocator.inside_arena (snd (RingAllocator.grant r off len f)).
Proof.
  intros (Ha & Hc & Hcap & Hout) Hoff Hlen Hfit.
  unfold RingAllocator.inside_arena, RingAllocator.grant. cbn.
  repeat split; try lia.
  apply Forall_app. split; [exact Hout|].
  constructor; [cbn; lia | constructor].
Qed.

Lemma RingAllocator_Acquire_ok l f (r : RingAllocator.t) :
  RingAllocator.inside_arena r -> 0 <= l ->
  RingAllocator.inside_arena (snd (RingAllocator.Acquire l f r)).
Proof.
  intros Hin Hl. pose proof Hin as (Ha & Hc & Hcap & Hout).
  pose proof (round_up_ge l (RingAllocator.alignment r) Ha) as Hup.
  unfold RingAllocator.Acquire.
  destruct (RingAllocator.outstanding r) as [|oldest rest] eqn:Hq.
  - destruct (Z.leb_spec (RingAllocator.cursor r
                          + RingAllocator.round_up l (RingAllocator.alignment r))
                         (RingAllocator.capacity r));
      [apply grant_inside; auto; lia|].
    destruct (Z.leb_spec (RingAllocator.round_up l (RingAllocator.alignment r))
                         (RingAllocator.capacity r));
      [apply grant_inside; auto; lia | exact Hin].
  - apply Forall_inv in Hout.
    destruct (Z.ltb_spec (offset oldest) (RingAllocator.cursor r)).
    + destruct (Z.leb_spec (RingAllocator.cursor r
                            + RingAllocator.round_up l
                                (RingAllocator.alignment r))
                           (RingAllocator.capacity r));
        [apply grant_inside; auto; lia|].
      destruct (Z.leb_spec (RingAllocator.round_up l
                              (RingAllocator.alignment r))
                           (offset oldest));
        [apply grant_inside; auto; lia | exact Hin].
    + destruct (Z.leb_spec (RingAllocator.cursor r
                            + RingAllocator.round_up l
                                (RingAllocator.alignment r))
                           (offset oldest));
        [apply grant_inside; auto; lia | exact Hin].
Qed.

Lemma RingAllocator_Acquire_range l f (r : RingAllocator.t) a :
  RingAllocator.inside_arena r -> 0 <= l ->
  fst (RingAllocator.Acquire l f r) = Some a ->
  0 <= offset a /\ offset a + l < VK_WHOLE_SIZE.
Proof.
  intros (Ha & Hc & Hcap & Hout) Hl.
  pose proof (round_up_ge l (RingAllocator.alignment r) Ha) as Hup.
  unfold RingAllocator.Acquire, RingAllocator.grant.
  destruct (RingAllocator.outstanding r) as [|oldest rest] eqn:Hq.
  - destruct (Z.leb_spec (RingAllocator.cursor r
                          + RingAllocator.round_up l (RingAllocator.alignment r))
                         (RingAllocator.capacity r));
      [intros [= <-]; cbn; lia|].
    destruct (Z.leb_spec (RingAllocator.round_up l (RingAllocator.alignment r))
                         (RingAllocator.capacity r));
      [intros [= <-]; cbn; lia | discriminate].
  - apply Forall_inv in Hout.
    destruct (Z.ltb_spec (offset oldest) (RingAllocator.cursor r)).
    + destruct (Z.leb_spec (RingAllocator.cursor r
                            + RingAllocator.round_up l
                                (RingAllocator.alignment r))
                           (RingAllocator.capacity r));
        [intros [= <-]; cbn; lia|].
      destruct (Z.leb_spec (RingAllocator.round_up l
                              (RingAllocator.alignment r))
                           (offset oldest));
        [intros [= <-]; cbn; lia | discriminate].
    + destruct (Z.leb_spec (RingAllocator.cursor r
                            + RingAllocator.round_up l
                                (RingAllocator.alignment r))
                           (offset oldest));
        [intros [= <-]; cbn; lia | discriminate].
Qed.

Lemma RingAllocator_Scavenge_ok (r : RingAllocator.t) :
  RingAllocator.inside_arena r ->
  RingAllocator.inside_arena (RingAllocator.Scavenge r).
Proof.
  intros (Ha & Hc & Hcap & Hout).
  unfold RingAllocator.inside_arena, RingAllocator.Scavenge. cbn.
  repeat split; try lia. apply Forall_retire. exact Hout.
Qed.

End RingAllocatorFacts.

(** The concrete ring keeps its cursor and allocations inside the arena, so
    it grants ranges below [VK_WHOLE_SIZE]. *)
#[global] Instance RingAllocator_Bounded
  : CircularBuffer.Bounded RingAllocator.t := {|
  CircularBuffer.ring_ok := RingAllocator.inside_arena;
  CircularBuffer.Acquire_ok := RingAllocator_Acquire_ok;
  CircularBuffer.Acquire_range := RingAllocator_Acquire_range;
  CircularBuffer.Scavenge_ok := RingAllocator_Scavenge_ok;
  CircularBuffer.Flush_ok := fun _ _ _ Hr => Hr
|}.

Lemma Probed_Acquire_ok (R : Type) `{CircularBuffer.Bounded R} l f
    (p : CircularBuffer.Probed R) :
  CircularBuffer.ring_ok (CircularBuffer.inner p) -> 0 <= l ->
  CircularBuffer.ring_ok
    (CircularBuffer.inner (snd (CircularBuffer.Acquire l f p))).
Proof.
  intros Hok Hl. pose proof (CircularBuffer.Acquire_ok l f _ Hok Hl) as Hk.
  cbn. destruct (CircularBuffer.Acquire l f (CircularBuffer.inner p));
    exact Hk.
Qed.

Lemma Probed_Acquire_range (R : Type) `{CircularBuffer.Bounded R} l f
    (p : CircularBuffer.Probed R) a :
  CircularBuffer.ring_ok (CircularBuffer.inner p) -> 0 <= l ->
  fst (CircularBuffer.Acquire l f p) = Some a ->
  0 <= CircularBuffer.offset a /\
  CircularBuffer.offset a + l < VK_WHOLE_SIZE.
Proof.
  intros Hok Hl Hacq.
  apply (CircularBuffer.Acquire_range l f (CircularBuffer.inner p) a Hok Hl).
  cbn in Hacq.
  destruct (CircularBuffer.Acquire l f (CircularBuffer.inner p));
    exact Hacq.
Qed.

(** A call-recording ring is as well behaved as the ring it wraps. *)
#[global] Instance Probed_Bounded (R : Type) `{CircularBuffer.Bounded R}
  : CircularBuffer.Bounded (CircularBuffer.Probed R) := {|
  CircularBuffer.ring_ok :=
    fun p => CircularBuffer.ring_ok (CircularBuffer.inner p);
  CircularBuffer.Acquire_ok := Probed_Acquire_ok R;
  CircularBuffer.Acquire_range := Probed_Acquire_range R;
  CircularBuffer.Scavenge_ok :=
    fun p Hr => CircularBuffer.Scavenge_ok (CircularBuffer.inner p) Hr;
  CircularBuffer.Flush_ok :=
    fun o l p Hr => CircularBuffer.Flush_ok o l (CircularBuffer.inner p) Hr
|}.

(** Starting from a new cache over the concrete ring, every sequence of
    calls leaves the guest-range cache ordered by key and by end address. *)
Lemma fresh_cache_stays_ordered (capacity : Z) (cs : list BufferCache.call) :
  0 <= capacity < VK_WHOLE_SIZE ->
  Forall BufferCache.call_in_range cs ->
  cache_inv
    (BufferCache.transient_cache_
       (BufferCache.after_calls (Example.fresh capacity) cs)).
Proof.
  intros Hcap Hcs.
  apply (after_calls_cache_inv cs (Example.fresh capacity)).
  - exact Hcs.
  - cbn. unfold RingAllocator.inside_arena. cbn.
    repeat split; try lia. constructor.
  - apply cache_inv_nil.
  - constructor.
Qed.

(** The scenario of the specification: capacity 4096, alignment 256;
    [Acquire(300)] is granted offset 0; [Acquire(4000)] with nothing retired
    is exhausted; once the first fence has signaled and [Scavenge] has run,
    [Acquire(4000)] succeeds. *)
Lemma RingAllocator_scenario :
  let r0 := RingAllocator.create 7 4096 256 in
  let '(a1, r1) := RingAllocator.Acquire 300 1 r0 in
  let '(a2, r2) := RingAllocator.Acquire 4000 2 r1 in
  let r3 := RingAllocator.Scavenge (RingAllocator.signal 1 r2) in
  let '(a3, _) := RingAllocator.Acquire 4000 2 r3 in
  option_map CircularBuffer.offset a1 = Some 0 /\ a2 = None /\
  option_map CircularBuffer.offset a3 = Some 0.
Proof. vm_compute. repeat split. Qed.

(** ** Worked runs *)

(** C1.  Nine 16-bit indices [0x1234, 0x0001, 0x1234, ...] copied with
    restart index [0x1234]: the eight handled by the vector loop are
    substituted ([dest[0] = 0xFFFF]), the ninth, handled by the residual
    loop, is only byte-swapped ([dest[8] = 0x1234]) although
    [byte_swap(src[8])] equals the restart index.  The same happens to the
    fifth of five 32-bit indices. *)
Theorem copy_cmp_swap_residual_keeps_restart_index :
  let src := physical Example.guest in
  let dest16 := copy_cmp_swap_16_unaligned (fun _ => 0) 0 src 0x2000 0x1234 9 in
  let dest32 :=
    copy_cmp_swap_32_unaligned (fun _ => 0) 0 src 0x2000 0x12340001 5 in
  xe.byte_swap16 (load16 src (0x2000 + 2 * 0)) = 0x1234 /\
  load16 dest16 (2 * 0) = 0xFFFF /\
  xe.byte_swap16 (load16 src (0x2000 + 2 * 8)) = 0x1234 /\
  load16 dest16 (2 * 8) = 0x1234 /\
  xe.byte_swap32 (load32 src (0x2000 + 4 * 0)) = 0x12340001 /\
  load32 dest32 (4 * 0) = 0xFFFFFFFF /\
  xe.byte_swap32 (load32 src (0x2000 + 4 * 4)) = 0x12340001 /\
  load32 dest32 (4 * 4) = 0x12340001.
Proof. vm_compute. repeat split. Qed.

(** C5.  On the same inputs the vector routines and the scalar routines
    leave different bytes in the destination: the scalar loop substitutes
    the last element and the vector routine does not. *)
Theorem vector_and_scalar_copies_differ_on_residual :
  let src := physical Example.guest in
  load16 (copy_cmp_swap_16_unaligned (fun _ => 0) 0 src 0x2000 0x1234 9)
         (2 * 8) = 0x1234 /\
  load16 (copy_and_swap_16_unaligned (fun _ => 0) 0 src 0x2000 0x1234 9)
         (2 * 8) = 0xFFFF /\
  load32 (copy_cmp_swap_32_unaligned (fun _ => 0) 0 src 0x2000 0x12340001 5)
         (4 * 4) = 0x12340001 /\
  load32 (copy_and_swap_32_unaligned (fun _ => 0) 0 src 0x2000 0x12340001 5)
         (4 * 4) = 0xFFFFFFFF.
Proof. vm_compute. repeat split. Qed.

(** C2.  With one vertex range cached at offset 0 of an 8192-byte arena and
    its fence signaled, [AllocateTransientData 8000] fails once,
    scavenges the ring and is granted offset 0 again, and the cache still
    holds the entry for offset 0.  The index upload that makes this
    allocation overwrites the bytes there, and the next vertex upload of the
    cached range is answered from the cache with offset 0.
    [BufferCache::Scavenge] on the same state empties the cache. *)
Theorem AllocateTransientData_keeps_cache_across_scavenge :
  let s := Example.after_vertex_upload in
  let r := BufferCache.AllocateTransientData 8000 2 s in
  BufferCache.transient_cache_ s = [(0x1000, (300, 0))] /\
  log (snd r) =
    log s ++ [CircularBuffer.CallAcquire 8000 2; CircularBuffer.CallScavenge;
              CircularBuffer.CallAcquire 8000 2] /\
  fst r = 0 /\
  BufferCache.transient_cache_ (snd r) = [(0x1000, (300, 0))] /\
  fst Example.index_upload = (7, 0) /\
  BufferCache.host_base s 0 = 17 /\
  BufferCache.host_base (snd Example.index_upload) 0 = 255 /\
  fst (BufferCache.UploadVertexBuffer 100 0x1000 300 k8in32 3
         (snd Example.index_upload)) = Some (7, 0) /\
  BufferCache.transient_cache_ (snd (BufferCache.Scavenge s)) = [].
Proof. vm_compute. repeat split. Qed.



(** C4, as stated, fails: the request [0xFFFFFFF0, 0xFFFFFFF0 + 0x20) is
    not contained in the interval [0x10, 0x20) of the only entry, yet the
    lookup reports a hit, because [address + length] wraps to [0x10] in
    32-bit arithmetic.  And a request contained in an entry whose buffer
    offset is 8 below [VK_WHOLE_SIZE] gets [bufferOffset + 8], which is the
    value that stands for a miss. *)
Lemma FindCachedTransientData_hit_across_wrap :
  (FindCachedTransientData 0xFFFFFFF0 0x20 Example.low_entry
   <> VK_WHOLE_SIZE /\
   nearest_below Example.low_entry 0xFFFFFFF0 (0x10, (0x10, 4096)) /\
   ~ (exists e, nearest_below Example.low_entry 0xFFFFFFF0 e /\
                contains e 0xFFFFFFF0 0x20)) /\
  (FindCachedTransientData 8 8 Example.high_offset = VK_WHOLE_SIZE /\
   nearest_below Example.high_offset 8 (0, (16, VK_WHOLE_SIZE - 8)) /\
   contains (0, (16, VK_WHOLE_SIZE - 8)) 8 8).
Proof.
  split.
  - split; [vm_compute; discriminate|]. split.
    + unfold nearest_below, Example.low_entry. simpl. repeat split.
      * left. reflexivity.
      * lia.
      * intros e' [<- | []] _. simpl. lia.
    + intros (e & (Hin & _) & Hc). destruct Hin as [<- | []].
      unfold contains, entry_end in Hc. simpl in Hc. lia.
  - split; [vm_compute; reflexivity|]. split.
    + unfold nearest_below, Example.high_offset. simpl. repeat split.
      * left. reflexivity.
      * lia.
      * intros e' [<- | []] _. simpl. lia.
    + unfold contains, entry_end. simpl. lia.
Qed.

Lemma FindCachedTransientData_nearest_containing_witness :
  keys_sorted Example.ordered /\ guest_ranges Example.ordered /\
  buffer_ranges Example.ordered /\ range32 22 4 /\
  (FindCachedTransientData 22 4 Example.ordered <> VK_WHOLE_SIZE <->
   exists e, nearest_below Example.ordered 22 e /\ contains e 22 4).
Proof.
  assert (H1 : keys_sorted Example.ordered)
    by (unfold keys_sorted, Example.ordered; repeat constructor; simpl; lia).
  assert (H2 : guest_ranges Example.ordered)
    by (unfold guest_ranges, range32, Example.ordered;
        repeat constructor; simpl; lia).
  assert (H3 : buffer_ranges Example.ordered)
    by (unfold buffer_ranges, VK_WHOLE_SIZE, Example.ordered;
        repeat constructor; simpl; lia).
  assert (H4 : range32 22 4) by (unfold range32; lia).
  repeat (split; [assumption|]).
  exact (proj1 (FindCachedTransientData_nearest_containing
                  Example.ordered 22 4 H1 H2 H3 H4)).
Defined.

Lemma AllocateTransientData_scavenges_once_on_failure_witness :
  fst (BufferCache.TryAllocateTransientData 8000 2 Example.after_vertex_upload)
    = VK_WHOLE_SIZE /\
  fst (BufferCache.AllocateTransientData 8000 2 Example.after_vertex_upload)
    = 0 /\
  fst (BufferCache.TryAllocateTransientData 300 1 (Example.fresh 8192))
    <> VK_WHOLE_SIZE /\
  BufferCache.AllocateTransientData 300 1 (Example.fresh 8192) =
  BufferCache.TryAllocateTransientData 300 1 (Example.fresh 8192).
Proof.
  assert (H1 : fst (BufferCache.TryAllocateTransientData 8000 2
                      Example.after_vertex_upload) = VK_WHOLE_SIZE)
    by (vm_compute; reflexivity).
  assert (H2 : fst (BufferCache.TryAllocateTransientData 300 1
                      (Example.fresh 8192)) <> VK_WHOLE_SIZE)
    by (vm_compute; discriminate).
  split; [exact H1|]. split.
  - rewrite (proj1 (proj1 (proj2
      (AllocateTransientData_scavenges_once_on_failure RingAllocator.t _
         Example.after_vertex_upload 8000 2)) H1)).
    vm_compute. reflexivity.
  - split; [exact H2|].
    exact (proj1 (proj1
      (AllocateTransientData_scavenges_once_on_failure RingAllocator.t _
         (Example.fresh 8192) 300 1) H2)).
Defined.

Lemma UploadConstantRegisters_layout_witness :
  fst (fst (BufferCache.UploadConstantRegisters 100 2
              (Example.fresh 65536))) <> VK_WHOLE_SIZE /\
  forall k, 0 <= k < 512 * 4 * 4 ->
    BufferCache.host_base
      (snd (BufferCache.UploadConstantRegisters 100 2
              (Example.fresh 65536)))
      (fst (fst (BufferCache.UploadConstantRegisters 100 2
                   (Example.fresh 65536))) + k)
    = Example.register_bytes (4 * 0x4000 + k).
Proof.
  assert (H1 : fst (fst (BufferCache.UploadConstantRegisters 100 2
                           (Example.fresh 65536))) <> VK_WHOLE_SIZE)
    by (vm_compute; discriminate).
  split; [exact H1|].
  exact (proj1 (proj2 (proj2 (proj2
    (UploadConstantRegisters_layout (Example.fresh 65536) 100 2 H1))))).
Defined.



(** * Further properties *)

(** ** The copy routines on every input *)

Section CopyOnEveryInput.

Implicit Types (src dest : mem).

(** The vector routines write nothing outside the [count] elements of the
    destination. *)
Lemma copy_cmp_swap_16_unaligned_frame dest dp src sp cmp count q :
  0 <= cmp < 2 ^ 16 -> 0 <= count -> count + 8 < 2 ^ 64 ->
  q < dp \/ dp + 2 * count <= q ->
  copy_cmp_swap_16_unaligned dest dp src sp cmp count q = dest q.
Proof.
  intros Hcmp Hc0 Hc Hq. unfold copy_cmp_swap_16_unaligned.
  pose proof (cmp_swap_16_vector_loop_spec src sp cmp count dp
                (Z.to_nat count) Hcmp Hc 0 dest ltac:(lia) ltac:(lia))
    as Hvec.
  cbv zeta in Hvec.
  destruct (cmp_swap_16_vector_loop _ _ _ _ _ _ _ _ _) as [i1 d1].
  cbn [fst snd] in Hvec.
  destruct Hvec as ((n & Hn & Hi1) & Hbound & _ & Hframe1).
  destruct (swap_16_residual_loop_spec src sp count dp (Z.to_nat count)
              i1 d1 ltac:(lia) ltac:(lia) ltac:(lia)) as (_ & Hframe).
  rewrite Hframe by lia. apply Hframe1. lia.
Qed.

Lemma copy_cmp_swap_32_unaligned_frame dest dp src sp cmp count q :
  0 <= cmp < 2 ^ 32 -> 0 <= count -> count + 4 < 2 ^ 64 ->
  q < dp \/ dp + 4 * count <= q ->
  copy_cmp_swap_32_unaligned dest dp src sp cmp count q = dest q.
Proof.
  intros Hcmp Hc0 Hc Hq. unfold copy_cmp_swap_32_unaligned.
  pose proof (cmp_swap_32_vector_loop_spec src sp cmp count dp
                (Z.to_nat count) Hcmp Hc 0 dest ltac:(lia) ltac:(lia))
    as Hvec.
  cbv zeta in Hvec.
  destruct (cmp_swap_32_vector_loop _ _ _ _ _ _ _ _ _) as [i1 d1].
  cbn [fst snd] in Hvec.
  destruct Hvec as ((n & Hn & Hi1) & Hbound & _ & Hframe1).
  destruct (swap_32_residual_loop_spec src sp count dp (Z.to_nat count)
              i1 d1 ltac:(lia) ltac:(lia) ltac:(lia)) as (_ & Hframe).
  rewrite Hframe by lia. apply Hframe1. lia.
Qed.

Lemma copy_and_swap_16_unaligned_frame dest dp src sp cmp count q :
  0 <= count < 2 ^ 64 -> q < dp \/ dp + 2 * count <= q ->
  copy_and_swap_16_unaligned dest dp src sp cmp count q = dest q.
Proof.
  intros Hc Hq. unfold copy_and_swap_16_unaligned.
  apply copy_and_swap_16_loop_spec; lia.
Qed.

Lemma copy_and_swap_32_unaligned_frame dest dp src sp cmp count q :
  0 <= count < 2 ^ 64 -> q < dp \/ dp + 4 * count <= q ->
  copy_and_swap_32_unaligned dest dp src sp cmp count q = dest q.
Proof.
  intros Hc Hq. unfold copy_and_swap_32_unaligned.
  apply copy_and_swap_32_loop_spec; lia.
Qed.

(** Two memories that hold the same 16-bit (32-bit) element at [p] hold the
    same bytes there. *)
Lemma load16_bytes (m m' : mem) p :
  load16 m p = load16 m' p ->
  byte_at m p = byte_at m' p /\ byte_at m (p + 1) = byte_at m' (p + 1).
Proof.
  unfold load16. change (2 ^ 8) with 256.
  pose proof (byte_at_range m p). pose proof (byte_at_range m (p + 1)).
  pose proof (byte_at_range m' p). pose proof (byte_at_range m' (p + 1)).
  lia.
Qed.

Lemma load32_bytes (m m' : mem) p :
  load32 m p = load32 m' p ->
  byte_at m p = byte_at m' p /\ byte_at m (p + 1) = byte_at m' (p + 1) /\
  byte_at m (p + 2) = byte_at m' (p + 2) /\
  byte_at m (p + 3) = byte_at m' (p + 3).
Proof.
  unfold load32.
  change (2 ^ 8) with 256. change (2 ^ 16) with 65536.
  change (2 ^ 24) with 16777216.
  pose proof (byte_at_range m p). pose proof (byte_at_range m (p + 1)).
  pose proof (byte_at_range m (p + 2)). pose proof (byte_at_range m (p + 3)).
  pose proof (byte_at_range m' p). pose proof (byte_at_range m' (p + 1)).
  pose proof (byte_at_range m' (p + 2)). pose proof (byte_at_range m' (p + 3)).
  lia.
Qed.

(** X1.  [copy_cmp_swap_16_unaligned] on any input whose loop counter does
    not overflow: every element below the last multiple of eight is
    byte-swapped and replaced by [0xFFFF] when it equals [cmp_value]; the
    [count mod 8] elements after it are byte-swapped and never replaced; no
    byte outside the [count] destination elements is written. *)
Theorem copy_cmp_swap_16_unaligned_elements :
  forall (dest : mem) (dp : Z) (src : mem) (sp cmp count : Z),
    0 <= cmp < 2 ^ 16 -> 0 <= count -> count + 8 < 2 ^ 64 ->
    let out := copy_cmp_swap_16_unaligned dest dp src sp cmp count in
    (forall j, 0 <= j < 8 * (count / 8) ->
       load16 out (dp + 2 * j) =
       if xe.byte_swap16 (load16 src (sp + 2 * j)) =? cmp then 0xFFFF
       else xe.byte_swap16 (load16 src (sp + 2 * j))) /\
    (forall j, 8 * (count / 8) <= j < count ->
       load16 out (dp + 2 * j) = xe.byte_swap16 (load16 src (sp + 2 * j))) /\
    (forall q, q < dp \/ dp + 2 * count <= q -> out q = dest q).
Proof.
  intros dest dp src sp cmp count Hcmp Hc0 Hc out. subst out.
  split; [|split].
  - intros j Hj.
    rewrite copy_cmp_swap_16_unaligned_spec
      by (try assumption; Z.div_mod_to_equations; lia).
    destruct (Z.ltb_spec j (8 * (count / 8))); [reflexivity | lia].
  - intros j Hj.
    rewrite copy_cmp_swap_16_unaligned_spec
      by (try assumption; Z.div_mod_to_equations; lia).
    destruct (Z.ltb_spec j (8 * (count / 8))); [lia | reflexivity].
  - intros q Hq. apply copy_cmp_swap_16_unaligned_frame; assumption.
Qed.

(** X2.  [copy_cmp_swap_32_unaligned] on any input whose loop counter does
    not overflow: every element below the last multiple of four is
    byte-swapped and replaced by [0xFFFFFFFF] when it equals [cmp_value];
    the [count mod 4] elements after it are byte-swapped and never
    replaced; no byte outside the [count] destination elements is
    written. *)
Theorem copy_cmp_swap_32_unaligned_elements :
  forall (dest : mem) (dp : Z) (src : mem) (sp cmp count : Z),
    0 <= cmp < 2 ^ 32 -> 0 <= count -> count + 4 < 2 ^ 64 ->
    let out := copy_cmp_swap_32_unaligned dest dp src sp cmp count in
    (forall j, 0 <= j < 4 * (count / 4) ->
       load32 out (dp + 4 * j) =
       if xe.byte_swap32 (load32 src (sp + 4 * j)) =? cmp then 0xFFFFFFFF
       else xe.byte_swap32 (load32 src (sp + 4 * j))) /\
    (forall j, 4 * (count / 4) <= j < count ->
       load32 out (dp + 4 * j) = xe.byte_swap32 (load32 src (sp + 4 * j))) /\
    (forall q, q < dp \/ dp + 4 * count <= q -> out q = dest q).
Proof.
  intros dest dp src sp cmp count Hcmp Hc0 Hc out. subst out.
  split; [|split].
  - intros j Hj.
    rewrite copy_cmp_swap_32_unaligned_spec
      by (try assumption; Z.div_mod_to_equations; lia).
    destruct (Z.ltb_spec j (4 * (count / 4))); [reflexivity | lia].
  - intros j Hj.
    rewrite copy_cmp_swap_32_unaligned_spec
      by (try assumption; Z.div_mod_to_equations; lia).
    destruct (Z.ltb_spec j (4 * (count / 4))); [lia | reflexivity].
  - intros q Hq. apply copy_cmp_swap_32_unaligned_frame; assumption.
Qed.

(** X3.  The scalar routines built when [XE_ARCH_AMD64] is not defined
    byte-swap every one of the [count] elements and replace it by all ones
    when it equals [cmp_value]; so, unless [cmp_value] is itself all ones,
    no element of the destination equals [cmp_value]; and no byte outside
    the [count] destination elements is written. *)
Theorem copy_and_swap_unaligned_substitutes_every_element :
  forall (dest : mem) (dp : Z) (src : mem) (sp cmp count : Z),
    0 <= count < 2 ^ 64 ->
    let out16 := copy_and_swap_16_unaligned dest dp src sp cmp count in
    let out32 := copy_and_swap_32_unaligned dest dp src sp cmp count in
    (forall j, 0 <= j < count ->
       load16 out16 (dp + 2 * j) =
       if xe.byte_swap16 (load16 src (sp + 2 * j)) =? cmp then 0xFFFF
       else xe.byte_swap16 (load16 src (sp + 2 * j))) /\
    (forall j, 0 <= j < count -> cmp <> 0xFFFF ->
       load16 out16 (dp + 2 * j) <> cmp) /\
    (forall q, q < dp \/ dp + 2 * count <= q -> out16 q = dest q) /\
    (forall j, 0 <= j < count ->
       load32 out32 (dp + 4 * j) =
       if xe.byte_swap32 (load32 src (sp + 4 * j)) =? cmp then 0xFFFFFFFF
       else xe.byte_swap32 (load32 src (sp + 4 * j))) /\
    (forall j, 0 <= j < count -> cmp <> 0xFFFFFFFF ->
       load32 out32 (dp + 4 * j) <> cmp) /\
    (forall q, q < dp \/ dp + 4 * count <= q -> out32 q = dest q).
Proof.
  intros dest dp src sp cmp count Hc out16 out32. subst out16 out32.
  repeat split.
  - intros j Hj. apply copy_and_swap_16_unaligned_spec; assumption.
  - intros j Hj Hcmp.
    rewrite copy_and_swap_16_unaligned_spec by assumption.
    destruct (Z.eqb_spec (xe.byte_swap16 (load16 src (sp + 2 * j))) cmp);
      [intros <-; apply Hcmp; reflexivity | assumption].
  - intros q Hq. apply copy_and_swap_16_unaligned_frame; assumption.
  - intros j Hj. apply copy_and_swap_32_unaligned_spec; assumption.
  - intros j Hj Hcmp.
    rewrite copy_and_swap_32_unaligned_spec by assumption.
    destruct (Z.eqb_spec (xe.byte_swap32 (load32 src (sp + 4 * j))) cmp);
      [intros <-; apply Hcmp; reflexivity | assumption].
  - intros q Hq. apply copy_and_swap_32_unaligned_frame; assumption.
Qed.

(** X4.  When [count] is a multiple of the lane count (eight 16-bit or four
    32-bit elements) the vector routine and the scalar routine leave the
    same bytes everywhere in the destination. *)
Theorem copy_cmp_swap_equals_scalar_on_whole_vectors :
  forall (dest : mem) (dp : Z) (src : mem) (sp cmp count : Z),
    0 <= count -> count + 8 < 2 ^ 64 ->
    (0 <= cmp < 2 ^ 16 -> count mod 8 = 0 ->
     forall q,
       byte_at (copy_cmp_swap_16_unaligned dest dp src sp cmp count) q =
       byte_at (copy_and_swap_16_unaligned dest dp src sp cmp count) q) /\
    (0 <= cmp < 2 ^ 32 -> count mod 4 = 0 ->
     forall q,
       byte_at (copy_cmp_swap_32_unaligned dest dp src sp cmp count) q =
       byte_at (copy_and_swap_32_unaligned dest dp src sp cmp count) q).
Proof.
  intros dest dp src sp cmp count Hc0 Hc. split.
  - intros Hcmp Hmod q.
    destruct (Z.lt_ge_cases q dp) as [Hlo | Hge];
      [|destruct (Z.lt_ge_cases q (dp + 2 * count)) as [Hin | Hhi]].
    + unfold byte_at.
      rewrite copy_cmp_swap_16_unaligned_frame,
        copy_and_swap_16_unaligned_frame by (try assumption; lia).
      reflexivity.
    + assert (exists j, 0 <= j < count /\
                        (q = dp + 2 * j \/ q = dp + 2 * j + 1))
        as (j & Hj & Hq)
        by (exists ((q - dp) / 2); Z.div_mod_to_equations; lia).
      assert (Hall : j < 8 * (count / 8))
        by (Z.div_mod_to_equations; lia).
      pose proof (proj2 (copy_cmp_swap_16_agrees_with_scalar dest dp src sp
                           cmp count j Hcmp Hc0 Hc Hj) (or_introl Hall))
        as Heq.
      apply load16_bytes in Heq. destruct Heq as [H0 H1].
      destruct Hq as [-> | ->]; assumption.
    + unfold byte_at.
      rewrite copy_cmp_swap_16_unaligned_frame,
        copy_and_swap_16_unaligned_frame by (try assumption; lia).
      reflexivity.
  - intros Hcmp Hmod q.
    destruct (Z.lt_ge_cases q dp) as [Hlo | Hge];
      [|destruct (Z.lt_ge_cases q (dp + 4 * count)) as [Hin | Hhi]].
    + unfold byte_at.
      rewrite copy_cmp_swap_32_unaligned_frame,
        copy_and_swap_32_unaligned_frame by (try assumption; lia).
      reflexivity.
    + assert (exists j, 0 <= j < count /\
                        (q = dp + 4 * j \/ q = dp + 4 * j + 1 \/
                         q = dp + 4 * j + 2 \/ q = dp + 4 * j + 3))
        as (j & Hj & Hq)
        by (exists ((q - dp) / 4); Z.div_mod_to_equations; lia).
      assert (Hall : j < 4 * (count / 4))
        by (Z.div_mod_to_equations; lia).
      pose proof (proj2 (copy_cmp_swap_32_agrees_with_scalar dest dp src sp
                           cmp count j Hcmp Hc0 ltac:(lia) Hj)
                    (or_introl Hall)) as Heq.
      apply load32_bytes in Heq. destruct Heq as (H0 & H1 & H2 & H3).
      destruct Hq as [-> | [-> | [-> | ->]]]; assumption.
    + unfold byte_at.
      rewrite copy_cmp_swap_32_unaligned_frame,
        copy_and_swap_32_unaligned_frame by (try assumption; lia).
      reflexivity.
Qed.

(** X5.  On any input the vector routine and the scalar routine agree at
    element [j] exactly when [j] lies below the last lane boundary, or the
    byte-swapped element is not [cmp_value], or [cmp_value] is all ones. *)
Theorem copy_cmp_swap_differs_from_scalar_only_on_residual_restart :
  forall (dest : mem) (dp : Z) (src : mem) (sp cmp count j : Z),
    0 <= count -> count + 8 < 2 ^ 64 -> 0 <= j < count ->
    (0 <= cmp < 2 ^ 16 ->
     (load16 (copy_cmp_swap_16_unaligned dest dp src sp cmp count)
             (dp + 2 * j) =
      load16 (copy_and_swap_16_unaligned dest dp src sp cmp count)
             (dp + 2 * j)
      <->
      (j < 8 * (count / 8) \/
       xe.byte_swap16 (load16 src (sp + 2 * j)) <> cmp \/ cmp = 0xFFFF))) /\
    (0 <= cmp < 2 ^ 32 ->
     (load32 (copy_cmp_swap_32_unaligned dest dp src sp cmp count)
             (dp + 4 * j) =
      load32 (copy_and_swap_32_unaligned dest dp src sp cmp count)
             (dp + 4 * j)
      <->
      (j < 4 * (count / 4) \/
       xe.byte_swap32 (load32 src (sp + 4 * j)) <> cmp \/
       cmp = 0xFFFFFFFF))).
Proof.
  intros dest dp src sp cmp count j Hc0 Hc Hj. split; intros Hcmp.
  - apply copy_cmp_swap_16_agrees_with_scalar; assumption.
  - apply copy_cmp_swap_32_agrees_with_scalar; try assumption. lia.
Qed.

End CopyOnEveryInput.

Section CopyWithoutRestartIndex.

Implicit Types (src dest : mem).

Lemma byte_at_byte_at (m : mem) p : u8 (byte_at m p) = byte_at m p.
Proof. unfold byte_at. apply u8_u8. Qed.

(** The bytes of [xe::copy_and_swap_16_unaligned] inside the destination
    elements. *)
Lemma xe_copy_and_swap_16_at dest dp src sp count j :
  0 <= j < count ->
  byte_at (xe.copy_and_swap_16_unaligned dest dp src sp count) (dp + 2 * j)
  = byte_at src (sp + 2 * j + 1) /\
  byte_at (xe.copy_and_swap_16_unaligned dest dp src sp count)
          (dp + 2 * j + 1)
  = byte_at src (sp + 2 * j).
Proof.
  intros Hj. unfold xe.copy_and_swap_16_unaligned.
  split.
  - unfold byte_at at 1.
    assert (((dp <=? dp + 2 * j) && (dp + 2 * j <? dp + 2 * count)) = true)
      as -> by (apply andb_true_iff; split;
                [apply Z.leb_le | apply Z.ltb_lt]; lia).
    cbv zeta. rewrite byte_at_byte_at. f_equal.
    Z.div_mod_to_equations; lia.
  - unfold byte_at at 1.
    assert (((dp <=? dp + 2 * j + 1) && (dp + 2 * j + 1 <? dp + 2 * count))
            = true)
      as -> by (apply andb_true_iff; split;
                [apply Z.leb_le | apply Z.ltb_lt]; lia).
    cbv zeta. rewrite byte_at_byte_at. f_equal.
    Z.div_mod_to_equations; lia.
Qed.

Lemma xe_copy_and_swap_32_at dest dp src sp count j t :
  0 <= j < count -> 0 <= t < 4 ->
  byte_at (xe.copy_and_swap_32_unaligned dest dp src sp count)
          (dp + 4 * j + t)
  = byte_at src (sp + 4 * j + (3 - t)).
Proof.
  intros Hj Ht. unfold xe.copy_and_swap_32_unaligned.
  unfold byte_at at 1.
  assert (((dp <=? dp + 4 * j + t) && (dp + 4 * j + t <? dp + 4 * count))
          = true)
    as -> by (apply andb_true_iff; split;
              [apply Z.leb_le | apply Z.ltb_lt]; lia).
  cbv zeta. rewrite byte_at_byte_at. f_equal.
  Z.div_mod_to_equations; lia.
Qed.

Lemma xe_copy_and_swap_16_frame dest dp src sp count q :
  q < dp \/ dp + 2 * count <= q ->
  xe.copy_and_swap_16_unaligned dest dp src sp count q = dest q.
Proof.
  intros Hq. unfold xe.copy_and_swap_16_unaligned.
  assert (((dp <=? q) && (q <? dp + 2 * count)) = false) as ->;
    [|reflexivity].
  apply andb_false_iff.
  destruct Hq; [left; apply Z.leb_gt | right; apply Z.ltb_ge]; lia.
Qed.

Lemma xe_copy_and_swap_32_frame dest dp src sp count q :
  q < dp \/ dp + 4 * count <= q ->
  xe.copy_and_swap_32_unaligned dest dp src sp count q = dest q.
Proof.
  intros Hq. unfold xe.copy_and_swap_32_unaligned.
  assert (((dp <=? q) && (q <? dp + 4 * count)) = false) as ->;
    [|reflexivity].
  apply andb_false_iff.
  destruct Hq; [left; apply Z.leb_gt | right; apply Z.ltb_ge]; lia.
Qed.

Lemma xe_copy_and_swap_16_in_32_frame dest dp src sp count q :
  q < dp \/ dp + 4 * count <= q ->
  xe.copy_and_swap_16_in_32_unaligned dest dp src sp count q = dest q.
Proof.
  intros Hq. unfold xe.copy_and_swap_16_in_32_unaligned.
  assert (((dp <=? q) && (q <? dp + 4 * count)) = false) as ->;
    [|reflexivity].
  apply andb_false_iff.
  destruct Hq; [left; apply Z.leb_gt | right; apply Z.ltb_ge]; lia.
Qed.

(** The bytes of a byte-swapped 16-bit (32-bit) element. *)
Lemma load16_swapped_bytes (m src : mem) p sp :
  load16 m p = xe.byte_swap16 (load16 src sp) ->
  byte_at m p = byte_at src (sp + 1) /\ byte_at m (p + 1) = byte_at src sp.
Proof.
  rewrite byte_swap16_load16. unfold load16. change (2 ^ 8) with 256.
  pose proof (byte_at_range m p). pose proof (byte_at_range m (p + 1)).
  pose proof (byte_at_range src sp). pose proof (byte_at_range src (sp + 1)).
  lia.
Qed.

Lemma load32_swapped_bytes (m src : mem) p sp :
  load32 m p = xe.byte_swap32 (load32 src sp) ->
  byte_at m p = byte_at src (sp + 3) /\
  byte_at m (p + 1) = byte_at src (sp + 2) /\
  byte_at m (p + 2) = byte_at src (sp + 1) /\
  byte_at m (p + 3) = byte_at src sp.
Proof.
  rewrite byte_swap32_load32. unfold load32.
  change (2 ^ 8) with 256. change (2 ^ 16) with 65536.
  change (2 ^ 24) with 16777216.
  pose proof (byte_at_range m p). pose proof (byte_at_range m (p + 1)).
  pose proof (byte_at_range m (p + 2)). pose proof (byte_at_range m (p + 3)).
  pose proof (byte_at_range src sp). pose proof (byte_at_range src (sp + 1)).
  pose proof (byte_at_range src (sp + 2)).
  pose proof (byte_at_range src (sp + 3)).
  lia.
Qed.

(** X6.  When none of the elements taken by the vector loop equals
    [cmp_value] after the byte swap, the vector routines leave the bytes
    that the plain conversions [xe::copy_and_swap_16_unaligned] and
    [xe::copy_and_swap_32_unaligned] leave: the shuffle reverses the bytes
    of each element and the comparison changes nothing. *)
Theorem copy_cmp_swap_without_restart_index_is_plain_swap :
  forall (dest : mem) (dp : Z) (src : mem) (sp cmp count : Z),
    0 <= count -> count + 8 < 2 ^ 64 ->
    (0 <= cmp < 2 ^ 16 ->
     (forall j, 0 <= j < 8 * (count / 8) ->
        xe.byte_swap16 (load16 src (sp + 2 * j)) <> cmp) ->
     forall q,
       byte_at (copy_cmp_swap_16_unaligned dest dp src sp cmp count) q =
       byte_at (xe.copy_and_swap_16_unaligned dest dp src sp count) q) /\
    (0 <= cmp < 2 ^ 32 ->
     (forall j, 0 <= j < 4 * (count / 4) ->
        xe.byte_swap32 (load32 src (sp + 4 * j)) <> cmp) ->
     forall q,
       byte_at (copy_cmp_swap_32_unaligned dest dp src sp cmp count) q =
       byte_at (xe.copy_and_swap_32_unaligned dest dp src sp count) q).
Proof.
  intros dest dp src sp cmp count Hc0 Hc. split.
  - intros Hcmp Hnone q.
    destruct (Z.lt_ge_cases q dp) as [Hlo | Hge];
      [|destruct (Z.lt_ge_cases q (dp + 2 * count)) as [Hin | Hhi]].
    + unfold byte_at.
      rewrite copy_cmp_swap_16_unaligned_frame, xe_copy_and_swap_16_frame
        by (try assumption; lia).
      reflexivity.
    + assert (exists j, 0 <= j < count /\
                        (q = dp + 2 * j \/ q = dp + 2 * j + 1))
        as (j & Hj & Hq)
        by (exists ((q - dp) / 2); Z.div_mod_to_equations; lia).
      assert (Hval :
                load16 (copy_cmp_swap_16_unaligned dest dp src sp cmp count)
                       (dp + 2 * j)
                = xe.byte_swap16 (load16 src (sp + 2 * j))).
      { rewrite copy_cmp_swap_16_unaligned_spec by assumption.
        destruct (Z.ltb_spec j (8 * (count / 8))) as [Hlt | _];
          [|reflexivity].
        destruct (Z.eqb_spec (xe.byte_swap16 (load16 src (sp + 2 * j))) cmp)
          as [He | _]; [|reflexivity].
        exfalso. apply (Hnone j); [lia | exact He]. }
      apply load16_swapped_bytes in Hval. destruct Hval as [H0 H1].
      destruct (xe_copy_and_swap_16_at dest dp src sp count j Hj)
        as [X0 X1].
      destruct Hq as [-> | ->]; congruence.
    + unfold byte_at.
      rewrite copy_cmp_swap_16_unaligned_frame, xe_copy_and_swap_16_frame
        by (try assumption; lia).
      reflexivity.
  - intros Hcmp Hnone q.
    destruct (Z.lt_ge_cases q dp) as [Hlo | Hge];
      [|destruct (Z.lt_ge_cases q (dp + 4 * count)) as [Hin | Hhi]].
    + unfold byte_at.
      rewrite copy_cmp_swap_32_unaligned_frame, xe_copy_and_swap_32_frame
        by (try assumption; lia).
      reflexivity.
    + assert (exists j t, 0 <= j < count /\ 0 <= t < 4 /\
                          q = dp + 4 * j + t)
        as (j & t & Hj & Ht & ->)
        by (exists ((q - dp) / 4), ((q - dp) mod 4);
            Z.div_mod_to_equations; lia).
      assert (Hval :
                load32 (copy_cmp_swap_32_unaligned dest dp src sp cmp count)
                       (dp + 4 * j)
                = xe.byte_swap32 (load32 src (sp + 4 * j))).
      { rewrite copy_cmp_swap_32_unaligned_spec by (try assumption; lia).
        destruct (Z.ltb_spec j (4 * (count / 4))) as [Hlt | _];
          [|reflexivity].
        destruct (Z.eqb_spec (xe.byte_swap32 (load32 src (sp + 4 * j))) cmp)
          as [He | _]; [|reflexivity].
        exfalso. apply (Hnone j); [lia | exact He]. }
      apply load32_swapped_bytes in Hval.
      destruct Hval as (H0 & H1 & H2 & H3).
      rewrite (xe_copy_and_swap_32_at dest dp src sp count j t Hj Ht).
      assert (t = 0 \/ t = 1 \/ t = 2 \/ t = 3) as [-> | [-> | [-> | ->]]]
        by lia.
      * rewrite Z.add_0_r. exact H0.
      * exact H1.
      * exact H2.
      * replace (sp + 4 * j + (3 - 3)) with (sp + 4 * j) by lia. exact H3.
    + unfold byte_at.
      rewrite copy_cmp_swap_32_unaligned_frame, xe_copy_and_swap_32_frame
        by (try assumption; lia).
      reflexivity.
Qed.

End CopyWithoutRestartIndex.

(** ** The guest-range cache as an ordered map *)

Section CacheOperations.

Implicit Types (c : cache) (e : cache_entry).

(** Some entry at or below [k] makes one of them the nearest. *)
Lemma nearest_below_exists c k e :
  keys_sorted c -> In e c -> fst e <= k -> exists e', nearest_below c k e'.
Proof.
  intros Hs Hin Hle.
  destruct (prev (upto k c)) as [e'|] eqn:Hp.
  - exists e'. apply prev_upto_nearest; assumption.
  - apply prev_None in Hp.
    assert (In e (upto k c)) as Hc
      by (apply filter_In; split; [exact Hin | apply Z.leb_le; exact Hle]).
    rewrite Hp in Hc. contradiction.
Qed.

(** X7.  A range is found right after it has been cached, at the offset it
    was cached with, whatever else the map holds. *)
Theorem FindCachedTransientData_finds_cached_range :
  forall (c : cache) (address length offset : Z),
    keys_sorted c -> 0 <= offset < 2 ^ 64 ->
    FindCachedTransientData address length
      (CacheTransientData address length offset c) = offset.
Proof.
  intros c address length offset Hs Hoff.
  rewrite FindCachedTransientData_after_cache by exact Hs.
  rewrite Z.sub_diag. change (u32 0) with 0. rewrite Z.add_0_r.
  apply u64_small. exact Hoff.
Qed.

(** X8.  What [CacheTransientData] does to an ordered map: the new entry is
    in it and is the only one at its key; nothing else is added; every
    entry at a lower address stays; an entry at a higher address is erased
    only if its end, as a 32-bit sum, is at or before the 32-bit end of the
    new range; and the keys stay strictly increasing. *)
Theorem CacheTransientData_keeps_and_evicts :
  forall (c : cache) (address length offset : Z),
    keys_sorted c ->
    let c' := CacheTransientData address length offset c in
    In (address, (length, offset)) c' /\
    (forall v, In (address, v) c' -> v = (length, offset)) /\
    (forall e, In e c' -> e = (address, (length, offset)) \/ In e c) /\
    (forall e, In e c -> fst e < address -> In e c') /\
    (forall e, In e c -> address < fst e -> ~ In e c' ->
       u32 (fst e + fst (snd e)) <= u32 (address + length)) /\
    keys_sorted c'.
Proof.
  intros c address length offset Hs c'. subst c'.
  rewrite (CacheTransientData_sorted address length offset c Hs).
  destruct (erase_contained_suffix (u32 (address + length)) (above address c))
    as (dropped & Heq & Hdropped & _).
  set (rest := erase_contained (u32 (address + length)) (above address c))
    in *.
  assert (Hrest : forall e, In e rest -> In e c /\ address < fst e).
  { intros e Hin.
    assert (In e (above address c)) as Hin'
      by (rewrite Heq; apply in_or_app; tauto).
    apply filter_In in Hin'. destruct Hin' as [? Hk]. apply Z.ltb_lt in Hk.
    tauto. }
  split; [apply in_or_app; simpl; tauto|].
  split; [|split; [|split; [|split]]].
  - intros v Hv. apply in_app_or in Hv. destruct Hv as [Hv | [Hv | Hv]].
    + apply filter_In in Hv. destruct Hv as [_ Hv]. apply Z.ltb_lt in Hv.
      simpl in Hv. lia.
    + injection Hv as <-. reflexivity.
    + apply Hrest in Hv. simpl in Hv. lia.
  - intros e He. apply in_app_or in He. destruct He as [He | [He | He]].
    + apply filter_In in He. tauto.
    + left. symmetry. exact He.
    + right. apply (Hrest e He).
  - intros e Hin Hlt. apply in_or_app. left. apply filter_In.
    split; [exact Hin | apply Z.ltb_lt; exact Hlt].
  - intros e Hin Hgt Hout.
    assert (In e (above address c)) as Hab
      by (apply filter_In; split; [exact Hin | apply Z.ltb_lt; exact Hgt]).
    rewrite Heq in Hab. apply in_app_or in Hab. destruct Hab as [Hd | Hr].
    + rewrite Forall_forall in Hdropped. apply (Hdropped e Hd).
    + exfalso. apply Hout. apply in_or_app. simpl. tauto.
  - apply StronglySorted_app.
    + apply StronglySorted_filter. exact Hs.
    + constructor.
      * apply (StronglySorted_app_r _ dropped). rewrite <- Heq.
        apply StronglySorted_filter. exact Hs.
      * rewrite Forall_forall. intros e He. simpl. apply (Hrest e He).
    + intros x y Hx Hy. apply filter_In in Hx. destruct Hx as [_ Hx].
      apply Z.ltb_lt in Hx. destruct Hy as [<- | Hy]; simpl; [exact Hx|].
      apply Hrest in Hy. lia.
Qed.

(** X9.  Caching a range that the lookup has just missed keeps the cache
    ordered by key and by end address, with every range inside the 32-bit
    guest address space: the order that lets the erase loop stop at the
    first entry it does not erase. *)
Theorem CacheTransientData_after_miss_keeps_order :
  forall (c : cache) (address length offset : Z),
    cache_inv c -> buffer_ranges c -> range32 address length ->
    FindCachedTransientData address length c = VK_WHOLE_SIZE ->
    cache_inv (CacheTransientData address length offset c).
Proof.
  intros c address length offset Hinv Hbuf Hreq Hmiss.
  apply CacheTransientData_keeps_inv; try assumption.
  destruct Hinv as (Hs & Hg & _).
  destruct (FindCachedTransientData_spec _ _ _ Hs Hg Hbuf Hreq)
    as (Hiff & _ & _).
  intros e Hn Hc. apply (proj2 Hiff); eauto.
Qed.

(** X10.  A hit hands out a buffer range that lies inside the buffer range of
    an entry of the cache at or below the requested address; in particular
    an empty cache, or one whose entries all lie above the address, gives
    [VK_WHOLE_SIZE]. *)
Theorem FindCachedTransientData_hit_inside_entry :
  forall (c : cache) (address length : Z),
    keys_sorted c -> guest_ranges c -> buffer_ranges c ->
    range32 address length ->
    FindCachedTransientData address length c <> VK_WHOLE_SIZE ->
    exists e,
      In e c /\ fst e <= address /\
      snd (snd e) <= FindCachedTransientData address length c /\
      FindCachedTransientData address length c + length
      <= snd (snd e) + fst (snd e).
Proof.
  intros c address length Hs Hg Hb Hreq Hhit.
  destruct (FindCachedTransientData_spec _ _ _ Hs Hg Hb Hreq)
    as (Hiff & Hval & _).
  destruct (proj1 Hiff Hhit) as (e & Hn & Hc).
  exists e. rewrite (Hval e Hn Hc).
  destruct Hn as (Hin & Hle & _). destruct Hc as (_ & Hend).
  unfold entry_end in Hend. repeat split; try assumption; lia.
Qed.

End CacheOperations.

(** ** The uploads on every state *)

Section UploadOutcomes.

Context {R : Type} {I : CircularBuffer.Interface R} {RT : RegisterTable}.

Implicit Types (s : BufferCache.t (CircularBuffer.Probed R)).

(** A failed allocation has asked the ring twice, with one [Scavenge] in
    between. *)
Lemma AllocateTransientData_failed_calls s length fence :
  fst (BufferCache.AllocateTransientData length fence s) = VK_WHOLE_SIZE ->
  log (snd (BufferCache.AllocateTransientData length fence s)) =
  log s ++ [CircularBuffer.CallAcquire length fence;
            CircularBuffer.CallScavenge;
            CircularBuffer.CallAcquire length fence].
Proof.
  unfold log, BufferCache.AllocateTransientData,
    BufferCache.TryAllocateTransientData,
    BufferCache.bind, BufferCache.on_ring_, BufferCache.on_ring,
    BufferCache.ret.
  simpl.
  destruct (CircularBuffer.Acquire length fence
              (CircularBuffer.inner (BufferCache.transient_buffer_ s)))
    as [[a|] r]; simpl.
  - destruct (Z.eqb_spec (CircularBuffer.offset a) VK_WHOLE_SIZE); simpl;
      [|intros Hc; contradiction].
    destruct (CircularBuffer.Acquire length fence (CircularBuffer.Scavenge r))
      as [[b|] r']; simpl; repeat rewrite <- app_assoc; reflexivity.
  - destruct (CircularBuffer.Acquire length fence (CircularBuffer.Scavenge r))
      as [[b|] r']; simpl; repeat rewrite <- app_assoc; reflexivity.
Qed.

(** X11.  An upload whose allocation fails returns its failure value,
    [{VK_WHOLE_SIZE, VK_WHOLE_SIZE}] or [{nullptr, VK_WHOLE_SIZE}], and
    leaves the state the failed allocation left: the ring has seen
    [Acquire], [Scavenge], [Acquire] and nothing else, no [Flush]; arena
    bytes, cache, recorded barriers, registers and guest memory are as
    before.  For a vertex upload this is so whatever the endianness. *)
Theorem uploads_fail_without_side_effects :
  forall s (command_buffer : VkCommandBuffer) (fence : VkFence),
    (fst (BufferCache.AllocateTransientData kConstantRegisterUniformRange
            fence s) = VK_WHOLE_SIZE ->
     BufferCache.UploadConstantRegisters command_buffer fence s =
     ((VK_WHOLE_SIZE, VK_WHOLE_SIZE),
      snd (BufferCache.AllocateTransientData kConstantRegisterUniformRange
             fence s))) /\
    (forall source_addr source_length format,
       fst (BufferCache.AllocateTransientData source_length fence s)
       = VK_WHOLE_SIZE ->
       BufferCache.UploadIndexBuffer command_buffer source_addr source_length
         format fence s =
       ((nullptr, VK_WHOLE_SIZE),
        snd (BufferCache.AllocateTransientData source_length fence s))) /\
    (forall source_addr source_length endian,
       FindCachedTransientData source_addr source_length
         (BufferCache.transient_cache_ s) = VK_WHOLE_SIZE ->
       fst (BufferCache.AllocateTransientData source_length fence s)
       = VK_WHOLE_SIZE ->
       BufferCache.UploadVertexBuffer command_buffer source_addr source_length
         endian fence s =
       (Some (nullptr, VK_WHOLE_SIZE),
        snd (BufferCache.AllocateTransientData source_length fence s))) /\
    (forall length,
       fst (BufferCache.AllocateTransientData length fence s)
       = VK_WHOLE_SIZE ->
       let s' := snd (BufferCache.AllocateTransientData length fence s) in
       log s' = log s ++ [CircularBuffer.CallAcquire length fence;
                          CircularBuffer.CallScavenge;
                          CircularBuffer.CallAcquire length fence] /\
       BufferCache.host_base s' = BufferCache.host_base s /\
       BufferCache.transient_cache_ s' = BufferCache.transient_cache_ s /\
       BufferCache.recorded s' = BufferCache.recorded s /\
       BufferCache.register_file_ s' = BufferCache.register_file_ s /\
       BufferCache.memory_ s' = BufferCache.memory_ s).
Proof.
  intros s command_buffer fence. split; [|split; [|split]].
  - intros Ho. unfold BufferCache.UploadConstantRegisters.
    unfold BufferCache.bind at 1.
    destruct (BufferCache.AllocateTransientData _ fence s) as [o sa].
    cbn [fst] in Ho. subst o. cbn [snd]. rewrite Z.eqb_refl. reflexivity.
  - intros source_addr source_length format Ho.
    unfold BufferCache.UploadIndexBuffer. unfold BufferCache.bind at 1.
    destruct (BufferCache.AllocateTransientData _ fence s) as [o sa].
    cbn [fst] in Ho. subst o. cbn [snd]. rewrite Z.eqb_refl. reflexivity.
  - intros source_addr source_length endian Hmiss Ho.
    unfold BufferCache.UploadVertexBuffer. unfold BufferCache.bind at 1.
    unfold BufferCache.gets at 1. rewrite Hmiss, Z.eqb_refl. cbn [negb].
    unfold BufferCache.bind at 1.
    destruct (BufferCache.AllocateTransientData _ fence s) as [o sa].
    cbn [fst] in Ho. subst o. cbn [snd]. rewrite Z.eqb_refl. reflexivity.
  - intros length Ho s'. subst s'.
    pose proof (AllocateTransientData_frame s length fence) as Hf.
    cbv zeta in Hf. destruct Hf as (Hr & Hm & Hh & Hc & Hb).
    split; [apply AllocateTransientData_failed_calls; exact Ho|].
    auto.
Qed.

End UploadOutcomes.

Section UploadResults.

Context {R : Type} {I : CircularBuffer.Interface R} {RT : RegisterTable}.

Implicit Types (s : BufferCache.t (CircularBuffer.Probed R)).

(** The arena after an index upload, from the result of its allocation. *)
Lemma UploadIndexBuffer_host_base s command_buffer source_addr source_length
    format fence :
  let a := BufferCache.AllocateTransientData source_length fence s in
  let values := BufferCache.register_file_ s in
  let src := physical (BufferCache.memory_ s) in
  let src_ptr := TranslatePhysical (BufferCache.memory_ s) source_addr in
  BufferCache.host_base
    (snd (BufferCache.UploadIndexBuffer command_buffer source_addr
            source_length format fence s)) =
  if fst a =? VK_WHOLE_SIZE then BufferCache.host_base s
  else
    match Z.testbit (reg_u32 values XE_GPU_REG_PA_SU_SC_MODE_CNTL) 21,
          format with
    | true, kInt16 =>
        copy_cmp_swap_16_unaligned (BufferCache.host_base s) (fst a)
          src src_ptr
          (u16 (reg_u32 values XE_GPU_REG_VGT_MULTI_PRIM_IB_RESET_INDX))
          (source_length / 2)
    | true, kInt32 =>
        copy_cmp_swap_32_unaligned (BufferCache.host_base s) (fst a)
          src src_ptr
          (reg_u32 values XE_GPU_REG_VGT_MULTI_PRIM_IB_RESET_INDX)
          (source_length / 4)
    | false, kInt16 =>
        xe.copy_and_swap_16_unaligned (BufferCache.host_base s) (fst a)
          src src_ptr (source_length / 2)
    | false, kInt32 =>
        xe.copy_and_swap_32_unaligned (BufferCache.host_base s) (fst a)
          src src_ptr (source_length / 4)
    end.
Proof.
  intros a values src src_ptr. subst a values src src_ptr.
  rewrite <- land_bit21.
  pose proof (AllocateTransientData_frame s source_length fence) as Hf.
  cbv zeta in Hf. destruct Hf as (Hr & Hm & Hh & _ & _).
  unfold BufferCache.UploadIndexBuffer. unfold BufferCache.bind at 1.
  destruct (BufferCache.AllocateTransientData source_length fence s)
    as [o sa].
  cbn [fst snd] in *.
  destruct (Z.eqb_spec o VK_WHOLE_SIZE) as [He | Hne]; [exact Hh|].
  run_methods. rewrite Hr, Hm.
  destruct (negb _); destruct format; simpl; rewrite Hh; reflexivity.
Qed.

(** The arena after a vertex upload. *)
Lemma UploadVertexBuffer_host_base s command_buffer source_addr source_length
    endian fence :
  let a := BufferCache.AllocateTransientData source_length fence s in
  let src := physical (BufferCache.memory_ s) in
  let src_ptr := TranslatePhysical (BufferCache.memory_ s) source_addr in
  BufferCache.host_base
    (snd (BufferCache.UploadVertexBuffer command_buffer source_addr
            source_length endian fence s)) =
  if negb (FindCachedTransientData source_addr source_length
             (BufferCache.transient_cache_ s) =? VK_WHOLE_SIZE)
  then BufferCache.host_base s
  else if fst a =? VK_WHOLE_SIZE then BufferCache.host_base s
  else
    match endian with
    | k8in32 =>
        xe.copy_and_swap_32_unaligned (BufferCache.host_base s) (fst a)
          src src_ptr (source_length / 4)
    | k16in32 =>
        xe.copy_and_swap_16_in_32_unaligned (BufferCache.host_base s) (fst a)
          src src_ptr (source_length / 4)
    | _ => BufferCache.host_base s
    end.
Proof.
  intros a src src_ptr. subst a src src_ptr.
  pose proof (AllocateTransientData_frame s source_length fence) as Hf.
  cbv zeta in Hf. destruct Hf as (Hr & Hm & Hh & _ & _).
  unfold BufferCache.UploadVertexBuffer. unfold BufferCache.bind at 1.
  unfold BufferCache.gets at 1.
  destruct (negb _); [reflexivity|].
  unfold BufferCache.bind at 1.
  destruct (BufferCache.AllocateTransientData source_length fence s)
    as [o sa].
  cbn [fst snd] in *.
  destruct (Z.eqb_spec o VK_WHOLE_SIZE) as [He | Hne]; [exact Hh|].
  run_methods. rewrite Hm.
  destruct endian; simpl; rewrite ?Hh; reflexivity.
Qed.

(** X12.  A successful upload records exactly one buffer barrier, on the
    ring's buffer, from host writes to the reads of its kind (uniform and
    shader reads before all commands, index reads or vertex attribute reads
    before vertex input), and the barrier covers the range that was
    allocated and flushed: [offset, offset + length).  The constants upload
    returns the offset twice, the index upload returns the ring's buffer
    with the offset, and the vertex upload caches its range at the offset
    before it returns it. *)
Theorem uploads_record_one_barrier_over_the_flushed_range :
  forall s (command_buffer : VkCommandBuffer) (fence : VkFence),
    (let a := BufferCache.AllocateTransientData kConstantRegisterUniformRange
                fence s in
     let r := BufferCache.UploadConstantRegisters command_buffer fence s in
     fst a <> VK_WHOLE_SIZE ->
     fst r = (fst a, fst a) /\
     log (snd r) =
       log (snd a) ++
       [CircularBuffer.CallFlush (fst a) kConstantRegisterUniformRange] /\
     BufferCache.recorded (snd r) =
       BufferCache.recorded s ++
       [{| commandBuffer := command_buffer;
           srcStageMask := VK_PIPELINE_STAGE_HOST_BIT;
           dstStageMask := VK_PIPELINE_STAGE_ALL_COMMANDS_BIT;
           bufferBarrier :=
             {| srcAccessMask := [VK_ACCESS_HOST_WRITE_BIT];
                dstAccessMask := [VK_ACCESS_UNIFORM_READ_BIT;
                                  VK_ACCESS_SHADER_READ_BIT];
                buffer := CircularBuffer.gpu_buffer
                            (BufferCache.transient_buffer_ (snd r));
                barrier_offset := fst a;
                size := kConstantRegisterUniformRange |} |}]) /\
    (forall source_addr source_length format,
       let a := BufferCache.AllocateTransientData source_length fence s in
       let r := BufferCache.UploadIndexBuffer command_buffer source_addr
                  source_length format fence s in
       fst a <> VK_WHOLE_SIZE ->
       fst r = (CircularBuffer.gpu_buffer
                  (BufferCache.transient_buffer_ (snd r)), fst a) /\
       log (snd r) =
         log (snd a) ++ [CircularBuffer.CallFlush (fst a) source_length] /\
       BufferCache.recorded (snd r) =
         BufferCache.recorded s ++
         [{| commandBuffer := command_buffer;
             srcStageMask := VK_PIPELINE_STAGE_HOST_BIT;
             dstStageMask := VK_PIPELINE_STAGE_VERTEX_INPUT_BIT;
             bufferBarrier :=
               {| srcAccessMask := [VK_ACCESS_HOST_WRITE_BIT];
                  dstAccessMask := [VK_ACCESS_INDEX_READ_BIT];
                  buffer := CircularBuffer.gpu_buffer
                              (BufferCache.transient_buffer_ (snd r));
                  barrier_offset := fst a;
                  size := source_length |} |}]) /\
    (forall source_addr source_length endian,
       let a := BufferCache.AllocateTransientData source_length fence s in
       let r := BufferCache.UploadVertexBuffer command_buffer source_addr
                  source_length endian fence s in
       FindCachedTransientData source_addr source_length
         (BufferCache.transient_cache_ s) = VK_WHOLE_SIZE ->
       fst a <> VK_WHOLE_SIZE ->
       endian = k8in32 \/ endian = k16in32 ->
       fst r = Some (CircularBuffer.gpu_buffer
                       (BufferCache.transient_buffer_ (snd r)),
                     u64 (fst a)) /\
       log (snd r) =
         log (snd a) ++ [CircularBuffer.CallFlush (fst a) source_length] /\
       BufferCache.recorded (snd r) =
         BufferCache.recorded s ++
         [{| commandBuffer := command_buffer;
             srcStageMask := VK_PIPELINE_STAGE_HOST_BIT;
             dstStageMask := VK_PIPELINE_STAGE_VERTEX_INPUT_BIT;
             bufferBarrier :=
               {| srcAccessMask := [VK_ACCESS_HOST_WRITE_BIT];
                  dstAccessMask := [VK_ACCESS_VERTEX_ATTRIBUTE_READ_BIT];
                  buffer := CircularBuffer.gpu_buffer
                              (BufferCache.transient_buffer_ (snd r));
                  barrier_offset := fst a;
                  size := source_length |} |}] /\
       BufferCache.transient_cache_ (snd r) =
         CacheTransientData source_addr source_length (fst a)
           (BufferCache.transient_cache_ s)).
Proof.
  intros s command_buffer fence. split; [|split].
  - intros a r. subst a r.
    pose proof (AllocateTransientData_frame s kConstantRegisterUniformRange
                  fence) as Hf.
    cbv zeta in Hf. destruct Hf as (_ & _ & _ & _ & Hb).
    unfold BufferCache.UploadConstantRegisters, BufferCache.bind.
    destruct (BufferCache.AllocateTransientData
                kConstantRegisterUniformRange fence s) as [o sa].
    cbn [fst snd] in *. intros Hne.
    destruct (Z.eqb_spec o VK_WHOLE_SIZE) as [He | _]; [contradiction|].
    unfold log. run_methods. rewrite Hb. repeat split.
  - intros source_addr source_length format a r. subst a r.
    pose proof (AllocateTransientData_frame s source_length fence) as Hf.
    cbv zeta in Hf. destruct Hf as (_ & _ & _ & _ & Hb).
    unfold BufferCache.UploadIndexBuffer, BufferCache.bind.
    destruct (BufferCache.AllocateTransientData source_length fence s)
      as [o sa].
    cbn [fst snd] in *. intros Hne.
    destruct (Z.eqb_spec o VK_WHOLE_SIZE) as [He | _]; [contradiction|].
    unfold log. run_methods.
    destruct (negb _); destruct format; simpl; rewrite Hb; repeat split.
  - intros source_addr source_length endian a r. subst a r.
    pose proof (AllocateTransientData_frame s source_length fence) as Hf.
    cbv zeta in Hf. destruct Hf as (_ & _ & _ & Hc & Hb).
    unfold BufferCache.UploadVertexBuffer, BufferCache.bind,
      BufferCache.gets.
    intros Hmiss. rewrite Hmiss, Z.eqb_refl. cbn [negb].
    destruct (BufferCache.AllocateTransientData source_length fence s)
      as [o sa].
    cbn [fst snd] in *. intros Hne Hend.
    destruct (Z.eqb_spec o VK_WHOLE_SIZE) as [He | _]; [contradiction|].
    unfold log. run_methods.
    rewrite Z.sub_diag. change (u32 0) with 0. rewrite Z.add_0_r.
    destruct Hend as [-> | ->]; simpl; rewrite Hb, Hc; repeat split.
Qed.

End UploadResults.

Section UploadedBytes.

Context {R : Type} {I : CircularBuffer.Interface R} {RT : RegisterTable}.

Implicit Types (s : BufferCache.t (CircularBuffer.Probed R)).

Lemma reg_u32_range (values : mem) r : 0 <= reg_u32 values r < 2 ^ 32.
Proof. unfold reg_u32. apply load32_range. Qed.

Lemma u16_range (x : Z) : 0 <= u16 x < 2 ^ 16.
Proof. unfold u16. apply Z.mod_pos_bound. reflexivity. Qed.

(** The offset an index upload returns is the one its allocation
    returned. *)
Lemma UploadIndexBuffer_offset s command_buffer source_addr source_length
    format fence :
  snd (fst (BufferCache.UploadIndexBuffer command_buffer source_addr
              source_length format fence s)) =
  fst (BufferCache.AllocateTransientData source_length fence s).
Proof.
  unfold BufferCache.UploadIndexBuffer. unfold BufferCache.bind at 1.
  destruct (BufferCache.AllocateTransientData source_length fence s)
    as [o sa].
  cbn [fst snd].
  destruct (Z.eqb_spec o VK_WHOLE_SIZE) as [He | Hne];
    [symmetry; exact He|].
  run_methods. destruct (negb _); destruct format; reflexivity.
Qed.

(** X13.  An index upload writes only the whole elements of its range:
    every arena byte below the allocated offset, or at or above
    [offset + 2 * (length / 2)] (16-bit) or [offset + 4 * (length / 4)]
    (32-bit), is as before.  A vertex upload writes only the whole 32-bit
    words of its range: every byte below the offset or at or above
    [offset + 4 * (length / 4)] is as before, so the last [length mod 4]
    bytes of a range that is flushed and cached are never written. *)
Theorem uploads_write_only_whole_elements_of_their_range :
  forall s (command_buffer : VkCommandBuffer) (fence : VkFence),
    (forall source_addr source_length format,
       0 <= source_length < 2 ^ 32 ->
       let offset :=
         fst (BufferCache.AllocateTransientData source_length fence s) in
       let width := match format with kInt16 => 2 | kInt32 => 4 end in
       forall q,
         q < offset \/ offset + width * (source_length / width) <= q ->
         BufferCache.host_base
           (snd (BufferCache.UploadIndexBuffer command_buffer source_addr
                   source_length format fence s)) q
         = BufferCache.host_base s q) /\
    (forall source_addr source_length endian,
       let offset :=
         fst (BufferCache.AllocateTransientData source_length fence s) in
       forall q,
         q < offset \/ offset + 4 * (source_length / 4) <= q ->
         BufferCache.host_base
           (snd (BufferCache.UploadVertexBuffer command_buffer source_addr
                   source_length endian fence s)) q
         = BufferCache.host_base s q).
Proof.
  intros s command_buffer fence. split.
  - intros source_addr source_length format Hlen offset width q Hq.
    subst offset width.
    rewrite UploadIndexBuffer_host_base. cbv zeta.
    destruct (_ =? VK_WHOLE_SIZE); [reflexivity|].
    assert (H2 : 0 <= source_length / 2 /\ source_length / 2 + 8 < 2 ^ 64)
      by (change (2 ^ 64) with 18446744073709551616;
          change (2 ^ 32) with 4294967296 in Hlen;
          Z.div_mod_to_equations; lia).
    assert (H4 : 0 <= source_length / 4 /\ source_length / 4 + 4 < 2 ^ 64)
      by (change (2 ^ 64) with 18446744073709551616;
          change (2 ^ 32) with 4294967296 in Hlen;
          Z.div_mod_to_equations; lia).
    destruct (Z.testbit _ 21); destruct format.
    + apply copy_cmp_swap_16_unaligned_frame;
        [apply u16_range | tauto | tauto | exact Hq].
    + apply copy_cmp_swap_32_unaligned_frame;
        [apply reg_u32_range | tauto | tauto | exact Hq].
    + apply xe_copy_and_swap_16_frame. exact Hq.
    + apply xe_copy_and_swap_32_frame. exact Hq.
  - intros source_addr source_length endian offset q Hq. subst offset.
    rewrite UploadVertexBuffer_host_base. cbv zeta.
    destruct (negb _); [reflexivity|].
    destruct (_ =? VK_WHOLE_SIZE); [reflexivity|].
    destruct endian; try reflexivity.
    + apply xe_copy_and_swap_32_frame. exact Hq.
    + apply xe_copy_and_swap_16_in_32_frame. exact Hq.
Qed.

(** X14.  With primitive restart enabled (bit 21 of [PA_SU_SC_MODE_CNTL])
    a successful index upload leaves, for each index below the last multiple
    of eight (16-bit) or four (32-bit), the byte-swapped guest index, or all
    ones when that equals the restart index register (its low 16 bits for
    16-bit indices); each index after that boundary is left byte-swapped
    even when it equals the restart index. *)
Theorem UploadIndexBuffer_translates_restart_indices_of_whole_vectors :
  forall s (command_buffer : VkCommandBuffer)
         (source_addr source_length : Z) (fence : VkFence),
    0 <= source_length < 2 ^ 32 ->
    Z.testbit (reg_u32 (BufferCache.register_file_ s)
                 XE_GPU_REG_PA_SU_SC_MODE_CNTL) 21 = true ->
    let reset := reg_u32 (BufferCache.register_file_ s)
                   XE_GPU_REG_VGT_MULTI_PRIM_IB_RESET_INDX in
    let src := physical (BufferCache.memory_ s) in
    let sp := TranslatePhysical (BufferCache.memory_ s) source_addr in
    (let r := BufferCache.UploadIndexBuffer command_buffer source_addr
                source_length kInt16 fence s in
     let offset := snd (fst r) in
     let count := source_length / 2 in
     offset <> VK_WHOLE_SIZE ->
     (forall j, 0 <= j < 8 * (count / 8) ->
        load16 (BufferCache.host_base (snd r)) (offset + 2 * j) =
        if xe.byte_swap16 (load16 src (sp + 2 * j)) =? u16 reset then 0xFFFF
        else xe.byte_swap16 (load16 src (sp + 2 * j))) /\
     (forall j, 8 * (count / 8) <= j < count ->
        load16 (BufferCache.host_base (snd r)) (offset + 2 * j) =
        xe.byte_swap16 (load16 src (sp + 2 * j)))) /\
    (let r := BufferCache.UploadIndexBuffer command_buffer source_addr
                source_length kInt32 fence s in
     let offset := snd (fst r) in
     let count := source_length / 4 in
     offset <> VK_WHOLE_SIZE ->
     (forall j, 0 <= j < 4 * (count / 4) ->
        load32 (BufferCache.host_base (snd r)) (offset + 4 * j) =
        if xe.byte_swap32 (load32 src (sp + 4 * j)) =? reset then 0xFFFFFFFF
        else xe.byte_swap32 (load32 src (sp + 4 * j))) /\
     (forall j, 4 * (count / 4) <= j < count ->
        load32 (BufferCache.host_base (snd r)) (offset + 4 * j) =
        xe.byte_swap32 (load32 src (sp + 4 * j)))).
Proof.
  intros s command_buffer source_addr source_length fence Hlen Hbit
    reset src sp.
  assert (H2 : 0 <= source_length / 2 /\ source_length / 2 + 8 < 2 ^ 64)
    by (change (2 ^ 64) with 18446744073709551616;
        change (2 ^ 32) with 4294967296 in Hlen;
        Z.div_mod_to_equations; lia).
  assert (H4 : 0 <= source_length / 4 /\ source_length / 4 + 4 < 2 ^ 64)
    by (change (2 ^ 64) with 18446744073709551616;
        change (2 ^ 32) with 4294967296 in Hlen;
        Z.div_mod_to_equations; lia).
  split.
  - intros r offset count Hok. subst r offset count.
    rewrite UploadIndexBuffer_offset in *.
    rewrite UploadIndexBuffer_host_base. cbv zeta.
    destruct (Z.eqb_spec
                (fst (BufferCache.AllocateTransientData source_length fence
                        s)) VK_WHOLE_SIZE) as [He | _]; [contradiction|].
    rewrite Hbit. fold reset src sp.
    split; intros j Hj.
    + rewrite copy_cmp_swap_16_unaligned_spec
        by (try apply u16_range; try tauto; Z.div_mod_to_equations; lia).
      destruct (Z.ltb_spec j (8 * (source_length / 2 / 8)));
        [reflexivity | lia].
    + rewrite copy_cmp_swap_16_unaligned_spec
        by (try apply u16_range; try tauto; Z.div_mod_to_equations; lia).
      destruct (Z.ltb_spec j (8 * (source_length / 2 / 8)));
        [lia | reflexivity].
  - intros r offset count Hok. subst r offset count.
    rewrite UploadIndexBuffer_offset in *.
    rewrite UploadIndexBuffer_host_base. cbv zeta.
    destruct (Z.eqb_spec
                (fst (BufferCache.AllocateTransientData source_length fence
                        s)) VK_WHOLE_SIZE) as [He | _]; [contradiction|].
    rewrite Hbit. fold reset src sp.
    split; intros j Hj.
    + rewrite copy_cmp_swap_32_unaligned_spec
        by (try apply reg_u32_range; try tauto; Z.div_mod_to_equations; lia).
      destruct (Z.ltb_spec j (4 * (source_length / 4 / 4)));
        [reflexivity | lia].
    + rewrite copy_cmp_swap_32_unaligned_spec
        by (try apply reg_u32_range; try tauto; Z.div_mod_to_equations; lia).
      destruct (Z.ltb_spec j (4 * (source_length / 4 / 4)));
        [lia | reflexivity].
Qed.

End UploadedBytes.

(** ** Cache hits across allocations and scavenges *)

Section HitsAndScavenges.

Context {R : Type} {I : CircularBuffer.Interface R} {RT : RegisterTable}.

Implicit Types (s : BufferCache.t (CircularBuffer.Probed R)).

(** X15.  [AllocateTransientData] never touches the guest-range cache, the
    arena bytes or the recorded barriers, also when its first attempt fails
    and it scavenges the ring: every range that was cached before is still
    served from the cache afterwards, at its old offset and without a call
    on the ring, whatever the endianness and the fence of the request. *)
Theorem AllocateTransientData_keeps_every_cached_range :
  forall s (length : Z) (fence : VkFence),
    let s' := snd (BufferCache.AllocateTransientData length fence s) in
    BufferCache.transient_cache_ s' = BufferCache.transient_cache_ s /\
    BufferCache.host_base s' = BufferCache.host_base s /\
    BufferCache.recorded s' = BufferCache.recorded s /\
    (fst (BufferCache.TryAllocateTransientData length fence s)
     = VK_WHOLE_SIZE ->
     In CircularBuffer.CallScavenge (skipn (List.length (log s)) (log s'))) /\
    (forall command_buffer source_addr source_length endian fence',
       FindCachedTransientData source_addr source_length
         (BufferCache.transient_cache_ s) <> VK_WHOLE_SIZE ->
       BufferCache.UploadVertexBuffer command_buffer source_addr
         source_length endian fence' s' =
       (Some (CircularBuffer.gpu_buffer (BufferCache.transient_buffer_ s'),
              FindCachedTransientData source_addr source_length
                (BufferCache.transient_cache_ s)), s')).
Proof.
  intros s length fence s'.
  pose proof (AllocateTransientData_frame s length fence) as Hf.
  cbv zeta in Hf. fold s' in Hf. destruct Hf as (_ & _ & Hh & Hc & Hb).
  repeat (split; [assumption|]). split.
  - intros Hfail. subst s'.
    assert (log (snd (BufferCache.AllocateTransientData length fence s)) =
            log s ++ [CircularBuffer.CallAcquire length fence;
                      CircularBuffer.CallScavenge;
                      CircularBuffer.CallAcquire length fence]) as ->.
    { revert Hfail.
      unfold log, BufferCache.AllocateTransientData,
        BufferCache.TryAllocateTransientData,
        BufferCache.bind, BufferCache.on_ring_, BufferCache.on_ring,
        BufferCache.ret.
      simpl.
      destruct (CircularBuffer.Acquire length fence
                  (CircularBuffer.inner (BufferCache.transient_buffer_ s)))
        as [[a|] r]; simpl; intros Hfail.
      - rewrite Hfail, Z.eqb_refl. simpl.
        destruct (CircularBuffer.Acquire length fence
                    (CircularBuffer.Scavenge r))
          as [[b|] r']; simpl; repeat rewrite <- app_assoc; reflexivity.
      - destruct (CircularBuffer.Acquire length fence
                    (CircularBuffer.Scavenge r))
          as [[b|] r']; simpl; repeat rewrite <- app_assoc; reflexivity. }
    rewrite skipn_app, skipn_all, Nat.sub_diag. simpl. tauto.
  - intros command_buffer source_addr source_length endian fence' Hhit.
    rewrite <- Hc in *. apply UploadVertexBuffer_hit. exact Hhit.
Qed.

(** X16.  [BufferCache::Scavenge] empties the cache before it scavenges the
    ring, so the vertex upload that follows is never answered from the
    cache: it asks the ring for [source_length] bytes. *)
Theorem Scavenge_forgets_every_cached_range :
  forall s (command_buffer : VkCommandBuffer) (source_addr source_length : Z)
         (endian : Endian) (fence : VkFence),
    let s1 := snd (BufferCache.Scavenge s) in
    let r := BufferCache.UploadVertexBuffer command_buffer source_addr
               source_length endian fence s1 in
    BufferCache.transient_cache_ s1 = [] /\
    log s1 = log s ++ [CircularBuffer.CallScavenge] /\
    BufferCache.host_base s1 = BufferCache.host_base s /\
    BufferCache.recorded s1 = BufferCache.recorded s /\
    (exists rest,
       log (snd r) =
       log s ++ CircularBuffer.CallScavenge ::
                CircularBuffer.CallAcquire source_length fence :: rest) /\
    (forall e, In e (BufferCache.transient_cache_ (snd r)) ->
               e = (source_addr,
                    (source_length,
                     fst (BufferCache.AllocateTransientData source_length
                            fence s1)))).
Proof.
  intros s command_buffer source_addr source_length endian fence s1 r.
  subst r s1.
  unfold BufferCache.Scavenge, BufferCache.UploadVertexBuffer, log.
  run_methods. rewrite ?Z.eqb_refl. simpl.
  repeat (split; [reflexivity|]). split.
  - repeat split_acquire; try split_endian;
      repeat rewrite <- app_assoc; simpl; eexists; reflexivity.
  - repeat split_acquire; try split_endian; intros entry Hentry;
      try contradiction;
      rewrite CacheTransientData_nil in Hentry;
      destruct Hentry as [<- | []]; reflexivity.
Qed.

End HitsAndScavenges.

(** ** Caches reachable through the public calls *)

Section ReachableCaches.

Context {R : Type} `{CircularBuffer.Bounded R} `{RegisterTable}.

Implicit Types (s : BufferCache.t R).

(** X17.  After a vertex upload that returned an offset, every request for
    a part of the uploaded range, whatever its endianness, fence and command
    buffer, is served from the cache: it returns the ring's buffer with an
    offset and leaves the state, ring and arena bytes included, as it
    was. *)
Theorem UploadVertexBuffer_serves_subranges_from_cache :
  forall s (command_buffer : VkCommandBuffer) (source_addr source_length : Z)
         (endian : Endian) (fence : VkFence) (buf offset : Z) s1,
    CircularBuffer.ring_ok (BufferCache.transient_buffer_ s) ->
    cache_inv (BufferCache.transient_cache_ s) ->
    buffer_ranges (BufferCache.transient_cache_ s) ->
    range32 source_addr source_length ->
    BufferCache.UploadVertexBuffer command_buffer source_addr source_length
      endian fence s = (Some (buf, offset), s1) ->
    offset <> VK_WHOLE_SIZE ->
    forall (command_buffer' : VkCommandBuffer) (d m : Z) (endian' : Endian)
           (fence' : VkFence),
      0 <= d -> 0 <= m -> d + m <= source_length ->
      exists offset',
        offset' <> VK_WHOLE_SIZE /\
        BufferCache.UploadVertexBuffer command_buffer' (source_addr + d) m
          endian' fence' s1 =
        (Some (CircularBuffer.gpu_buffer (BufferCache.transient_buffer_ s1),
               offset'), s1).
Proof.
  intros s command_buffer source_addr source_length endian fence buf offset
    s1 Hok Hinv Hbuf Hreq Hrun Hoff command_buffer' d m endian' fence'
    Hd Hm Hdm.
  destruct (UploadVertexBuffer_keeps_cache_inv s command_buffer source_addr
              source_length endian fence Hok Hinv Hbuf Hreq)
    as [Hinv1 Hbuf1].
  rewrite Hrun in Hinv1, Hbuf1. cbn [snd] in Hinv1, Hbuf1.
  destruct Hinv as (Hs & _).
  destruct (UploadVertexBuffer_caches _ _ _ _ _ _ _ _ _ Hs Hrun Hoff)
    as (_ & Hfind).
  destruct Hinv1 as (Hs1 & Hg1 & He1).
  destruct (FindCachedTransientData_spec _ _ _ Hs1 Hg1 Hbuf1 Hreq)
    as (Hiff & _ & _).
  destruct (proj1 Hiff ltac:(rewrite Hfind; exact Hoff))
    as (e & (Hin & Hle & Hmax) & (_ & Hend)).
  destruct (nearest_below_exists (BufferCache.transient_cache_ s1)
              (source_addr + d) e Hs1 Hin ltac:(lia)) as (e2 & Hn2).
  assert (Hreq2 : range32 (source_addr + d) m)
    by (destruct Hreq as (? & ? & ?); unfold range32; lia).
  assert (Hc2 : contains e2 (source_addr + d) m).
  { destruct Hn2 as (Hin2 & Hle2 & Hmax2). split; [exact Hle2|].
    pose proof (ends_monotone_keys _ e e2 Hs1 He1 Hin Hin2
                  (Hmax2 e Hin ltac:(lia))). lia. }
  destruct (FindCachedTransientData_spec _ _ _ Hs1 Hg1 Hbuf1 Hreq2)
    as (Hiff2 & _ & _).
  assert (Hhit : FindCachedTransientData (source_addr + d) m
                   (BufferCache.transient_cache_ s1) <> VK_WHOLE_SIZE)
    by (apply (proj2 Hiff2); eauto).
  eexists. split; [exact Hhit|].
  apply UploadVertexBuffer_hit. exact Hhit.
Qed.


End ReachableCaches.

(** ** Instances on the worked states *)

Lemma copy_cmp_swap_16_unaligned_elements_witness :
  0 <= 0x1234 < 2 ^ 16 /\ 0 <= 9 /\ 9 + 8 < 2 ^ 64 /\
  let out := copy_cmp_swap_16_unaligned (fun _ => 0) 0
               (physical Example.guest) 0x2000 0x1234 9 in
  (forall j, 8 * (9 / 8) <= j < 9 ->
     load16 out (0 + 2 * j) =
     xe.byte_swap16 (load16 (physical Example.guest) (0x2000 + 2 * j))) /\
  (forall q, q < 0 \/ 0 + 2 * 9 <= q -> out q = 0).
Proof.
  assert (H1 : 0 <= 0x1234 < 2 ^ 16) by lia.
  assert (H2 : 0 <= 9) by lia.
  assert (H3 : 9 + 8 < 2 ^ 64) by lia.
  repeat (split; [assumption|]).
  exact (proj2 (copy_cmp_swap_16_unaligned_elements (fun _ => 0) 0
                  (physical Example.guest) 0x2000 0x1234 9 H1 H2 H3)).
Defined.

Lemma copy_cmp_swap_32_unaligned_elements_witness :
  0 <= 0x12340001 < 2 ^ 32 /\ 0 <= 5 /\ 5 + 4 < 2 ^ 64 /\
  let out := copy_cmp_swap_32_unaligned (fun _ => 0) 0
               (physical Example.guest) 0x2000 0x12340001 5 in
  (forall j, 4 * (5 / 4) <= j < 5 ->
     load32 out (0 + 4 * j) =
     xe.byte_swap32 (load32 (physical Example.guest) (0x2000 + 4 * j))) /\
  (forall q, q < 0 \/ 0 + 4 * 5 <= q -> out q = 0).
Proof.
  assert (H1 : 0 <= 0x12340001 < 2 ^ 32) by lia.
  assert (H2 : 0 <= 5) by lia.
  assert (H3 : 5 + 4 < 2 ^ 64) by lia.
  repeat (split; [assumption|]).
  exact (proj2 (copy_cmp_swap_32_unaligned_elements (fun _ => 0) 0
                  (physical Example.guest) 0x2000 0x12340001 5 H1 H2 H3)).
Defined.

Lemma copy_and_swap_unaligned_substitutes_every_element_witness :
  0 <= 9 < 2 ^ 64 /\
  forall j, 0 <= j < 9 -> 0x1234 <> 0xFFFF ->
    load16 (copy_and_swap_16_unaligned (fun _ => 0) 0
              (physical Example.guest) 0x2000 0x1234 9) (0 + 2 * j)
    <> 0x1234.
Proof.
  assert (H1 : 0 <= 9 < 2 ^ 64) by lia.
  split; [exact H1|].
  exact (proj1 (proj2
    (copy_and_swap_unaligned_substitutes_every_element (fun _ => 0) 0
       (physical Example.guest) 0x2000 0x1234 9 H1))).
Defined.

Lemma copy_cmp_swap_equals_scalar_on_whole_vectors_witness :
  0 <= 8 /\ 8 + 8 < 2 ^ 64 /\ 0 <= 0x1234 < 2 ^ 16 /\ 8 mod 8 = 0 /\
  forall q,
    byte_at (copy_cmp_swap_16_unaligned (fun _ => 0) 0
               (physical Example.guest) 0x2000 0x1234 8) q =
    byte_at (copy_and_swap_16_unaligned (fun _ => 0) 0
               (physical Example.guest) 0x2000 0x1234 8) q.
Proof.
  assert (H1 : 0 <= 8) by lia.
  assert (H2 : 8 + 8 < 2 ^ 64) by lia.
  assert (H3 : 0 <= 0x1234 < 2 ^ 16) by lia.
  assert (H4 : 8 mod 8 = 0) by reflexivity.
  repeat (split; [assumption|]).
  exact (proj1 (copy_cmp_swap_equals_scalar_on_whole_vectors (fun _ => 0) 0
                  (physical Example.guest) 0x2000 0x1234 8 H1 H2) H3 H4).
Defined.

Lemma copy_cmp_swap_differs_from_scalar_only_on_residual_restart_witness :
  0 <= 9 /\ 9 + 8 < 2 ^ 64 /\ 0 <= 8 < 9 /\ 0 <= 0x1234 < 2 ^ 16 /\
  (load16 (copy_cmp_swap_16_unaligned (fun _ => 0) 0
             (physical Example.guest) 0x2000 0x1234 9) (0 + 2 * 8) =
   load16 (copy_and_swap_16_unaligned (fun _ => 0) 0
             (physical Example.guest) 0x2000 0x1234 9) (0 + 2 * 8)
   <->
   (8 < 8 * (9 / 8) \/
    xe.byte_swap16 (load16 (physical Example.guest) (0x2000 + 2 * 8))
    <> 0x1234 \/ 0x1234 = 0xFFFF)).
Proof.
  assert (H1 : 0 <= 9) by lia.
  assert (H2 : 9 + 8 < 2 ^ 64) by lia.
  assert (H3 : 0 <= 8 < 9) by lia.
  assert (H4 : 0 <= 0x1234 < 2 ^ 16) by lia.
  repeat (split; [assumption|]).
  exact (proj1 (copy_cmp_swap_differs_from_scalar_only_on_residual_restart
                  (fun _ => 0) 0 (physical Example.guest) 0x2000 0x1234 9 8
                  H1 H2 H3) H4).
Defined.

Lemma copy_cmp_swap_without_restart_index_is_plain_swap_witness :
  0 <= 9 /\ 9 + 8 < 2 ^ 64 /\ 0 <= 0x9999 < 2 ^ 16 /\
  (forall j, 0 <= j < 8 * (9 / 8) ->
     xe.byte_swap16 (load16 (physical Example.guest) (0x2000 + 2 * j))
     <> 0x9999) /\
  forall q,
    byte_at (copy_cmp_swap_16_unaligned (fun _ => 0) 0
               (physical Example.guest) 0x2000 0x9999 9) q =
    byte_at (xe.copy_and_swap_16_unaligned (fun _ => 0) 0
               (physical Example.guest) 0x2000 9) q.
Proof.
  assert (H1 : 0 <= 9) by lia.
  assert (H2 : 9 + 8 < 2 ^ 64) by lia.
  assert (H3 : 0 <= 0x9999 < 2 ^ 16) by lia.
  assert (H4 : forall j, 0 <= j < 8 * (9 / 8) ->
             xe.byte_swap16 (load16 (physical Example.guest)
                               (0x2000 + 2 * j)) <> 0x9999).
  { intros j Hj. change (8 * (9 / 8)) with 8 in Hj.
    assert (j = 0 \/ j = 1 \/ j = 2 \/ j = 3 \/ j = 4 \/ j = 5 \/ j = 6 \/
            j = 7) as Hcases by lia.
    repeat (destruct Hcases as [-> | Hcases];
            [vm_compute; discriminate|]).
    subst j. vm_compute. discriminate. }
  repeat (split; [assumption|]).
  exact (proj1 (copy_cmp_swap_without_restart_index_is_plain_swap
                  (fun _ => 0) 0 (physical Example.guest) 0x2000 0x9999 9
                  H1 H2) H3 H4).
Defined.

Lemma FindCachedTransientData_finds_cached_range_witness :
  keys_sorted Example.ordered /\ 0 <= 12288 < 2 ^ 64 /\
  FindCachedTransientData 15 100
    (CacheTransientData 15 100 12288 Example.ordered) = 12288.
Proof.
  assert (H1 : keys_sorted Example.ordered)
    by (unfold keys_sorted, Example.ordered; repeat constructor; simpl; lia).
  assert (H2 : 0 <= 12288 < 2 ^ 64) by lia.
  repeat (split; [assumption|]).
  exact (FindCachedTransientData_finds_cached_range Example.ordered
           15 100 12288 H1 H2).
Defined.

Lemma CacheTransientData_keeps_and_evicts_witness :
  keys_sorted Example.ordered /\
  let c' := CacheTransientData 15 100 12288 Example.ordered in
  In (15, (100, 12288)) c' /\
  (forall v, In (15, v) c' -> v = (100, 12288)) /\
  (forall e, In e c' -> e = (15, (100, 12288)) \/ In e Example.ordered) /\
  (forall e, In e Example.ordered -> fst e < 15 -> In e c') /\
  (forall e, In e Example.ordered -> 15 < fst e -> ~ In e c' ->
     u32 (fst e + fst (snd e)) <= u32 (15 + 100)) /\
  keys_sorted c'.
Proof.
  assert (H1 : keys_sorted Example.ordered)
    by (unfold keys_sorted, Example.ordered; repeat constructor; simpl; lia).
  split; [exact H1|].
  exact (CacheTransientData_keeps_and_evicts Example.ordered 15 100 12288 H1).
Defined.

Lemma CacheTransientData_after_miss_keeps_order_witness :
  cache_inv Example.ordered /\ buffer_ranges Example.ordered /\
  range32 35 10 /\
  FindCachedTransientData 35 10 Example.ordered = VK_WHOLE_SIZE /\
  cache_inv (CacheTransientData 35 10 12288 Example.ordered).
Proof.
  assert (H1 : cache_inv Example.ordered).
  { unfold cache_inv, keys_sorted, guest_ranges, ends_monotone, range32,
      entry_end, Example.ordered.
    repeat split; repeat constructor; simpl; lia. }
  assert (H2 : buffer_ranges Example.ordered)
    by (unfold buffer_ranges, VK_WHOLE_SIZE, Example.ordered;
        repeat constructor; simpl; lia).
  assert (H3 : range32 35 10) by (unfold range32; lia).
  assert (H4 : FindCachedTransientData 35 10 Example.ordered = VK_WHOLE_SIZE)
    by (vm_compute; reflexivity).
  repeat (split; [assumption|]).
  exact (CacheTransientData_after_miss_keeps_order Example.ordered
           35 10 12288 H1 H2 H3 H4).
Defined.

Lemma FindCachedTransientData_hit_inside_entry_witness :
  keys_sorted Example.ordered /\ guest_ranges Example.ordered /\
  buffer_ranges Example.ordered /\ range32 22 4 /\
  FindCachedTransientData 22 4 Example.ordered <> VK_WHOLE_SIZE /\
  exists e,
    In e Example.ordered /\ fst e <= 22 /\
    snd (snd e) <= FindCachedTransientData 22 4 Example.ordered /\
    FindCachedTransientData 22 4 Example.ordered + 4
    <= snd (snd e) + fst (snd e).
Proof.
  assert (H1 : keys_sorted Example.ordered)
    by (unfold keys_sorted, Example.ordered; repeat constructor; simpl; lia).
  assert (H2 : guest_ranges Example.ordered)
    by (unfold guest_ranges, range32, Example.ordered;
        repeat constructor; simpl; lia).
  assert (H3 : buffer_ranges Example.ordered)
    by (unfold buffer_ranges, VK_WHOLE_SIZE, Example.ordered;
        repeat constructor; simpl; lia).
  assert (H4 : range32 22 4) by (unfold range32; lia).
  assert (H5 : FindCachedTransientData 22 4 Example.ordered <> VK_WHOLE_SIZE)
    by (vm_compute; discriminate).
  repeat (split; [assumption|]).
  exact (FindCachedTransientData_hit_inside_entry Example.ordered 22 4
           H1 H2 H3 H4 H5).
Defined.

Lemma uploads_fail_without_side_effects_witness :
  fst (BufferCache.AllocateTransientData kConstantRegisterUniformRange 2
         (Example.fresh 4096)) = VK_WHOLE_SIZE /\
  BufferCache.UploadConstantRegisters 100 2 (Example.fresh 4096) =
  ((VK_WHOLE_SIZE, VK_WHOLE_SIZE),
   snd (BufferCache.AllocateTransientData kConstantRegisterUniformRange 2
          (Example.fresh 4096))) /\
  FindCachedTransientData 0x1000 8000
    (BufferCache.transient_cache_ (Example.fresh 4096)) = VK_WHOLE_SIZE /\
  fst (BufferCache.AllocateTransientData 8000 2 (Example.fresh 4096))
  = VK_WHOLE_SIZE /\
  BufferCache.UploadVertexBuffer 100 0x1000 8000 k8in16 2 (Example.fresh 4096)
  = (Some (nullptr, VK_WHOLE_SIZE),
     snd (BufferCache.AllocateTransientData 8000 2 (Example.fresh 4096))).
Proof.
  assert (H1 : fst (BufferCache.AllocateTransientData
                      kConstantRegisterUniformRange 2 (Example.fresh 4096))
               = VK_WHOLE_SIZE) by (vm_compute; reflexivity).
  assert (H2 : FindCachedTransientData 0x1000 8000
                 (BufferCache.transient_cache_ (Example.fresh 4096))
               = VK_WHOLE_SIZE) by reflexivity.
  assert (H3 : fst (BufferCache.AllocateTransientData 8000 2
                      (Example.fresh 4096)) = VK_WHOLE_SIZE)
    by (vm_compute; reflexivity).
  split; [exact H1|]. split.
  - exact (proj1 (uploads_fail_without_side_effects (Example.fresh 4096)
                    100 2) H1).
  - split; [exact H2|]. split; [exact H3|].
    exact (proj1 (proj2 (proj2
      (uploads_fail_without_side_effects (Example.fresh 4096) 100 2)))
      0x1000 8000 k8in16 H2 H3).
Defined.

Lemma uploads_record_one_barrier_over_the_flushed_range_witness :
  fst (BufferCache.AllocateTransientData 18 2 (Example.fresh 8192))
  <> VK_WHOLE_SIZE /\
  let a := BufferCache.AllocateTransientData 18 2 (Example.fresh 8192) in
  let r := BufferCache.UploadIndexBuffer 100 0x2000 18 kInt16 2
             (Example.fresh 8192) in
  fst r = (CircularBuffer.gpu_buffer (BufferCache.transient_buffer_ (snd r)),
           fst a) /\
  log (snd r) = log (snd a) ++ [CircularBuffer.CallFlush (fst a) 18] /\
  BufferCache.recorded (snd r) =
    BufferCache.recorded (Example.fresh 8192) ++
    [{| commandBuffer := 100;
        srcStageMask := VK_PIPELINE_STAGE_HOST_BIT;
        dstStageMask := VK_PIPELINE_STAGE_VERTEX_INPUT_BIT;
        bufferBarrier :=
          {| srcAccessMask := [VK_ACCESS_HOST_WRITE_BIT];
             dstAccessMask := [VK_ACCESS_INDEX_READ_BIT];
             buffer := CircularBuffer.gpu_buffer
                         (BufferCache.transient_buffer_ (snd r));
             barrier_offset := fst a;
             size := 18 |} |}].
Proof.
  assert (H1 : fst (BufferCache.AllocateTransientData 18 2
                      (Example.fresh 8192)) <> VK_WHOLE_SIZE)
    by (vm_compute; discriminate).
  split; [exact H1|].
  exact (proj1 (proj2
    (uploads_record_one_barrier_over_the_flushed_range (Example.fresh 8192)
       100 2)) 0x2000 18 kInt16 H1).
Defined.

Lemma UploadIndexBuffer_translates_restart_indices_of_whole_vectors_witness :
  0 <= 18 < 2 ^ 32 /\
  Z.testbit (reg_u32 (BufferCache.register_file_ (Example.fresh 8192))
               XE_GPU_REG_PA_SU_SC_MODE_CNTL) 21 = true /\
  let r := BufferCache.UploadIndexBuffer 100 0x2000 18 kInt16 2
             (Example.fresh 8192) in
  snd (fst r) <> VK_WHOLE_SIZE /\
  forall j, 8 * (18 / 2 / 8) <= j < 18 / 2 ->
    load16 (BufferCache.host_base (snd r)) (snd (fst r) + 2 * j) =
    xe.byte_swap16
      (load16 (physical (BufferCache.memory_ (Example.fresh 8192)))
         (TranslatePhysical (BufferCache.memory_ (Example.fresh 8192)) 0x2000
          + 2 * j)).
Proof.
  assert (H1 : 0 <= 18 < 2 ^ 32) by lia.
  assert (H2 : Z.testbit
                 (reg_u32 (BufferCache.register_file_ (Example.fresh 8192))
                    XE_GPU_REG_PA_SU_SC_MODE_CNTL) 21 = true)
    by (vm_compute; reflexivity).
  assert (H3 : snd (fst (BufferCache.UploadIndexBuffer 100 0x2000 18 kInt16 2
                           (Example.fresh 8192))) <> VK_WHOLE_SIZE)
    by (vm_compute; discriminate).
  repeat (split; [assumption|]).
  exact (proj2 (proj1
    (UploadIndexBuffer_translates_restart_indices_of_whole_vectors
       (Example.fresh 8192) 100 0x2000 18 2 H1 H2) H3)).
Defined.

Lemma UploadVertexBuffer_serves_subranges_from_cache_witness :
  CircularBuffer.ring_ok
    (BufferCache.transient_buffer_ (Example.fresh 8192)) /\
  cache_inv (BufferCache.transient_cache_ (Example.fresh 8192)) /\
  buffer_ranges (BufferCache.transient_cache_ (Example.fresh 8192)) /\
  range32 0x1000 300 /\
  fst Example.first_vertex_upload = Some (7, 0) /\
  0 <> VK_WHOLE_SIZE /\ 0 <= 100 /\ 0 <= 50 /\ 100 + 50 <= 300 /\
  exists offset',
    offset' <> VK_WHOLE_SIZE /\
    BufferCache.UploadVertexBuffer 5 (0x1000 + 100) 50 k16in32 9
      (snd Example.first_vertex_upload) =
    (Some (CircularBuffer.gpu_buffer
             (BufferCache.transient_buffer_
                (snd Example.first_vertex_upload)), offset'),
     snd Example.first_vertex_upload).
Proof.
  assert (H1 : CircularBuffer.ring_ok
                 (BufferCache.transient_buffer_ (Example.fresh 8192))).
  { cbn. unfold RingAllocator.inside_arena. cbn.
    repeat split; try lia. constructor. }
  assert (H2 : cache_inv (BufferCache.transient_cache_ (Example.fresh 8192)))
    by apply cache_inv_nil.
  assert (H3 : buffer_ranges
                 (BufferCache.transient_cache_ (Example.fresh 8192)))
    by constructor.
  assert (H4 : range32 0x1000 300) by (unfold range32; lia).
  assert (H5 : fst Example.first_vertex_upload = Some (7, 0))
    by (vm_compute; reflexivity).
  assert (H6 : 0 <> VK_WHOLE_SIZE) by (vm_compute; discriminate).
  assert (H7 : 0 <= 100) by lia.
  assert (H8 : 0 <= 50) by lia.
  assert (H9 : 100 + 50 <= 300) by lia.
  repeat (split; [assumption|]).
  pose proof (surjective_pairing Example.first_vertex_upload) as Hp.
  rewrite H5 in Hp.
  exact (UploadVertexBuffer_serves_subranges_from_cache (Example.fresh 8192)
           100 0x1000 300 k8in32 1 7 0 (snd Example.first_vertex_upload)
           H1 H2 H3 H4 Hp H6 5 100 50 k16in32 9 H7 H8 H9).
Defined.


Lemma uploads_write_only_whole_elements_of_their_range_witness :
  0 <= 18 < 2 ^ 32 /\
  forall q,
    q < fst (BufferCache.AllocateTransientData 18 2 (Example.fresh 8192)) \/
    fst (BufferCache.AllocateTransientData 18 2 (Example.fresh 8192))
    + 4 * (18 / 4) <= q ->
    BufferCache.host_base
      (snd (BufferCache.UploadIndexBuffer 100 0x2000 18 kInt32 2
              (Example.fresh 8192))) q
    = BufferCache.host_base (Example.fresh 8192) q.
Proof.
  assert (H1 : 0 <= 18 < 2 ^ 32) by lia.
  split; [exact H1|].
  exact (proj1 (uploads_write_only_whole_elements_of_their_range
                  (Example.fresh 8192) 100 2) 0x2000 18 kInt32 H1).
Defined.

Lemma AllocateTransientData_keeps_every_cached_range_witness :
  fst (BufferCache.TryAllocateTransientData 8000 2
         Example.after_vertex_upload) = VK_WHOLE_SIZE /\
  FindCachedTransientData 0x1000 300
    (BufferCache.transient_cache_ Example.after_vertex_upload)
  <> VK_WHOLE_SIZE /\
  let s' := snd (BufferCache.AllocateTransientData 8000 2
                   Example.after_vertex_upload) in
  In CircularBuffer.CallScavenge
     (skipn (List.length (log Example.after_vertex_upload)) (log s')) /\
  BufferCache.UploadVertexBuffer 100 0x1000 300 k16in32 3 s' =
  (Some (CircularBuffer.gpu_buffer (BufferCache.transient_buffer_ s'),
         FindCachedTransientData 0x1000 300
           (BufferCache.transient_cache_ Example.after_vertex_upload)), s').
Proof.
  assert (H1 : fst (BufferCache.TryAllocateTransientData 8000 2
                      Example.after_vertex_upload) = VK_WHOLE_SIZE)
    by (vm_compute; reflexivity).
  assert (H2 : FindCachedTransientData 0x1000 300
                 (BufferCache.transient_cache_ Example.after_vertex_upload)
               <> VK_WHOLE_SIZE)
    by (vm_compute; discriminate).
  split; [exact H1|]. split; [exact H2|]. split.
  - exact (proj1 (proj2 (proj2 (proj2
      (AllocateTransientData_keeps_every_cached_range
         Example.after_vertex_upload 8000 2)))) H1).
  - exact (proj2 (proj2 (proj2 (proj2
      (AllocateTransientData_keeps_every_cached_range
         Example.after_vertex_upload 8000 2)))) 100 0x1000 300 k16in32 3 H2).
Defined.
